(** * Entropy measures of skmob/measures/individual.py

    A shallow embedding of [_stringify], [_true_entropy],
    [_real_entropy_individual], [_random_entropy_individual] and
    [_uncorrelated_entropy_individual].

    Numbers.  Sequence positions, lengths and match lengths are Python
    integers and are modelled by [nat].  Floating-point results are
    modelled by [npfloat]: a finite value is carried as an exact real
    number (rounding and overflow are not modelled), and the three IEEE
    special values that numpy returns instead of raising are kept
    ([PInf], [NInf], [NaN]).  What is proved of an [npfloat] is proved
    of the formula the code evaluates; where the rounding of the
    evaluation decides a property, the code is evaluated in IEEE
    binary64 instead (module [Float64]). *)

From Stdlib Require Import PrimFloat.
From Stdlib Require Uint63.
From Stdlib Require Import List Arith Bool Lia String Ascii ZArith.
From Stdlib Require Import DecimalString Permutation.
From Stdlib Require Import Reals Lra.
From Stdlib Require Import Sorted Lia.
Import ListNotations.

Set Implicit Arguments.

(** A decimal float literal denotes the nearest binary64 value, as it
    does in Python. *)
Set Warnings "-inexact-float".

(** ** Python and numpy primitives *)

Module Py.

(** [s[lo:hi]] for non-negative bounds: clamped at the end of [s]. *)
Definition slice {A : Type} (s : list A) (lo hi : nat) : list A :=
  skipn lo (firstn hi s).

(** [range(lo, hi)]. *)
Definition range (lo hi : nat) : list nat := seq lo (hi - lo).

(** [sep.join(parts)]. *)
Definition join (sep : string) (parts : list string) : string :=
  String.concat sep parts.

(** [sub in s] on strings: [sub] occurs in [s] as a contiguous substring. *)
Fixpoint str_in (sub s : string) : bool :=
  if String.prefix sub s then true
  else match s with
       | EmptyString => false
       | String _ s' => str_in sub s'
       end.

(** The exceptions the modelled statements can raise. *)
Inductive exn : Type :=
| ZeroDivisionError.

(** A numpy float64: a finite value or one of the special values.
    (The two zeros are one value here.) *)
Inductive npfloat : Type :=
| Fin (r : R)
| PInf
| NInf
| NaN.

(** What a call does: it returns a float, raises, or never finishes
    (the last is what running out of loop fuel stands for). *)
Inductive outcome : Type :=
| Return (v : npfloat)
| Raise (e : exn)
| Diverge.

Open Scope R_scope.

(** Base-2 logarithm of a positive real. *)
Definition log2 (x : R) : R := ln x / ln 2.

(** [np.log2(k)] for a non-negative integer [k]: minus infinity at 0
    (numpy warns, it does not raise). *)
Definition np_log2 (k : nat) : npfloat :=
  match k with
  | O => NInf
  | S _ => Fin (log2 (INR k))
  end.

(** [a / b] on Python floats: raises on a zero divisor. *)
Definition truediv (a b : R) : exn + R :=
  if Req_dec_T b 0 then inl ZeroDivisionError else inr (a / b).

(** Sign of a finite value times an infinity. *)
Definition scale_inf (r : R) (pos : bool) : npfloat :=
  if Req_dec_T r 0 then NaN
  else if Rlt_dec 0 r then (if pos then PInf else NInf)
       else (if pos then NInf else PInf).

(** [a * b] on float64. *)
Definition fmul (a b : npfloat) : npfloat :=
  match a, b with
  | NaN, _ | _, NaN => NaN
  | Fin x, Fin y => Fin (x * y)
  | Fin x, PInf | PInf, Fin x => scale_inf x true
  | Fin x, NInf | NInf, Fin x => scale_inf x false
  | PInf, PInf | NInf, NInf => PInf
  | PInf, NInf | NInf, PInf => NInf
  end.

(** [a + b] on float64. *)
Definition fadd (a b : npfloat) : npfloat :=
  match a, b with
  | NaN, _ | _, NaN => NaN
  | Fin x, Fin y => Fin (x + y)
  | PInf, NInf | NInf, PInf => NaN
  | PInf, _ | _, PInf => PInf
  | NInf, _ | _, NInf => NInf
  end.

(** [a / b] on numpy float64 (no exception: special values instead). *)
Definition fdiv (a b : npfloat) : npfloat :=
  match a, b with
  | NaN, _ | _, NaN => NaN
  | Fin x, Fin y =>
      if Req_dec_T y 0 then
        (if Req_dec_T x 0 then NaN
         else if Rlt_dec 0 x then PInf else NInf)
      else Fin (x / y)
  | Fin _, PInf | Fin _, NInf => Fin 0
  | PInf, Fin y => if Rlt_dec y 0 then NInf else PInf
  | NInf, Fin y => if Rlt_dec y 0 then PInf else NInf
  | PInf, PInf | PInf, NInf | NInf, PInf | NInf, NInf => NaN
  end.

(** [np.sum] of a float64 vector; 0.0 on the empty vector. *)
Definition fsum (v : list npfloat) : npfloat :=
  fold_left fadd v (Fin 0).

(** [scipy.special.entr]: [-x ln x] for positive [x], 0 at 0, minus
    infinity below 0. *)
Definition entr (x : npfloat) : npfloat :=
  match x with
  | NaN => NaN
  | PInf => NInf
  | NInf => NInf
  | Fin r =>
      if Req_dec_T r 0 then Fin 0
      else if Rlt_dec 0 r then Fin (- r * ln r) else NInf
  end.

(** [scipy.stats.entropy(pk, base=base)]: [pk] is normalised to sum 1,
    the entropies of the entries are summed, and the sum is divided by
    [ln base]. *)
Definition stats_entropy (pk : list R) (base : R) : npfloat :=
  let total := fsum (map Fin pk) in
  let pk' := map (fun p => fdiv (Fin p) total) pk in
  let S := fsum (map entr pk') in
  fdiv S (Fin (ln base)).

(** [sum(xs)] on floats: from 0, left to right. *)
Definition py_sum (xs : list R) : R := fold_left Rplus xs 0.

(** [max(xs)] on floats: the first of the largest items; [None] stands
    for the ValueError on an empty argument. *)
Definition py_max (xs : list R) : option R :=
  match xs with
  | [] => None
  | x :: rest => Some (fold_left (fun m y => if Rlt_dec m y then y else m) rest x)
  end.

Close Scope R_scope.

(** What a call that builds a table does: it returns, raises, or never
    finishes. *)
Inductive call (T : Type) : Type :=
| Returns (t : T)
| Raises (e : exn)
| Diverges.

Arguments Returns {T} t.
Arguments Raises {T} e.
Arguments Diverges {T}.

(** The order [groupby] puts its keys in: ascending. *)
Fixpoint insert_key (k : Z) (keys : list Z) : list Z :=
  match keys with
  | [] => [k]
  | k' :: rest =>
      if (k <=? k')%Z then k :: keys else k' :: insert_key k rest
  end.

Definition sort_keys (keys : list Z) : list Z :=
  fold_right insert_key [] keys.

(** [times.diff()[1:]] on a datetime column: the differences of
    consecutive entries (the slice drops the leading NaT of [diff]). *)
Fixpoint diff_tail (times : list Z) : list Z :=
  match times with
  | [] => []
  | t0 :: rest =>
      match rest with
      | [] => []
      | t1 :: _ => (t1 - t0)%Z :: diff_tail rest
      end
  end.

(** [.astype('timedelta64[s]')] on a difference in nanoseconds: whole
    seconds.  (On the non-negative differences of a sorted column
    rounding down and rounding towards zero agree.) *)
Definition to_seconds (ns : Z) : Z := (ns / 1000000000)%Z.

End Py.

Import Py.

(** ** float64 with its rounding

    IEEE binary64: [+], [*] and [/] round to the nearest value, ties to
    even.  The logarithms are library functions, whose results the
    standard does not fix: they are the fields of a [libm], and a
    statement names the values it relies on. *)
Module Float64.

Record libm : Type := {
  (** C's [log], which [scipy.special.entr] calls *)
  c_log : float -> float;
  (** [np.log] *)
  np_log : float -> float;
  (** [np.log2] *)
  np_log2 : float -> float
}.

(** The float of a Python integer [0 <= k < 2^63]. *)
Definition of_int (k : nat) : float :=
  of_uint63 (Uint63.of_Z (Z.of_nat k)).

(** [a / b] on Python floats: raises on a zero divisor. *)
Definition truediv (a b : float) : exn + float :=
  if (b =? 0)%float then inl ZeroDivisionError else inr (a / b)%float.

(** [np.sum] of a float64 vector of fewer than 8 entries: added to 0
    from left to right.  (numpy adds a longer vector in blocks.) *)
Definition fsum (v : list float) : float :=
  fold_left PrimFloat.add v 0%float.

(** [scipy.special.entr] *)
Definition entr (m : libm) (x : float) : float :=
  if is_nan x then x
  else if (0 <? x)%float then (- x * c_log m x)%float
  else if (x =? 0)%float then 0%float
  else neg_infinity.

(** [scipy.stats.entropy(pk, base=base)]:
    [pk = 1.0*pk / np.sum(pk)], [S = np.sum(entr(pk))],
    [S /= np.log(base)]. *)
Definition stats_entropy (m : libm) (pk : list float) (base : float)
    : float :=
  let total := fsum pk in
  let pk := map (fun p => (1.0 * p / total)%float) pk in
  let S := fsum (map (entr m) pk) in
  (S / np_log m base)%float.

End Float64.

(** Coordinates that are integer-valued floats of small magnitude:
    Python prints such a float as its decimal digits followed by [.0]. *)
Module FloatCoord.

Definition str_float (z : Z) : string :=
  (NilEmpty.string_of_int (Z.to_int z) ++ ".0")%string.

(** The location symbol [(lat, lng)]. *)
Definition loc (lat lng : Z) : list Z := [lat; lng].

(** The symbols of the concrete scenarios. *)
Definition A : list Z := loc 1 1.
Definition B : list Z := loc 2 2.
Definition C : list Z := loc 3 3.
Definition D : list Z := loc 4 4.
Definition E : list Z := loc 5 5.
Definition F : list Z := loc 6 6.

Definition abac : list (list Z) := [A; B; A; C].
Definition ababab : list (list Z) := [A; B; A; B; A; B].
Definition abcdef : list (list Z) := [A; B; C; D; E; F].

(** Three visits whose first two locations share the longitude and
    have latitudes 11.0 and 1.0. *)
Definition overlapping : list (list Z) := [loc 11 2; loc 1 2; loc 3 3].

(** Trajectories: the rows [(lat, lng)] of three visits, in two orders. *)
Definition visits_aab : list (Z * Z) := [(1, 1); (1, 1); (2, 2)]%Z.
Definition visits_aba : list (Z * Z) := [(1, 1); (2, 2); (1, 1)]%Z.

(** Rows with a datetime (nanoseconds): four visits, out of order,
    the location (1, 1) visited twice. *)
Definition second : Z := 1000000000%Z.
Definition timed_visits : list ((Z * Z) * Z) :=
  [((2, 2), 30 * second); ((1, 1), 10 * second);
   ((1, 1), 20 * second); ((3, 3), 45 * second)]%Z.

(** A sort of the rows by datetime, to stand for pandas' [sort_values]
    where a concrete one is needed. *)
Fixpoint insert_by_datetime (v : (Z * Z) * Z) (l : list ((Z * Z) * Z))
    : list ((Z * Z) * Z) :=
  match l with
  | [] => [v]
  | u :: l' =>
      if (snd v <=? snd u)%Z then v :: l else u :: insert_by_datetime v l'
  end.

Definition sort_by_datetime (l : list ((Z * Z) * Z)) : list ((Z * Z) * Z) :=
  fold_right insert_by_datetime [] l.

Definition sort_by_datetime_descending (l : list ((Z * Z) * Z))
    : list ((Z * Z) * Z) :=
  rev (sort_by_datetime l).

(** A sort of a table of counts, largest first. *)
Fixpoint insert_by_count (c : (Z * Z) * nat) (l : list ((Z * Z) * nat))
    : list ((Z * Z) * nat) :=
  match l with
  | [] => [c]
  | d :: l' =>
      if snd d <=? snd c then c :: l else d :: insert_by_count c l'
  end.

Definition sort_by_count_descending (l : list ((Z * Z) * nat))
    : list ((Z * Z) * nat) :=
  fold_right insert_by_count [] l.

(** A distance on the integer grid, to stand for the haversine distance
    where a concrete one is needed. *)
Definition grid_distance (a b : Z * Z) : R :=
  (IZR (Z.abs (fst a - fst b)) + IZR (Z.abs (snd a - snd b)))%R.

(** A night test on the hour of the day, to stand for pandas'
    [between_time]. *)
Definition night_hours (start_night end_night : string) (t : Z) : bool :=
  let hour := ((t / (3600 * second)) mod 24)%Z in
  ((22 <=? hour) || (hour <? 7))%Z.

(** Five visits, to five locations. *)
Definition five_locations : list (Z * Z) :=
  [(1, 1); (2, 2); (3, 3); (4, 4); (5, 5)]%Z.

(** The logarithms at the three points the five visits lead to: the
    binary64 values nearest to [ln 0.2], [ln 2] and [log2 5], which the
    libraries return there.  (NaN stands for the values not read.) *)
Definition logs_at_points : Float64.libm :=
  {| Float64.c_log := fun x =>
       if (x =? 0.2)%float then (-1.6094379124341003)%float else nan;
     Float64.np_log := fun x =>
       if (x =? 2)%float then 0.6931471805599453%float else nan;
     Float64.np_log2 := fun x =>
       if (x =? 5)%float then 2.321928094887362%float else nan |}.

(** Coordinates with the two zeros of IEEE: an integer-valued float,
    or the negative zero, which Python prints as [-0.0] and which
    [==] identifies with [0.0]. *)
Inductive signed : Type :=
| Float (z : Z)
| NegZero.

Definition str_signed (x : signed) : string :=
  match x with
  | Float z => str_float z
  | NegZero => "-0.0"%string
  end.

Definition value_of (x : signed) : Z :=
  match x with
  | Float z => z
  | NegZero => 0%Z
  end.

Definition eq_signed (a b : signed) : bool :=
  (value_of a =? value_of b)%Z.

(** Three visits, the second to the location of the first with the
    other zero as its longitude. *)
Definition two_zeros : list (list signed) :=
  [[Float 51; Float 0]; [Float 51; NegZero]; [Float 3; Float 3]].

End FloatCoord.

(** ** The match-length scan and the real entropy *)

Section Entropy.

(** A coordinate value, with Python's [str] on it.  [field_eq_dec] is
    the equality of values: the specification's matcher on whole
    symbols compares by it, and so do [groupby] and [np.unique] below.
    (It is Python's [==] except on the two zeros, which [==]
    identifies, and on a NaN, which [==] tells from itself; [==] itself
    is [py_eq] further down.) *)
Variable field : Type.
Variable str : field -> string.
Variable field_eq_dec : forall a b : field, {a = b} + {a <> b}.

(** A location symbol: the tuple of its fields. *)
Definition symbol : Type := list field.

Definition symbol_eq_dec : forall a b : symbol, {a = b} + {a <> b} :=
  list_eq_dec field_eq_dec.

(** [_stringify(seq)] *)
Definition _stringify (seq : list symbol) : string :=
  join "|" (map (fun r => join "_" (map str r)) seq).

(** The [while] loop of [_true_entropy] for one position [i].  The state
    is [(j, str_sub_seq)]; the result is the value of [j] when the loop
    is left, or [None] when [fuel] iterations did not leave it. *)
Fixpoint while_loop (fuel : nat) (sequence : list symbol) (n i : nat)
    (str_seq : string) (j : nat) (str_sub_seq : string) : option nat :=
  match fuel with
  | O => None
  | S fuel' =>
      if str_in str_sub_seq str_seq then
        let j := j + 1 in
        let str_sub_seq := _stringify (slice sequence i (i + j)) in
        if i + j =? n then Some (j + 1)
        else while_loop fuel' sequence n i str_seq j str_sub_seq
      else Some j
  end.

(** The body of the [for] loop up to [sum_lambda += j]: the match length
    of position [i].  The loop gets [n] iterations of fuel, which
    [match_length_at_total] shows to be enough. *)
Definition match_length_at (sequence : list symbol) (i : nat) : option nat :=
  let n := List.length sequence in
  let str_seq := _stringify (slice sequence 0 i) in
  let j := 1 in
  let str_sub_seq := _stringify (slice sequence i (i + j)) in
  while_loop n sequence n i str_seq j str_sub_seq.

(** The [for i in range(1, n - 1)] loop, threading [sum_lambda]. *)
Fixpoint for_loop (sequence : list symbol) (positions : list nat)
    (sum_lambda : R) : option R :=
  match positions with
  | [] => Some sum_lambda
  | i :: rest =>
      match match_length_at sequence i with
      | None => None
      | Some j => for_loop sequence rest (sum_lambda + INR j)%R
      end
  end.

(** [_true_entropy(sequence)] *)
Definition _true_entropy (sequence : list symbol) : outcome :=
  let n := List.length sequence in
  let sum_lambda := (1 + 2)%R in
  match for_loop sequence (range 1 (n - 1)) sum_lambda with
  | None => Diverge
  | Some sum_lambda =>
      match truediv 1 sum_lambda with
      | inl e => Raise e
      | inr q => Return (fmul (Fin (q * INR n)) (np_log2 n))
      end
  end.

(** The match lengths of the interior positions, in order. *)
Fixpoint collect (sequence : list symbol) (positions : list nat)
    : option (list nat) :=
  match positions with
  | [] => Some []
  | i :: rest =>
      match match_length_at sequence i, collect sequence rest with
      | Some j, Some js => Some (j :: js)
      | _, _ => None
      end
  end.

Definition match_lengths (sequence : list symbol) : option (list nat) :=
  collect sequence (range 1 (List.length sequence - 1)).

(** *** The symbol-level reference matcher

    The matcher the specification asks for: the same scan, with the
    containment test made on whole symbols instead of on their text. *)

(** [sub] is a contiguous run of whole symbols of [l]. *)
Definition contiguous_run (sub l : list symbol) : Prop :=
  exists before after, l = before ++ sub ++ after.

Fixpoint starts_with (sub l : list symbol) : bool :=
  match sub, l with
  | [], _ => true
  | _ :: _, [] => false
  | x :: sub', y :: l' =>
      if symbol_eq_dec x y then starts_with sub' l' else false
  end.

(** Decides [contiguous_run] (lemma [occurs_spec]). *)
Fixpoint occurs (sub l : list symbol) : bool :=
  if starts_with sub l then true
  else match l with
       | [] => false
       | _ :: l' => occurs sub l'
       end.

(** The loop of the scan over an arbitrary containment test [test j]
    ("the candidate of length [j] occurs in the prefix"). *)
Fixpoint scan (test : nat -> bool) (fuel n i j : nat) : option nat :=
  match fuel with
  | O => None
  | S fuel' =>
      if test j then
        if i + (j + 1) =? n then Some (j + 1 + 1)
        else scan test fuel' n i (j + 1)
      else Some j
  end.

(** The containment test of the source, on text. *)
Definition text_test (sequence : list symbol) (i j : nat) : bool :=
  str_in (_stringify (slice sequence i (i + j)))
         (_stringify (slice sequence 0 i)).

(** The containment test on whole symbols. *)
Definition symbol_test (sequence : list symbol) (i j : nat) : bool :=
  occurs (slice sequence i (i + j)) (slice sequence 0 i).

Definition symbol_match_length_at (sequence : list symbol) (i : nat)
    : option nat :=
  let n := List.length sequence in
  scan (symbol_test sequence i) n n i 1.

Fixpoint symbol_collect (sequence : list symbol) (positions : list nat)
    : option (list nat) :=
  match positions with
  | [] => Some []
  | i :: rest =>
      match symbol_match_length_at sequence i,
            symbol_collect sequence rest with
      | Some j, Some js => Some (j :: js)
      | _, _ => None
      end
  end.

Definition symbol_match_lengths (sequence : list symbol)
    : option (list nat) :=
  symbol_collect sequence (range 1 (List.length sequence - 1)).

(** The text test and the symbol test agree on every candidate of
    position [i], and on every interior position. *)
Definition faithful_at (sequence : list symbol) (i : nat) : bool :=
  forallb (fun j => Bool.eqb (text_test sequence i j)
                             (symbol_test sequence i j))
          (seq 1 (List.length sequence - i)).

Definition faithful (sequence : list symbol) : bool :=
  forallb (faithful_at sequence) (range 1 (List.length sequence - 1)).

(** The MatchLength of the data model, as the specification words it:
    the least [j >= 1], [j <= n - i], whose candidate is not a run of
    the prefix, and [(n - i) + 1] when there is none. *)
Definition MatchLength (sequence : list symbol) (i : nat) : nat :=
  let n := List.length sequence in
  match find (fun j => negb (symbol_test sequence i j)) (seq 1 (n - i)) with
  | Some j => j
  | None => (n - i) + 1
  end.

(** ** Trajectories and the three per-individual measures *)

(** A row of the trajectory frame, reduced to its latitude and
    longitude columns (the only ones these measures read). *)
Definition row : Type := (field * field)%type.

Definition row_eq_dec : forall a b : row, {a = b} + {a <> b}.
Proof. decide equality. Defined.

Definition row_eqb (a b : row) : bool :=
  if row_eq_dec a b then true else false.

(** [traj.groupby([LATITUDE, LONGITUDE])]: one group per distinct pair,
    holding the rows with that pair.  (pandas orders the groups by key;
    the measures below only take the number of groups and sums over
    them, and the order is not modelled.) *)
Definition groupby (traj : list row) : list (row * list row) :=
  map (fun key => (key, filter (fun r => row_eqb r key) traj))
      (nodup row_eq_dec traj).

(** [np.unique(traj[[LATITUDE, LONGITUDE]].values, axis=0)] *)
Definition np_unique (traj : list row) : list row :=
  nodup row_eq_dec traj.

(** [tuple(map(tuple, traj[[LATITUDE, LONGITUDE]].values))] *)
Definition time_series (traj : list row) : list symbol :=
  map (fun r => [fst r; snd r]) traj.

(** [_real_entropy_individual(traj)] *)
Definition _real_entropy_individual (traj : list row) : outcome :=
  _true_entropy (time_series traj).

(** [_random_entropy_individual(traj)] *)
Definition _random_entropy_individual (traj : list row) : outcome :=
  let n_distinct_locs := List.length (groupby traj) in
  Return (np_log2 n_distinct_locs).

(** [[1.0 * len(group) / n for group in groups]] *)
Fixpoint probs_of (groups : list (row * list row)) (n : nat)
    : exn + list R :=
  match groups with
  | [] => inr []
  | (_, group) :: rest =>
      match truediv (1 * INR (List.length group))%R (INR n) with
      | inl e => inl e
      | inr p =>
          match probs_of rest n with
          | inl e => inl e
          | inr ps => inr (p :: ps)
          end
      end
  end.

(** [_uncorrelated_entropy_individual(traj, normalize)] *)
Definition _uncorrelated_entropy_individual (traj : list row)
    (normalize : bool) : outcome :=
  let n := List.length traj in
  match probs_of (groupby traj) n with
  | inl e => Raise e
  | inr probs =>
      let entropy := stats_entropy probs 2 in
      if normalize then
        let n_vals := List.length (np_unique traj) in
        if 1 <? n_vals then Return (fdiv entropy (np_log2 n_vals))
        else Return (Fin 0)
      else Return entropy
  end.

(** *** The Shannon entropy of the visitation frequencies

    As the specification words it: [- sum_j p_j * log2 p_j] over the
    distinct locations, [p_j] the fraction of the visits made to
    location [j]. *)

Definition frequency (traj : list row) (key : row) : R :=
  (INR (count_occ row_eq_dec traj key) / INR (List.length traj))%R.

Fixpoint Rsum (l : list R) : R :=
  match l with
  | [] => 0%R
  | x :: l' => (x + Rsum l')%R
  end.

Definition shannon (traj : list row) : R :=
  (- Rsum (map (fun key => frequency traj key * log2 (frequency traj key))
               (nodup row_eq_dec traj)))%R.

(** The number [N] of distinct locations. *)
Definition distinct_locations (traj : list row) : nat :=
  List.length (nodup row_eq_dec traj).

(** ** The entry points over a frame of several individuals

    A trajectory frame has a uid column or not; its rows are reduced
    to the uid and the location columns. *)
Inductive TrajDataFrame : Type :=
| NoUid (rows : list row)
| WithUid (rows : list (Z * row)).

(** The frame an entry point returns: one value under a column name,
    or one row [uid, value] per individual. *)
Inductive ResultFrame : Type :=
| OneValue (column : string) (value : npfloat)
| PerUser (column : string) (rows : list (Z * npfloat)).

(** The rows of one individual, in the order of the frame. *)
Definition rows_of_user (rows : list (Z * row)) (uid : Z) : list row :=
  map snd (filter (fun r => (fst r =? uid)%Z) rows).

(** [traj.groupby(UID)]: one group per uid, the uids ascending. *)
Definition groupby_uid (rows : list (Z * row)) : list (Z * list row) :=
  map (fun uid => (uid, rows_of_user rows uid))
      (sort_keys (nodup Z.eq_dec (map fst rows))).

(** [.apply(f)] / [.progress_apply(f)] over the groups: the values in
    the order of the groups; it stops at the first group on which [f]
    does not return. *)
Fixpoint apply_groups (f : list row -> outcome)
    (groups : list (Z * list row)) : call (list (Z * npfloat)) :=
  match groups with
  | [] => Returns []
  | (uid, group) :: rest =>
      match f group with
      | Return v =>
          match apply_groups f rest with
          | Returns values => Returns ((uid, v) :: values)
          | Raises e => Raises e
          | Diverges => Diverges
          end
      | Raise e => Raises e
      | Diverge => Diverges
      end
  end.

(** [pd.DataFrame(df).reset_index().rename(columns={0: name})] *)
Definition per_user (name : string) (df : call (list (Z * npfloat)))
    : call ResultFrame :=
  match df with
  | Returns values => Returns (PerUser name values)
  | Raises e => Raises e
  | Diverges => Diverges
  end.

(** [pd.DataFrame([value], columns=[name])] *)
Definition one_value (name : string) (value : outcome) : call ResultFrame :=
  match value with
  | Return v => Returns (OneValue name v)
  | Raise e => Raises e
  | Diverge => Diverges
  end.

(** [random_entropy(traj, show_progress)] *)
Definition random_entropy (traj : TrajDataFrame) (show_progress : bool)
    : call ResultFrame :=
  match traj with
  | NoUid rows =>
      one_value "random_entropy" (_random_entropy_individual rows)
  | WithUid rows =>
      let df :=
        if show_progress
        then apply_groups (fun x => _random_entropy_individual x)
                          (groupby_uid rows)
        else apply_groups (fun x => _random_entropy_individual x)
                          (groupby_uid rows) in
      per_user "random_entropy" df
  end.

(** [uncorrelated_entropy(traj, normalize, show_progress)].  Without
    a uid column the call to [_uncorrelated_entropy_individual] does
    not pass [normalize] on: it runs with the default, False. *)
Definition uncorrelated_entropy (traj : TrajDataFrame)
    (normalize show_progress : bool) : call ResultFrame :=
  let column_name :=
    if normalize then "norm_uncorrelated_entropy"%string
    else "uncorrelated_entropy"%string in
  match traj with
  | NoUid rows =>
      one_value column_name (_uncorrelated_entropy_individual rows false)
  | WithUid rows =>
      let df :=
        if show_progress
        then apply_groups
               (fun x => _uncorrelated_entropy_individual x normalize)
               (groupby_uid rows)
        else apply_groups
               (fun x => _uncorrelated_entropy_individual x normalize)
               (groupby_uid rows) in
      per_user column_name df
  end.

(** [real_entropy(traj, show_progress)] *)
Definition real_entropy (traj : TrajDataFrame) (show_progress : bool)
    : call ResultFrame :=
  match traj with
  | NoUid rows => one_value "real_entropy" (_real_entropy_individual rows)
  | WithUid rows =>
      let df :=
        if show_progress
        then apply_groups (fun x => _real_entropy_individual x)
                          (groupby_uid rows)
        else apply_groups (fun x => _real_entropy_individual x)
                          (groupby_uid rows) in
      per_user "real_entropy" df
  end.

(** What [number_of_visits] returns: an integer, or one row
    [uid, count] per individual. *)
Inductive VisitsFrame : Type :=
| Count (n : nat)
| CountPerUser (column : string) (rows : list (Z * nat)).

(** [number_of_visits(traj, show_progress)] *)
Definition number_of_visits (traj : TrajDataFrame) (show_progress : bool)
    : VisitsFrame :=
  match traj with
  | NoUid rows => Count (List.length rows)
  | WithUid rows =>
      let df :=
        if show_progress
        then map (fun g => (fst g, List.length (snd g))) (groupby_uid rows)
        else map (fun g => (fst g, List.length (snd g))) (groupby_uid rows) in
      CountPerUser "number_of_visits" df
  end.

(** ** The other per-individual measures

    A trajectory with its datetime column: a visit is a row and its
    datetime, in nanoseconds. *)
Definition visit : Type := (row * Z)%type.
Definition location (v : visit) : row := fst v.
Definition datetime (v : visit) : Z := snd v.

(** What the measures take from outside this file: the haversine
    distance of [skmob.utils.gislib], and pandas' sorts and time
    filter.  pandas sorts with an unstable algorithm, so the order of
    rows with equal keys is left open.
    - [sort_values]: [traj.sort_values(by=DATETIME)];
    - [sort_values_descending]: the same with [ascending=False];
    - [sort_counts_descending]: [sort_values(ascending=False)] on the
      table of counts per location;
    - [between_time start end t]: the time of day of [t] lies between
      [start] and [end]. *)
Variable getDistanceByHaversine : row -> row -> R.
Variable sort_values : list visit -> list visit.
Variable sort_values_descending : list visit -> list visit.
Variable sort_counts_descending : list (row * nat) -> list (row * nat).
Variable between_time : string -> string -> Z -> bool.

(** [traj.groupby([LATITUDE, LONGITUDE]).count()[DATETIME]]: the number
    of rows of each location. *)
Definition count_per_location (traj : list visit) : list (row * nat) :=
  map (fun g => (fst g, List.length (snd g))) (groupby (map location traj)).

(** [_number_of_locations_individual(traj)] *)
Definition _number_of_locations_individual (traj : list visit) : nat :=
  let n_locs := List.length (groupby (map location traj)) in
  n_locs.

(** The list comprehension of [_jump_lengths_individual]; [None] stands
    for an IndexError on [lats_lngs[i]] or [lats_lngs[i - 1]]. *)
Fixpoint jumps_from (lats_lngs : list row) (indices : list nat)
    : option (list R) :=
  match indices with
  | [] => Some []
  | i :: rest =>
      match nth_error lats_lngs i, nth_error lats_lngs (i - 1),
            jumps_from lats_lngs rest with
      | Some current, Some previous, Some lengths =>
          Some (getDistanceByHaversine current previous :: lengths)
      | _, _, _ => None
      end
  end.

(** [_jump_lengths_individual(traj)] *)
Definition _jump_lengths_individual (traj : list visit) : option (list R) :=
  if List.length traj =? 1 then Some []
  else
    let lats_lngs := map location (sort_values traj) in
    jumps_from lats_lngs (range 1 (List.length lats_lngs)).

(** [_maximum_distance_individual(traj)] *)
Definition _maximum_distance_individual (traj : list visit)
    : option npfloat :=
  match _jump_lengths_individual traj with
  | None => None
  | Some jumps =>
      if 0 <? List.length jumps then option_map Fin (py_max jumps)
      else Some NaN
  end.

(** [_distance_straight_line_individual(traj)] *)
Definition _distance_straight_line_individual (traj : list visit)
    : option R :=
  match _jump_lengths_individual traj with
  | None => None
  | Some jumps =>
      if 0 <? List.length jumps then Some (py_sum jumps) else Some 0%R
  end.

(** [_waiting_times_individual(traj)]: whole seconds (the conversion to
    float is exact on them). *)
Definition _waiting_times_individual (traj : list visit) : list Z :=
  if List.length traj =? 1 then []
  else
    let times := map datetime (sort_values traj) in
    let wtimes := map to_seconds (diff_tail times) in
    wtimes.


(** [_frequency_rank_individual(traj)]: the rows [(lat, lng), rank]. *)
Definition _frequency_rank_individual (traj : list visit)
    : list (row * nat) :=
  let table := sort_counts_descending (count_per_location traj) in
  combine (map fst table) (range 1 (List.length table + 1)).

(** [drop_duplicates(subset=[LATITUDE, LONGITUDE], keep="first")] *)
Fixpoint drop_duplicates_from (seen : list row) (l : list visit)
    : list visit :=
  match l with
  | [] => []
  | v :: l' =>
      if in_dec row_eq_dec (location v) seen
      then drop_duplicates_from seen l'
      else v :: drop_duplicates_from (location v :: seen) l'
  end.

Definition drop_duplicates (l : list visit) : list visit :=
  drop_duplicates_from [] l.

(** [_recency_rank_individual(traj)]: the rows [(lat, lng), rank]. *)
Definition _recency_rank_individual (traj : list visit)
    : list (row * nat) :=
  let traj := drop_duplicates (sort_values_descending traj) in
  combine (map location traj) (range 1 (List.length traj + 1)).

(** [_home_location_individual(traj, start_night, end_night)]; [None]
    stands for the IndexError of [.iloc[0]] on an empty table. *)
Definition _home_location_individual (traj : list visit)
    (start_night end_night : string) : option row :=
  let night_visits :=
    filter (fun v => between_time start_night end_night (datetime v)) traj in
  let table :=
    if negb (List.length night_visits =? 0)
    then sort_counts_descending (count_per_location night_visits)
    else sort_counts_descending (count_per_location traj) in
  match table with
  | [] => None
  | (home_coords, _) :: _ => Some home_coords
  end.

(** The visits [_home_location_individual] counts: the night visits
    when there are some, all the visits otherwise. *)
Definition home_pool (traj : list visit) (start_night end_night : string)
    : list visit :=
  let night_visits :=
    filter (fun v => between_time start_night end_night (datetime v)) traj in
  if negb (List.length night_visits =? 0) then night_visits else traj.

(** *** The mobility network

    [loc2loc2weight] is a dictionary of dictionaries, both with
    defaults; they are kept as association lists in insertion order,
    which is the order the rows are read out in. *)
Definition weights : Type := list (row * nat).
Definition network : Type := list (row * weights).

(** [loc2weight[current] += 1] *)
Fixpoint add_trip (loc2weight : weights) (current : row) : weights :=
  match loc2weight with
  | [] => [(current, 0 + 1)]
  | (loc2, weight) :: others =>
      if row_eq_dec loc2 current then (loc2, weight + 1) :: others
      else (loc2, weight) :: add_trip others current
  end.

(** [loc2loc2weight[prev][current] += 1] *)
Fixpoint add_edge (loc2loc2weight : network) (prev current : row)
    : network :=
  match loc2loc2weight with
  | [] => [(prev, add_trip [] current)]
  | (loc1, loc2weight) :: others =>
      if row_eq_dec loc1 prev
      then (loc1, add_trip loc2weight current) :: others
      else (loc1, loc2weight) :: add_edge others prev current
  end.

(** The [for lat, lng in lats_lngs[1:]] loop, with its counter [i];
    [None] stands for an IndexError on [lats_lngs[i - 1]]. *)
Fixpoint network_loop (self_loops : bool) (lats_lngs rest : list row)
    (i : nat) (loc2loc2weight : network) : option network :=
  match rest with
  | [] => Some loc2loc2weight
  | current :: rest' =>
      match nth_error lats_lngs (i - 1) with
      | None => None
      | Some prev =>
          let loc2loc2weight :=
            if negb (row_eqb prev current)
            then add_edge loc2loc2weight prev current
            else if self_loops
                 then add_edge loc2loc2weight prev current
                 else loc2loc2weight in
          network_loop self_loops lats_lngs rest' (i + 1) loc2loc2weight
      end
  end.

(** The rows [origin, dest, n_trips] read out of the dictionaries. *)
Definition network_rows (loc2loc2weight : network)
    : list (row * row * nat) :=
  flat_map (fun entry =>
              map (fun trip => (fst entry, fst trip, snd trip)) (snd entry))
           loc2loc2weight.

(** [_individual_mobility_network_individual(traj, self_loops)] *)
Definition _individual_mobility_network_individual (traj : list visit)
    (self_loops : bool) : option (list (row * row * nat)) :=
  let traj := sort_values traj in
  let lats_lngs := map location traj in
  match network_loop self_loops lats_lngs
          (slice lats_lngs 1 (List.length lats_lngs)) 1 [] with
  | None => None
  | Some loc2loc2weight => Some (network_rows loc2loc2weight)
  end.

(** The moves of a sequence of locations: the pairs of consecutive
    entries. *)
Fixpoint consecutive_pairs (l : list row) : list (row * row) :=
  match l with
  | [] => []
  | a :: rest =>
      match rest with
      | [] => []
      | b :: _ => (a, b) :: consecutive_pairs rest
      end
  end.

Definition pair_eq_dec : forall a b : row * row, {a = b} + {a <> b}.
Proof. decide equality; apply row_eq_dec. Defined.

(** The moves the loop records: the pairs of consecutive locations
    that differ, and with [self_loops] all of them. *)
Definition moves (self_loops : bool) (lats_lngs : list row)
    : list (row * row) :=
  filter (fun m => negb (row_eqb (fst m) (snd m)) || self_loops)
         (consecutive_pairs lats_lngs).

(** What the dictionaries hold: the weight of a key, 0 when the key is
    absent. *)
Fixpoint weight_of (loc2weight : weights) (key : row) : nat :=
  match loc2weight with
  | [] => 0
  | (loc2, weight) :: others =>
      if row_eq_dec loc2 key then weight else weight_of others key
  end.

Fixpoint trips_of (loc2loc2weight : network) (origin dest : row) : nat :=
  match loc2loc2weight with
  | [] => 0
  | (loc1, loc2weight) :: others =>
      if row_eq_dec loc1 origin then weight_of loc2weight dest
      else trips_of others origin dest
  end.

(** Dictionaries have each key once, and every weight stored is
    positive. *)
Definition weights_ok (loc2weight : weights) : Prop :=
  NoDup (map fst loc2weight) /\ Forall (fun t => 1 <= snd t) loc2weight.

Definition network_ok (loc2loc2weight : network) : Prop :=
  NoDup (map fst loc2loc2weight) /\
  Forall (fun e => weights_ok (snd e)) loc2loc2weight.

(** The sum of a list of integers. *)
Fixpoint Zsum (l : list Z) : Z :=
  match l with
  | [] => 0%Z
  | x :: l' => (x + Zsum l')%Z
  end.

(** ** The symbol-level matcher up to Python's [==]

    Python's [==] on coordinate values is not the equality of their
    texts: on floats, [0.0 == -0.0] holds although [str] gives [0.0]
    and [-0.0].  The matcher below is the symbol-level matcher with
    symbols compared by [==]. *)
Variable py_eq : field -> field -> bool.

(** [a == b] on two tuples: the same length, and the items pairwise
    [==]. *)
Fixpoint py_eq_symbol (a b : symbol) : bool :=
  match a, b with
  | [], [] => true
  | x :: a', y :: b' => py_eq x y && py_eq_symbol a' b'
  | _, _ => false
  end.

Fixpoint py_starts_with (sub l : list symbol) : bool :=
  match sub, l with
  | [], _ => true
  | _ :: _, [] => false
  | x :: sub', y :: l' => py_eq_symbol x y && py_starts_with sub' l'
  end.

(** [sub] is, up to [==], a contiguous run of whole symbols of [l]. *)
Fixpoint py_occurs (sub l : list symbol) : bool :=
  if py_starts_with sub l then true
  else match l with
       | [] => false
       | _ :: l' => py_occurs sub l'
       end.

Definition py_symbol_test (sequence : list symbol) (i j : nat) : bool :=
  py_occurs (slice sequence i (i + j)) (slice sequence 0 i).

Definition py_symbol_match_length_at (sequence : list symbol) (i : nat)
    : option nat :=
  let n := List.length sequence in
  scan (py_symbol_test sequence i) n n i 1.

Fixpoint py_symbol_collect (sequence : list symbol) (positions : list nat)
    : option (list nat) :=
  match positions with
  | [] => Some []
  | i :: rest =>
      match py_symbol_match_length_at sequence i,
            py_symbol_collect sequence rest with
      | Some j, Some js => Some (j :: js)
      | _, _ => None
      end
  end.

Definition py_symbol_match_lengths (sequence : list symbol)
    : option (list nat) :=
  py_symbol_collect sequence (range 1 (List.length sequence - 1)).

(** The coordinates of [fields] that are [==] have the same text. *)
Definition prints_alike (fields : list field) : bool :=
  forallb (fun a =>
             forallb (fun b => implb (py_eq a b) (String.eqb (str a) (str b)))
                     fields)
          fields.

(** ** The uncorrelated entropy in binary64

    [_uncorrelated_entropy_individual] once more, statement by
    statement, with float64 as IEEE binary64.  (The order of the
    groups, which [groupby] here does not take from pandas, matters to
    a rounded sum only when the groups differ in size.) *)

(** [[1.0 * len(group) / n for group in groups]] *)
Fixpoint probs_of_float64 (groups : list (row * list row)) (n : nat)
    : exn + list float :=
  match groups with
  | [] => inr []
  | (_, group) :: rest =>
      match Float64.truediv
              (1.0 * Float64.of_int (List.length group))%float
              (Float64.of_int n) with
      | inl e => inl e
      | inr p =>
          match probs_of_float64 rest n with
          | inl e => inl e
          | inr ps => inr (p :: ps)
          end
      end
  end.

Definition _uncorrelated_entropy_individual_float64 (m : Float64.libm)
    (traj : list row) (normalize : bool) : call float :=
  let n := List.length traj in
  match probs_of_float64 (groupby traj) n with
  | inl e => Raises e
  | inr probs =>
      let entropy := Float64.stats_entropy m probs 2.0 in
      if normalize then
        let n_vals := List.length (np_unique traj) in
        if 1 <? n_vals then
          Returns (entropy / Float64.np_log2 m (Float64.of_int n_vals))%float
        else Returns 0.0%float
      else Returns entropy
  end.

(** ** Facts about the scan *)

Unset Implicit Arguments.

Lemma while_loop_scan (fuel : nat) (sequence : list symbol) (n i j : nat) :
  while_loop fuel sequence n i (_stringify (slice sequence 0 i)) j
             (_stringify (slice sequence i (i + j)))
  = scan (text_test sequence i) fuel n i j.
Proof.
  revert j. induction fuel as [|fuel IH]; intro j; simpl; [reflexivity|].
  unfold text_test at 1.
  destruct (str_in _ _); [|reflexivity].
  destruct (i + (j + 1) =? n); [reflexivity|].
  apply IH.
Qed.

Lemma match_length_at_scan (sequence : list symbol) (i : nat) :
  match_length_at sequence i
  = scan (text_test sequence i) (List.length sequence)
         (List.length sequence) i 1.
Proof. unfold match_length_at. apply while_loop_scan. Qed.

(** The loop ends within [n - (i + j)] iterations, at the first
    candidate length that fails the test, or at the sentinel when every
    candidate shorter than the whole suffix passes it. *)
Lemma scan_spec (test : nat -> bool) (fuel n i j : nat) :
  i + j < n -> n - (i + j) <= fuel ->
  exists m, scan test fuel n i j = Some m /\
    ((j <= m /\ i + m < n /\ test m = false /\
      forall k, j <= k < m -> test k = true)
     \/ (m = (n - i) + 1 /\ forall k, j <= k -> i + k < n -> test k = true)).
Proof.
  revert j. induction fuel as [|fuel IH]; intros j Hlt Hfuel; [lia|].
  simpl. destruct (test j) eqn:Htest.
  - destruct (i + (j + 1) =? n) eqn:Hend.
    + apply Nat.eqb_eq in Hend. exists (j + 1 + 1). split; [reflexivity|].
      right. split; [lia|]. intros k Hk Hkn.
      assert (k = j) by lia. subst k. exact Htest.
    + apply Nat.eqb_neq in Hend.
      destruct (IH (j + 1)) as [m [Hm Hcase]]; [lia|lia|].
      exists m. split; [exact Hm|].
      destruct Hcase as [[Hjm [Him [Hfalse Hbelow]]]|[Hsent Hall]].
      * left. repeat split; try lia; try assumption.
        intros k Hk. destruct (Nat.eq_dec k j) as [->|Hne]; [exact Htest|].
        apply Hbelow. lia.
      * right. split; [exact Hsent|]. intros k Hk Hkn.
        destruct (Nat.eq_dec k j) as [->|Hne]; [exact Htest|].
        apply Hall; lia.
  - exists j. split; [reflexivity|]. left. repeat split; try lia; try assumption.
Qed.

(** Two tests that agree on the candidates of position [i] give the
    same scan. *)
Lemma scan_ext (test test' : nat -> bool) (fuel n i j : nat) :
  (forall k, j <= k -> i + k < n -> test k = test' k) ->
  i + j < n ->
  scan test fuel n i j = scan test' fuel n i j.
Proof.
  revert j. induction fuel as [|fuel IH]; intros j Hagree Hlt; [reflexivity|].
  simpl. rewrite <- (Hagree j) by lia.
  destruct (test j); [|reflexivity].
  destruct (i + (j + 1) =? n) eqn:Hend; [reflexivity|].
  apply Nat.eqb_neq in Hend.
  apply IH; [|lia]. intros k Hk Hkn. apply Hagree; lia.
Qed.

(** Every interior position has a match length: the fuel never runs
    out, and the length lies between 1 and the sentinel. *)
Lemma match_length_at_total (sequence : list symbol) (i : nat) :
  1 <= i -> i + 1 < List.length sequence ->
  exists m, match_length_at sequence i = Some m /\
            1 <= m <= (List.length sequence - i) + 1.
Proof.
  intros Hi Hint. rewrite match_length_at_scan.
  destruct (@scan_spec (text_test sequence i) (List.length sequence)
              (List.length sequence) i 1) as [m [Hm Hcase]]; [lia|lia|].
  exists m. split; [exact Hm|].
  destruct Hcase as [[? [? _]]|[-> _]]; lia.
Qed.

Lemma collect_total (sequence : list symbol) (positions : list nat) :
  Forall (fun i => 1 <= i /\ i + 1 < List.length sequence) positions ->
  exists ms, collect sequence positions = Some ms /\
    Forall2 (fun i m => match_length_at sequence i = Some m) positions ms /\
    Forall (fun m => 1 <= m) ms.
Proof.
  induction 1 as [|i rest [Hi Hint] _ IH]; simpl.
  - exists []. repeat split; constructor.
  - destruct (match_length_at_total sequence i Hi Hint) as [m [Hm Hb]].
    destruct IH as [ms [Hms [Hall Hpos]]].
    exists (m :: ms). rewrite Hm, Hms.
    repeat split; constructor; try assumption; lia.
Qed.

Lemma interior_range (n : nat) :
  Forall (fun i => 1 <= i /\ i + 1 < n) (range 1 (n - 1)).
Proof.
  apply Forall_forall. intros i Hin. unfold range in Hin.
  apply in_seq in Hin. lia.
Qed.

Lemma match_lengths_total (sequence : list symbol) :
  exists ms, match_lengths sequence = Some ms /\
    Forall2 (fun i m => match_length_at sequence i = Some m)
            (range 1 (List.length sequence - 1)) ms /\
    Forall (fun m => 1 <= m) ms.
Proof. apply collect_total, interior_range. Qed.

Lemma for_loop_collect (sequence : list symbol) (positions : list nat)
    (ms : list nat) (s : R) :
  collect sequence positions = Some ms ->
  for_loop sequence positions s = Some (s + INR (list_sum ms))%R.
Proof.
  revert ms s. induction positions as [|i rest IH]; intros ms s; simpl.
  - intros [= <-]. simpl. f_equal. lra.
  - destruct (match_length_at sequence i) as [m|]; [|discriminate].
    destruct (collect sequence rest) as [ms'|] eqn:Hrest; [|discriminate].
    intros [= <-]. rewrite (IH ms' _ eq_refl). f_equal.
    simpl. rewrite plus_INR. lra.
Qed.

(** ** The symbol-level containment test *)

Lemma starts_with_spec (sub l : list symbol) :
  starts_with sub l = true <-> exists after, l = sub ++ after.
Proof.
  revert l. induction sub as [|x sub IH]; intro l; simpl.
  - split; [intros _; exists l; reflexivity | reflexivity].
  - destruct l as [|y l].
    + split; [discriminate | intros [after H]; discriminate].
    + destruct (symbol_eq_dec x y) as [->|Hne].
      * rewrite IH. split; intros [after H]; exists after.
        -- now rewrite H.
        -- now injection H.
      * split; [discriminate|]. intros [after H]. injection H as H _.
        now elim Hne.
Qed.

Lemma occurs_spec (sub l : list symbol) :
  occurs sub l = true <-> contiguous_run sub l.
Proof.
  unfold contiguous_run. induction l as [|y l IH]; simpl.
  - destruct (starts_with sub []) eqn:Hs.
    + apply starts_with_spec in Hs. destruct Hs as [after H].
      split; [intros _; exists [], after; exact H | reflexivity].
    + split; [discriminate|]. intros [before [after H]].
      destruct before; [|discriminate]. simpl in H.
      assert (starts_with sub [] = true)
        by (apply starts_with_spec; exists after; exact H).
      congruence.
  - destruct (starts_with sub (y :: l)) eqn:Hs.
    + apply starts_with_spec in Hs. destruct Hs as [after H].
      split; [intros _; exists [], after; exact H | reflexivity].
    + rewrite IH. split.
      * intros [before [after H]]. exists (y :: before), after.
        simpl. now rewrite H.
      * intros [before [after H]]. destruct before as [|z before].
        -- simpl in H.
           assert (starts_with sub (y :: l) = true)
             by (apply starts_with_spec; exists after; exact H).
           congruence.
        -- injection H as _ H. exists before, after. exact H.
Qed.

Lemma occurs_false (sub l : list symbol) :
  occurs sub l = false <-> ~ contiguous_run sub l.
Proof.
  rewrite <- occurs_spec. destruct (occurs sub l); intuition congruence.
Qed.

Lemma faithful_at_agree (sequence : list symbol) (i : nat) :
  faithful_at sequence i = true ->
  forall k, 1 <= k -> i + k <= List.length sequence ->
            text_test sequence i k = symbol_test sequence i k.
Proof.
  unfold faithful_at. rewrite forallb_forall. intros H k Hk Hkn.
  apply Bool.eqb_prop, H, in_seq. lia.
Qed.

(** On a position where the text test is faithful, the source's scan
    and the symbol-level matcher return the same length. *)
Lemma faithful_at_match_length (sequence : list symbol) (i : nat) :
  faithful_at sequence i = true -> i + 1 < List.length sequence ->
  match_length_at sequence i = symbol_match_length_at sequence i.
Proof.
  intros Hf Hint. rewrite match_length_at_scan.
  unfold symbol_match_length_at. apply scan_ext; [|exact Hint].
  intros k Hk Hkn. apply faithful_at_agree; [exact Hf|lia|lia].
Qed.

Lemma faithful_collect (sequence : list symbol) (positions : list nat) :
  Forall (fun i => 1 <= i /\ i + 1 < List.length sequence) positions ->
  forallb (faithful_at sequence) positions = true ->
  collect sequence positions = symbol_collect sequence positions.
Proof.
  induction 1 as [|i rest [Hi Hint] _ IH]; simpl; [reflexivity|].
  intro Hf. apply andb_prop in Hf. destruct Hf as [Hfi Hfr].
  rewrite (faithful_at_match_length _ _ Hfi Hint), (IH Hfr). reflexivity.
Qed.

Lemma faithful_match_lengths (sequence : list symbol) :
  faithful sequence = true ->
  match_lengths sequence = symbol_match_lengths sequence.
Proof. intro Hf. apply faithful_collect; [apply interior_range|exact Hf]. Qed.

(** ** The text of a run of symbols *)

Lemma prefix_app (sub rest : string) :
  String.prefix sub (sub ++ rest) = true.
Proof.
  induction sub as [|c sub IH]; simpl; [destruct rest; reflexivity|].
  destruct (ascii_dec c c); [exact IH|congruence].
Qed.

Lemma str_in_prefix (sub s : string) :
  String.prefix sub s = true -> str_in sub s = true.
Proof. intro H. destruct s; cbn [str_in]; now rewrite H. Qed.

Lemma str_in_app (before sub after : string) :
  str_in sub (before ++ sub ++ after) = true.
Proof.
  induction before as [|c before IH].
  - change ("" ++ sub ++ after)%string with (sub ++ after)%string.
    apply str_in_prefix, prefix_app.
  - cbn [str_in String.append]. rewrite IH.
    now destruct (String.prefix _ _).
Qed.

Lemma string_app_assoc (x y z : string) :
  ((x ++ y) ++ z = x ++ (y ++ z))%string.
Proof. induction x as [|c x IH]; simpl; [reflexivity|now rewrite IH]. Qed.

Lemma string_app_nil_l (x : string) : ("" ++ x = x)%string.
Proof. reflexivity. Qed.

Lemma string_app_nil_r (x : string) : (x ++ "" = x)%string.
Proof. induction x as [|c x IH]; simpl; [reflexivity|now rewrite IH]. Qed.

(** [sep.join(l1 + l2)] when neither part is empty. *)
Lemma join_app (sep : string) (l1 l2 : list string) :
  l1 <> [] -> l2 <> [] ->
  join sep (l1 ++ l2) = (join sep l1 ++ sep ++ join sep l2)%string.
Proof.
  intros H1 H2. unfold join.
  induction l1 as [|x l1 IH]; [congruence|].
  destruct l1 as [|y l1].
  - simpl. destruct l2; [congruence|reflexivity].
  - change (((x :: y :: l1) ++ l2)%list) with (x :: ((y :: l1) ++ l2)%list).
    change (String.concat sep (x :: (y :: l1) ++ l2))
      with (x ++ sep ++ String.concat sep ((y :: l1) ++ l2))%string.
    rewrite IH by discriminate.
    change (String.concat sep (x :: y :: l1))
      with (x ++ sep ++ String.concat sep (y :: l1))%string.
    now rewrite !string_app_assoc.
Qed.

(** The text of a run sits inside the text of the list around it. *)
Lemma join_run (sep : string) (before run after : list string) :
  exists left right,
    join sep (before ++ run ++ after)
    = (left ++ join sep run ++ right)%string.
Proof.
  destruct run as [|r run].
  - exists ""%string, (join sep (before ++ after)). reflexivity.
  - assert (Hrun : r :: run <> []) by discriminate.
    destruct before as [|b before], after as [|a after].
    + exists ""%string, ""%string.
      now rewrite app_nil_l, app_nil_r, string_app_nil_l, string_app_nil_r.
    + exists ""%string, (sep ++ join sep (a :: after))%string.
      rewrite app_nil_l, join_app by discriminate.
      now rewrite string_app_nil_l.
    + exists (join sep (b :: before) ++ sep)%string, ""%string.
      rewrite app_nil_r, join_app by discriminate.
      now rewrite string_app_nil_r, string_app_assoc.
    + exists (join sep (b :: before) ++ sep)%string,
             (sep ++ join sep (a :: after))%string.
      rewrite join_app by (try discriminate; now destruct run).
      rewrite (join_app sep (r :: run) (a :: after)) by discriminate.
      now rewrite !string_app_assoc.
Qed.

Lemma scan_ge (test : nat -> bool) (fuel n i j m : nat) :
  scan test fuel n i j = Some m -> j <= m.
Proof.
  revert j. induction fuel as [|fuel IH]; intro j; simpl; [discriminate|].
  destruct (test j).
  - destruct (i + (j + 1) =? n).
    + intros [= Hm]. lia.
    + intro Hm. apply IH in Hm. lia.
  - intros [= Hm]. lia.
Qed.

(** A test that passes more often keeps the loop running at least as
    long. *)
Lemma scan_mono (test test' : nat -> bool) (fuel n i j m m' : nat) :
  (forall k, test k = true -> test' k = true) ->
  scan test fuel n i j = Some m ->
  scan test' fuel n i j = Some m' ->
  m <= m'.
Proof.
  intro Himp. revert j.
  induction fuel as [|fuel IH]; intro j; simpl; [discriminate|].
  destruct (test j) eqn:Ht.
  - rewrite (Himp j Ht).
    destruct (i + (j + 1) =? n); [|apply IH].
    intros [= Hm] [= Hm']. lia.
  - intros [= Hm]. destruct (test' j).
    + destruct (i + (j + 1) =? n).
      * intros [= Hm']. lia.
      * intro Hm'. apply scan_ge in Hm'. lia.
    + intros [= Hm']. lia.
Qed.

(** ** Facts about the numeric primitives *)

Lemma truediv_nonzero (a b : R) :
  b <> 0%R -> truediv a b = inr (a / b)%R.
Proof.
  intro Hb. unfold truediv. destruct (Req_dec_T b 0); [contradiction|reflexivity].
Qed.

Lemma np_log2_pos (k : nat) : 1 <= k -> np_log2 k = Fin (log2 (INR k)).
Proof. destruct k; [lia|reflexivity]. Qed.

Lemma ln2_pos : (0 < ln 2)%R.
Proof. rewrite <- ln_1. apply ln_increasing; lra. Qed.

Lemma log2_1 : log2 1 = 0%R.
Proof. unfold log2. rewrite ln_1. unfold Rdiv. apply Rmult_0_l. Qed.

Lemma log2_2 : log2 2 = 1%R.
Proof. unfold log2. field. pose proof ln2_pos. lra. Qed.

Lemma log2_gt_1 (x : R) : (1 < x)%R -> (0 < log2 x)%R.
Proof.
  intro Hx. unfold log2. apply Rdiv_lt_0_compat; [|apply ln2_pos].
  rewrite <- ln_1. apply ln_increasing; lra.
Qed.

Lemma list_sum_ge_length (ms : list nat) :
  Forall (fun m => 1 <= m) ms -> List.length ms <= list_sum ms.
Proof. induction 1; simpl; lia. Qed.

(** The value [_true_entropy] computes, before any case analysis on
    [n]: no exception, no exhausted fuel, and the quotient
    [1 / (3 + sum of the match lengths)] times [n] times [np.log2(n)]. *)
Lemma _true_entropy_value (sequence : list symbol) :
  exists ms, match_lengths sequence = Some ms /\
    Forall2 (fun i m => match_length_at sequence i = Some m)
            (range 1 (List.length sequence - 1)) ms /\
    Forall (fun m => 1 <= m) ms /\
    _true_entropy sequence =
      Return (fmul (Fin (1 / (3 + INR (list_sum ms))
                         * INR (List.length sequence)))
                   (np_log2 (List.length sequence))).
Proof.
  destruct (match_lengths_total sequence) as [ms [Hms [Hall Hpos]]].
  exists ms. repeat split; try assumption.
  unfold _true_entropy. unfold match_lengths in Hms.
  rewrite (for_loop_collect _ _ _ _ Hms).
  pose proof (pos_INR (list_sum ms)) as Hs.
  rewrite truediv_nonzero by lra.
  replace (1 + 2 + INR (list_sum ms))%R with (3 + INR (list_sum ms))%R by lra.
  reflexivity.
Qed.

(** ** The match length of an interior position *)

(** C1 (as the code has it).  On a sequence of length [n >= 3] and an
    interior position [i] where the containment test is faithful to the
    symbols, the scan returns the least [j >= 1] with [j <= n - i - 1]
    whose candidate [sequence[i:i+j]] is not a contiguous run of
    [sequence[0:i]]; when every candidate of length at most [n - i - 1]
    is such a run, it returns the sentinel [(n - i) + 1].  The candidate
    of length [n - i], the whole suffix, is never tested. *)
Theorem match_length_first_unmatched (sequence : list symbol) (i : nat) :
  3 <= List.length sequence ->
  1 <= i <= List.length sequence - 2 ->
  faithful_at sequence i = true ->
  exists m, match_length_at sequence i = Some m /\
    ((1 <= m <= List.length sequence - i - 1 /\
      ~ contiguous_run (slice sequence i (i + m)) (slice sequence 0 i) /\
      forall k, 1 <= k < m ->
        contiguous_run (slice sequence i (i + k)) (slice sequence 0 i))
     \/
     (m = (List.length sequence - i) + 1 /\
      forall k, 1 <= k <= List.length sequence - i - 1 ->
        contiguous_run (slice sequence i (i + k)) (slice sequence 0 i))).
Proof.
  intros Hn Hi Hf. rewrite match_length_at_scan.
  destruct (scan_spec (text_test sequence i) (List.length sequence)
              (List.length sequence) i 1) as [m [Hm Hcase]]; [lia|lia|].
  exists m. split; [exact Hm|].
  destruct Hcase as [[H1 [Him [Hfalse Hbelow]]]|[Hsent Hall]].
  - left. split; [lia|]. split.
    + apply occurs_false. fold (symbol_test sequence i m).
      rewrite <- (faithful_at_agree sequence i Hf) by lia. exact Hfalse.
    + intros k Hk. apply occurs_spec. fold (symbol_test sequence i k).
      rewrite <- (faithful_at_agree sequence i Hf) by lia.
      apply Hbelow. lia.
  - right. split; [exact Hsent|]. intros k Hk.
    apply occurs_spec. fold (symbol_test sequence i k).
    rewrite <- (faithful_at_agree sequence i Hf) by lia.
    apply Hall; lia.
Qed.

(** ** The real entropy *)

Lemma _true_entropy_of_lengths (sequence : list symbol) (ms : list nat) :
  1 <= List.length sequence ->
  match_lengths sequence = Some ms ->
  _true_entropy sequence =
    Return (Fin (INR (List.length sequence)
                 * log2 (INR (List.length sequence))
                 / (3 + INR (list_sum ms)))%R).
Proof.
  intros Hn Hms.
  destruct (_true_entropy_value sequence) as [ms' [Hms' [_ [_ Hval]]]].
  rewrite Hms in Hms'. injection Hms' as <-.
  rewrite Hval, (np_log2_pos _ Hn). simpl. do 2 f_equal.
  pose proof (pos_INR (list_sum ms)). field. lra.
Qed.

(** C3.  On a sequence of length [n >= 1], [_true_entropy] returns
    [n * log2 n] divided by the sum of contributions, which is 3 plus
    the match lengths of the interior positions [1 .. n-2], each taken
    once and in order. *)
Theorem _true_entropy_formula (sequence : list symbol) :
  1 <= List.length sequence ->
  exists ms,
    match_lengths sequence = Some ms /\
    Forall2 (fun i m => match_length_at sequence i = Some m)
            (range 1 (List.length sequence - 1)) ms /\
    _true_entropy sequence =
      Return (Fin (INR (List.length sequence)
                   * log2 (INR (List.length sequence))
                   / (3 + INR (list_sum ms)))%R).
Proof.
  intro Hn.
  destruct (match_lengths_total sequence) as [ms [Hms [Hall _]]].
  exists ms. split; [exact Hms|]. split; [exact Hall|].
  apply _true_entropy_of_lengths; assumption.
Qed.

Lemma groupby_length (traj : list row) :
  List.length (groupby traj) = List.length (nodup row_eq_dec traj).
Proof. unfold groupby. apply length_map. Qed.

(** C5.  A sequence of length 1 has real entropy 0 and random entropy
    0; a sequence of length 2 has real entropy 2/3, whatever its
    symbols. *)
Theorem short_sequences (s1 s2 : list symbol) (t1 : list row) :
  List.length s1 = 1 -> List.length t1 = 1 -> List.length s2 = 2 ->
  _true_entropy s1 = Return (Fin 0) /\
  _real_entropy_individual t1 = Return (Fin 0) /\
  _random_entropy_individual t1 = Return (Fin 0) /\
  _true_entropy s2 = Return (Fin (2 / 3)).
Proof.
  intros Hs1 Ht1 Hs2.
  assert (H1 : forall s : list symbol, List.length s = 1 ->
                 _true_entropy s = Return (Fin 0)).
  { intros s Hs. unfold _true_entropy. rewrite Hs. simpl.
    rewrite truediv_nonzero by lra. simpl. rewrite log2_1.
    do 2 f_equal. lra. }
  split; [apply H1, Hs1|]. split; [|split].
  - apply H1. unfold time_series. now rewrite length_map.
  - unfold _random_entropy_individual. rewrite groupby_length.
    destruct t1 as [|r [|r' t1]]; try discriminate. simpl.
    now rewrite log2_1.
  - unfold _true_entropy. rewrite Hs2. simpl.
    rewrite truediv_nonzero by lra. simpl.
    replace (1 + 1)%R with 2%R by lra. rewrite log2_2.
    do 2 f_equal. lra.
Qed.

(** C6.  On a sequence of length [n >= 1] every interior match length
    is at least 1, the sum of contributions is 3 plus their sum, it is
    at least 3 and at least [n], and the division by it does not raise:
    [_true_entropy] never raises an exception. *)
Theorem sum_of_contributions_bounds (sequence : list symbol) :
  1 <= List.length sequence ->
  exists ms sum_lambda,
    Forall2 (fun i m => match_length_at sequence i = Some m)
            (range 1 (List.length sequence - 1)) ms /\
    Forall (fun m => 1 <= m) ms /\
    for_loop sequence (range 1 (List.length sequence - 1)) (1 + 2)%R
      = Some sum_lambda /\
    sum_lambda = (3 + INR (list_sum ms))%R /\
    (3 <= sum_lambda)%R /\
    (INR (List.length sequence) <= sum_lambda)%R /\
    truediv 1 sum_lambda = inr (1 / sum_lambda)%R /\
    forall e, _true_entropy sequence <> Raise e.
Proof.
  intros Hn.
  destruct (_true_entropy_value sequence) as [ms [Hms [Hall [Hpos Hval]]]].
  exists ms, (3 + INR (list_sum ms))%R.
  pose proof (pos_INR (list_sum ms)) as Hs.
  split; [exact Hall|]. split; [exact Hpos|].
  split.
  { unfold match_lengths in Hms. rewrite (for_loop_collect _ _ _ _ Hms).
    f_equal; lra. }
  split; [reflexivity|]. split; [lra|]. split.
  { apply Forall2_length in Hall. unfold range in Hall.
    rewrite length_seq in Hall.
    pose proof (list_sum_ge_length ms Hpos) as Hlen.
    replace 3%R with (INR 3) by (simpl; lra). rewrite <- plus_INR.
    apply le_INR. lia. }
  split; [apply truediv_nonzero; lra|].
  intros e. rewrite Hval. discriminate.
Qed.

(** ** The two length-6 scenarios *)

Lemma symbol_eq_dec_refl (x : symbol) (T : Type) (u v : T) :
  (if symbol_eq_dec x x then u else v) = u.
Proof. destruct (symbol_eq_dec x x); [reflexivity|congruence]. Qed.

Lemma symbol_eq_dec_neq (x y : symbol) (T : Type) (u v : T) :
  x <> y -> (if symbol_eq_dec x y then u else v) = v.
Proof. intro H. destruct (symbol_eq_dec x y); [contradiction|reflexivity]. Qed.

Ltac eval_symbol_scan :=
  cbn -[symbol_eq_dec];
  repeat first
    [ rewrite symbol_eq_dec_refl
    | rewrite symbol_eq_dec_neq by (assumption || (apply not_eq_sym; assumption)) ];
  cbn -[symbol_eq_dec].

Lemma alternating_symbol_match_lengths (a b : symbol) :
  a <> b -> symbol_match_lengths [a; b; a; b; a; b] = Some [1; 3; 4; 3].
Proof.
  intro Hab. unfold symbol_match_lengths, symbol_collect, range,
    symbol_match_length_at, symbol_test, slice.
  repeat eval_symbol_scan. reflexivity.
Qed.

Lemma distinct_symbol_match_lengths (a b c d e f : symbol) :
  NoDup [a; b; c; d; e; f] ->
  symbol_match_lengths [a; b; c; d; e; f] = Some [1; 1; 1; 1].
Proof.
  intro Hnd.
  assert (Hd : a <> b /\ a <> c /\ a <> d /\ a <> e /\
               b <> c /\ b <> d /\ b <> e /\ c <> d /\ c <> e /\ d <> e).
  { repeat match goal with
           | H : NoDup (_ :: _) |- _ => inversion H; clear H; subst
           end.
    simpl in *. intuition congruence. }
  destruct Hd as (? & ? & ? & ? & ? & ? & ? & ? & ? & ?).
  unfold symbol_match_lengths, symbol_collect, range,
    symbol_match_length_at, symbol_test, slice.
  repeat eval_symbol_scan. reflexivity.
Qed.

(** C7 (as the code has it).  For distinct symbols on which the
    containment test is faithful, the interior match lengths of
    [[a, b, a, b, a, b]] are 1, 3, 4, 3, those of the all-distinct
    [[a, b, c, d, e, f]] are 1, 1, 1, 1, and the real entropy of the
    first, [6 log2 6 / 14], is strictly below that of the second,
    [6 log2 6 / 7]. *)
Theorem alternating_vs_distinct (a b c d e f : symbol) :
  NoDup [a; b; c; d; e; f] ->
  faithful [a; b; a; b; a; b] = true ->
  faithful [a; b; c; d; e; f] = true ->
  match_lengths [a; b; a; b; a; b] = Some [1; 3; 4; 3] /\
  match_lengths [a; b; c; d; e; f] = Some [1; 1; 1; 1] /\
  _true_entropy [a; b; a; b; a; b] = Return (Fin (6 * log2 6 / 14)) /\
  _true_entropy [a; b; c; d; e; f] = Return (Fin (6 * log2 6 / 7)) /\
  (6 * log2 6 / 14 < 6 * log2 6 / 7)%R.
Proof.
  intros Hnd Hf1 Hf2.
  assert (Hab : a <> b).
  { inversion Hnd as [|? ? Hnotin _]. simpl in Hnotin. intuition congruence. }
  assert (Hm1 : match_lengths [a; b; a; b; a; b] = Some [1; 3; 4; 3]).
  { rewrite (faithful_match_lengths _ Hf1).
    apply alternating_symbol_match_lengths, Hab. }
  assert (Hm2 : match_lengths [a; b; c; d; e; f] = Some [1; 1; 1; 1]).
  { rewrite (faithful_match_lengths _ Hf2).
    apply distinct_symbol_match_lengths, Hnd. }
  split; [exact Hm1|]. split; [exact Hm2|].
  split; [|split].
  - rewrite (_true_entropy_of_lengths _ [1; 3; 4; 3]);
      [|simpl; lia|exact Hm1].
    change (List.length [a; b; a; b; a; b]) with 6.
    change (list_sum [1; 3; 4; 3]) with 11.
    replace (INR 6) with 6%R by (simpl; lra).
    replace (INR 11) with 11%R by (simpl; lra).
    do 2 f_equal. lra.
  - rewrite (_true_entropy_of_lengths _ [1; 1; 1; 1]);
      [|simpl; lia|exact Hm2].
    change (List.length [a; b; c; d; e; f]) with 6.
    change (list_sum [1; 1; 1; 1]) with 4.
    replace (INR 6) with 6%R by (simpl; lra).
    replace (INR 4) with 4%R by (simpl; lra).
    do 2 f_equal. lra.
  - assert (0 < log2 6)%R by (apply log2_gt_1; lra). lra.
Qed.

(** ** Visit counts and frequencies *)

Lemma filter_count (traj : list row) (key : row) :
  List.length (filter (fun r => row_eqb r key) traj)
  = count_occ row_eq_dec traj key.
Proof.
  induction traj as [|r traj IH]; simpl; [reflexivity|].
  unfold row_eqb at 1. destruct (row_eq_dec r key); simpl; now rewrite IH.
Qed.

Lemma indicator_sum (keys : list row) (r : row) :
  list_sum (map (fun k => if row_eq_dec r k then 1 else 0) keys)
  = count_occ row_eq_dec keys r.
Proof.
  induction keys as [|k keys IH]; simpl; [reflexivity|].
  rewrite IH. destruct (row_eq_dec r k), (row_eq_dec k r); simpl; congruence.
Qed.

Lemma list_sum_map_add (T : Type) (f g : T -> nat) (l : list T) :
  list_sum (map (fun x => f x + g x) l)
  = list_sum (map f l) + list_sum (map g l).
Proof. induction l as [|x l IH]; simpl; [reflexivity|]. rewrite IH. lia. Qed.

(** Every visit falls in exactly one group. *)
Lemma count_sum (traj keys : list row) :
  NoDup keys -> incl traj keys ->
  list_sum (map (count_occ row_eq_dec traj) keys) = List.length traj.
Proof.
  intros Hnd. induction traj as [|r traj IH]; intro Hincl.
  - simpl. clear. induction keys as [|k keys IHk]; simpl; [reflexivity|exact IHk].
  - assert (Hr : In r keys) by (apply Hincl; now left).
    assert (Hrest : incl traj keys)
      by (intros x Hx; apply Hincl; now right).
    rewrite (map_ext (count_occ row_eq_dec (r :: traj))
               (fun k => (if row_eq_dec r k then 1 else 0)
                         + count_occ row_eq_dec traj k)).
    + rewrite list_sum_map_add, indicator_sum, (IH Hrest).
      rewrite (proj1 (NoDup_count_occ' row_eq_dec keys) Hnd r Hr).
      reflexivity.
    + intro k. simpl. destruct (row_eq_dec r k); reflexivity.
Qed.

Lemma Rsum_counts (count : row -> nat) (x : R) (keys : list row) :
  Rsum (map (fun k => INR (count k) / x)%R keys)
  = (INR (list_sum (map count keys)) / x)%R.
Proof.
  induction keys as [|k keys IH]; simpl.
  - unfold Rdiv. now rewrite Rmult_0_l.
  - rewrite IH, plus_INR. unfold Rdiv. ring.
Qed.

Lemma frequencies_sum (traj : list row) :
  traj <> [] ->
  Rsum (map (frequency traj) (nodup row_eq_dec traj)) = 1%R.
Proof.
  intro Hne. unfold frequency.
  rewrite (Rsum_counts (count_occ row_eq_dec traj)).
  rewrite count_sum.
  - apply Rdiv_diag. apply not_0_INR. destruct traj; [congruence|discriminate].
  - apply NoDup_nodup.
  - intros x Hx. now apply nodup_In.
Qed.

Lemma frequency_pos (traj : list row) (key : row) :
  In key traj -> (0 < frequency traj key <= 1)%R.
Proof.
  intro Hin. unfold frequency.
  assert (Hc : 0 < count_occ row_eq_dec traj key)
    by (apply count_occ_In; exact Hin).
  pose proof (count_occ_bound row_eq_dec key traj) as Hb.
  assert (Hn : (0 < INR (List.length traj))%R) by (apply lt_0_INR; lia).
  split.
  - apply Rdiv_lt_0_compat; [apply lt_0_INR; exact Hc|exact Hn].
  - apply Rmult_le_reg_r with (INR (List.length traj)); [exact Hn|].
    unfold Rdiv. rewrite Rmult_assoc, Rinv_l by lra.
    rewrite Rmult_1_r, Rmult_1_l. apply le_INR. exact Hb.
Qed.

Lemma frequencies_pos (traj : list row) :
  Forall (fun p => 0 < p <= 1)%R
         (map (frequency traj) (nodup row_eq_dec traj)).
Proof.
  apply Forall_forall. intros p Hp. apply in_map_iff in Hp.
  destruct Hp as [key [<- Hkey]]. apply frequency_pos.
  now apply nodup_In in Hkey.
Qed.

Lemma probs_of_keys (traj keys : list row) :
  traj <> [] ->
  probs_of (map (fun key => (key, filter (fun r => row_eqb r key) traj)) keys)
           (List.length traj)
  = inr (map (frequency traj) keys).
Proof.
  intro Hne.
  assert (Hn : INR (List.length traj) <> 0%R).
  { apply not_0_INR. destruct traj; [congruence|discriminate]. }
  induction keys as [|k keys IH]; [reflexivity|].
  cbn [map probs_of]. rewrite truediv_nonzero by exact Hn. rewrite IH.
  rewrite filter_count. unfold frequency at 2. do 2 f_equal.
  now rewrite Rmult_1_l.
Qed.

(** The list comprehension never divides by zero: with no visit there
    is no group, and otherwise [n] is positive. *)
Lemma probs_of_groupby (traj : list row) :
  probs_of (groupby traj) (List.length traj)
  = inr (map (frequency traj) (nodup row_eq_dec traj)).
Proof.
  destruct traj as [|r0 traj0]; [reflexivity|].
  apply probs_of_keys. discriminate.
Qed.

(** ** scipy's entropy on a distribution *)

Lemma fold_fadd_Fin (l : list R) (a : R) :
  fold_left fadd (map Fin l) (Fin a) = Fin (a + Rsum l).
Proof.
  revert a. induction l as [|x l IH]; intro a; simpl.
  - f_equal. lra.
  - rewrite IH. f_equal. lra.
Qed.

Lemma fsum_Fin (l : list R) : fsum (map Fin l) = Fin (Rsum l).
Proof. unfold fsum. rewrite fold_fadd_Fin. f_equal. lra. Qed.

Lemma fdiv_Fin (x y : R) : y <> 0%R -> fdiv (Fin x) (Fin y) = Fin (x / y).
Proof.
  intro Hy. simpl. destruct (Req_dec_T y 0); [contradiction|reflexivity].
Qed.

Lemma entr_pos (p : R) : (0 < p)%R -> entr (Fin p) = Fin (- p * ln p).
Proof.
  intro Hp. simpl. destruct (Req_dec_T p 0); [lra|].
  destruct (Rlt_dec 0 p); [reflexivity|contradiction].
Qed.

Lemma entr_normalised (pk : list R) :
  Forall (fun p => 0 < p <= 1)%R pk ->
  map entr (map (fun p => fdiv (Fin p) (Fin 1)) pk)
  = map Fin (map (fun p => - p * ln p)%R pk).
Proof.
  induction 1 as [|p pk Hp _ IH]; cbn [map]; [reflexivity|].
  rewrite IH, fdiv_Fin by lra. f_equal.
  replace (p / 1)%R with p by lra. apply entr_pos. lra.
Qed.

Lemma Rsum_entropy_base2 (pk : list R) :
  (Rsum (map (fun p => - p * ln p) pk) / ln 2
   = - Rsum (map (fun p => p * log2 p) pk))%R.
Proof.
  pose proof ln2_pos as H2.
  induction pk as [|p pk IH]; simpl.
  - unfold Rdiv. rewrite Rmult_0_l. lra.
  - rewrite Rdiv_plus_distr, IH. unfold log2. field. lra.
Qed.

Lemma stats_entropy_distribution (pk : list R) :
  Forall (fun p => 0 < p <= 1)%R pk -> Rsum pk = 1%R ->
  stats_entropy pk 2 = Fin (- Rsum (map (fun p => p * log2 p) pk))%R.
Proof.
  intros Hpos Hsum. unfold stats_entropy.
  rewrite fsum_Fin, Hsum, (entr_normalised pk Hpos), fsum_Fin.
  rewrite fdiv_Fin by (pose proof ln2_pos; lra).
  f_equal. apply Rsum_entropy_base2.
Qed.

(** ** The uncorrelated entropy *)

Lemma shannon_as_sum (traj : list row) :
  shannon traj
  = (- Rsum (map (fun p => p * log2 p)
                 (map (frequency traj) (nodup row_eq_dec traj))))%R.
Proof. unfold shannon. now rewrite map_map. Qed.

(** What [_uncorrelated_entropy_individual] returns on a non-empty
    trajectory, before the case analysis on the number of locations. *)
Lemma _uncorrelated_entropy_value (traj : list row) (normalize : bool) :
  traj <> [] ->
  _uncorrelated_entropy_individual traj normalize =
    Return (if normalize then
              if 1 <? distinct_locations traj
              then fdiv (Fin (shannon traj))
                        (np_log2 (distinct_locations traj))
              else Fin 0
            else Fin (shannon traj)).
Proof.
  intro Hne. unfold _uncorrelated_entropy_individual.
  rewrite probs_of_groupby.
  rewrite stats_entropy_distribution
    by (apply frequencies_pos || apply frequencies_sum, Hne).
  rewrite <- shannon_as_sum. unfold np_unique, distinct_locations.
  destruct normalize; [|reflexivity].
  destruct (1 <? _); reflexivity.
Qed.

Lemma log2_distinct_pos (k : nat) : 1 < k -> (0 < log2 (INR k))%R.
Proof.
  intro Hk. apply log2_gt_1. replace 1%R with (INR 1) by reflexivity.
  apply lt_INR. exact Hk.
Qed.

Lemma _uncorrelated_entropy_normalized (traj : list row) :
  traj <> [] ->
  (1 < distinct_locations traj ->
     _uncorrelated_entropy_individual traj true =
       Return (Fin (shannon traj / log2 (INR (distinct_locations traj))))) /\
  (distinct_locations traj <= 1 ->
     _uncorrelated_entropy_individual traj true = Return (Fin 0)).
Proof.
  intro Hne. split.
  - intro HN. rewrite (_uncorrelated_entropy_value traj true Hne).
    rewrite (proj2 (Nat.ltb_lt _ _) HN), np_log2_pos by lia.
    rewrite fdiv_Fin; [reflexivity|].
    pose proof (log2_distinct_pos _ HN). lra.
  - intro HN. rewrite (_uncorrelated_entropy_value traj true Hne).
    rewrite (proj2 (Nat.ltb_ge _ _) HN). reflexivity.
Qed.

(** C8.  On a non-empty trajectory the uncorrelated entropy is the
    base-2 Shannon entropy of the visitation frequencies (which sum to
    1); with [normalize] it is that value divided by [log2 N] when the
    number [N] of distinct locations exceeds 1, and 0 when [N <= 1]. *)
Theorem uncorrelated_is_shannon (traj : list row) :
  traj <> [] ->
  Rsum (map (frequency traj) (nodup row_eq_dec traj)) = 1%R /\
  _uncorrelated_entropy_individual traj false = Return (Fin (shannon traj)) /\
  (1 < distinct_locations traj ->
     _uncorrelated_entropy_individual traj true =
       Return (Fin (shannon traj / log2 (INR (distinct_locations traj))))) /\
  (distinct_locations traj <= 1 ->
     _uncorrelated_entropy_individual traj true = Return (Fin 0)).
Proof.
  intro Hne. split; [apply frequencies_sum, Hne|].
  split; [apply (_uncorrelated_entropy_value traj false Hne)|].
  apply _uncorrelated_entropy_normalized, Hne.
Qed.

(** *** The bound by [log2 N] *)

Lemma ln_le_minus_1 (x : R) : (0 < x)%R -> (ln x <= x - 1)%R.
Proof.
  intro Hx. pose proof (exp_ineq1_le (ln x)) as H.
  rewrite exp_ln in H by exact Hx. lra.
Qed.

Lemma entropy_term_bound (p c : R) :
  (0 < p)%R -> (0 < c)%R -> (- p * ln p <= p * ln c + / c - p)%R.
Proof.
  intros Hp Hc.
  assert (Hpc : (0 < p * c)%R) by (apply Rmult_lt_0_compat; assumption).
  pose proof (ln_le_minus_1 (/ (p * c)) (Rinv_0_lt_compat _ Hpc)) as H.
  rewrite ln_Rinv, ln_mult in H by assumption.
  apply (Rmult_le_compat_l p) in H; [|lra].
  replace (p * (/ (p * c) - 1))%R with (/ c - p)%R in H by (field; lra).
  lra.
Qed.

Lemma entropy_sum_bound (pk : list R) (c : R) :
  Forall (fun p => 0 < p <= 1)%R pk -> (0 < c)%R ->
  (Rsum (map (fun p => - p * ln p) pk)
   <= ln c * Rsum pk + INR (List.length pk) * / c - Rsum pk)%R.
Proof.
  intros Hpos Hc. induction Hpos as [|p pk [Hp _] _ IH].
  - simpl. lra.
  - cbn [map Rsum List.length]. rewrite S_INR.
    pose proof (entropy_term_bound p c Hp Hc). lra.
Qed.

Lemma entropy_sum_nonneg (pk : list R) :
  Forall (fun p => 0 < p <= 1)%R pk ->
  (0 <= Rsum (map (fun p => - p * ln p) pk))%R.
Proof.
  induction 1 as [|p pk [Hp Hp1] _ IH]; simpl; [lra|].
  pose proof (ln_le_minus_1 p Hp).
  assert (0 <= p * - ln p)%R by (apply Rmult_le_pos; lra). lra.
Qed.

Lemma distinct_locations_pos (traj : list row) :
  traj <> [] -> 1 <= distinct_locations traj.
Proof.
  destruct traj as [|r traj]; [congruence|]. intros _.
  unfold distinct_locations.
  assert (Hin : In r (nodup row_eq_dec (r :: traj)))
    by (apply nodup_In; now left).
  destruct (nodup row_eq_dec (r :: traj)); [contradiction|simpl; lia].
Qed.

(** The Shannon entropy lies between 0 and [log2 N]. *)
Lemma shannon_bounds (traj : list row) :
  traj <> [] ->
  (0 <= shannon traj <= log2 (INR (distinct_locations traj)))%R.
Proof.
  intro Hne. rewrite shannon_as_sum, <- Rsum_entropy_base2.
  set (pk := map (frequency traj) (nodup row_eq_dec traj)).
  pose proof (frequencies_pos traj) as Hpos. fold pk in Hpos.
  pose proof (frequencies_sum traj Hne) as Hsum. fold pk in Hsum.
  pose proof ln2_pos as H2.
  pose proof (distinct_locations_pos traj Hne) as HN.
  assert (Hc : (0 < INR (distinct_locations traj))%R)
    by (apply lt_0_INR; lia).
  pose proof (entropy_sum_bound pk _ Hpos Hc) as Hub.
  assert (Hlen : List.length pk = distinct_locations traj)
    by (unfold pk; apply length_map).
  rewrite Hsum, Hlen, Rinv_r in Hub by lra.
  split.
  - apply Rmult_le_pos; [apply entropy_sum_nonneg, Hpos|].
    left. apply Rinv_0_lt_compat, H2.
  - unfold log2, Rdiv. apply Rmult_le_compat_r; [|lra].
    left. apply Rinv_0_lt_compat, H2.
Qed.

(** The formula in exact arithmetic: on a non-empty trajectory the
    Shannon entropy of the visitation frequencies lies between 0 and
    [log2 N], and its quotient by [log2 N] lies in [[0, 1]].  The
    rounded evaluation leaves the interval
    ([normalized_uncorrelated_exceeds_one]). *)
Lemma normalized_uncorrelated_in_unit_interval (traj : list row) :
  traj <> [] ->
  (0 <= shannon traj <= log2 (INR (distinct_locations traj)))%R /\
  exists r, _uncorrelated_entropy_individual traj true = Return (Fin r) /\
            (0 <= r <= 1)%R.
Proof.
  intro Hne. pose proof (shannon_bounds traj Hne) as Hb.
  split; [exact Hb|].
  destruct (_uncorrelated_entropy_normalized traj Hne) as [Hgt Hle].
  destruct (Nat.lt_ge_cases 1 (distinct_locations traj)) as [HN|HN].
  - exists (shannon traj / log2 (INR (distinct_locations traj)))%R.
    split; [apply Hgt, HN|].
    pose proof (log2_distinct_pos _ HN) as Hpos. split.
    + apply Rmult_le_pos; [lra|]. left. apply Rinv_0_lt_compat, Hpos.
    + apply Rmult_le_reg_r with (log2 (INR (distinct_locations traj)));
        [exact Hpos|].
      unfold Rdiv. rewrite Rmult_assoc, Rinv_l by lra. lra.
  - exists 0%R. split; [apply Hle, HN|lra].
Qed.

(** ** Order of the visits *)

Lemma nodup_Permutation (l l' : list row) :
  Permutation l l' ->
  Permutation (nodup row_eq_dec l) (nodup row_eq_dec l').
Proof.
  intro Hp. apply NoDup_Permutation; try apply NoDup_nodup.
  intro x. rewrite !nodup_In. split; apply Permutation_in.
  - exact Hp.
  - apply Permutation_sym, Hp.
Qed.

Lemma Rsum_Permutation (l l' : list R) :
  Permutation l l' -> Rsum l = Rsum l'.
Proof. induction 1; simpl; lra. Qed.

Lemma frequency_Permutation (l l' : list row) (key : row) :
  Permutation l l' -> frequency l key = frequency l' key.
Proof.
  intro Hp. unfold frequency.
  rewrite (proj1 (Permutation_count_occ row_eq_dec l l') Hp key).
  now rewrite (Permutation_length Hp).
Qed.

Lemma shannon_Permutation (l l' : list row) :
  Permutation l l' -> shannon l = shannon l'.
Proof.
  intro Hp. unfold shannon. f_equal.
  rewrite (map_ext _ (fun key => frequency l' key * log2 (frequency l' key))%R)
    by (intro key; now rewrite (frequency_Permutation l l' key Hp)).
  apply Rsum_Permutation, Permutation_map, nodup_Permutation, Hp.
Qed.

Lemma distinct_locations_Permutation (l l' : list row) :
  Permutation l l' -> distinct_locations l = distinct_locations l'.
Proof.
  intro Hp. unfold distinct_locations.
  apply Permutation_length, nodup_Permutation, Hp.
Qed.

(** C10.  Reordering the visits of a non-empty trajectory changes
    neither the random entropy, which reads the number of distinct
    locations, nor the uncorrelated entropy, normalised or not, which
    reads the visit counts.  (The real entropy does change:
    [real_entropy_depends_on_order].) *)
Theorem order_independence (traj traj' : list row) (normalize : bool) :
  traj <> [] -> Permutation traj traj' ->
  _random_entropy_individual traj = _random_entropy_individual traj' /\
  _uncorrelated_entropy_individual traj normalize
  = _uncorrelated_entropy_individual traj' normalize /\
  distinct_locations traj = distinct_locations traj' /\
  (forall key, count_occ row_eq_dec traj key
               = count_occ row_eq_dec traj' key).
Proof.
  intros Hne Hp.
  assert (Hne' : traj' <> []).
  { intros ->. apply Hne. apply Permutation_nil, Permutation_sym, Hp. }
  pose proof (distinct_locations_Permutation traj traj' Hp) as HN.
  split; [|split; [|split]].
  - unfold _random_entropy_individual. rewrite !groupby_length.
    fold (distinct_locations traj) (distinct_locations traj').
    now rewrite HN.
  - rewrite (_uncorrelated_entropy_value traj normalize Hne).
    rewrite (_uncorrelated_entropy_value traj' normalize Hne').
    now rewrite HN, (shannon_Permutation traj traj' Hp).
  - exact HN.
  - apply Permutation_count_occ, Hp.
Qed.

(** ** The empty sequence *)

Lemma _true_entropy_empty : _true_entropy [] = Return NaN.
Proof.
  unfold _true_entropy. simpl. rewrite truediv_nonzero by lra.
  simpl. unfold scale_inf.
  destruct (Req_dec_T (1 / (1 + 2) * 0) 0) as [_|Hne]; [reflexivity|].
  elim Hne. lra.
Qed.

Lemma _uncorrelated_entropy_empty (normalize : bool) :
  _uncorrelated_entropy_individual [] normalize = Return (Fin 0).
Proof.
  unfold _uncorrelated_entropy_individual. simpl.
  assert (Hs : stats_entropy [] 2 = Fin 0).
  { unfold stats_entropy. simpl map. unfold fsum. simpl fold_left.
    rewrite fdiv_Fin by (pose proof ln2_pos; lra).
    f_equal. unfold Rdiv. apply Rmult_0_l. }
  rewrite Hs. destruct normalize; reflexivity.
Qed.

(** C4 (as the code has it).  On a sequence of length 0 no entry point
    raises: the real entropy is [0 * log2 0], which is NaN, the random
    entropy is [log2 0], minus infinity, and the uncorrelated entropy
    is the empty sum, 0. *)
Theorem empty_sequence_values (normalize : bool) :
  _true_entropy [] = Return NaN /\
  _real_entropy_individual [] = Return NaN /\
  _random_entropy_individual [] = Return NInf /\
  _uncorrelated_entropy_individual [] normalize = Return (Fin 0).
Proof.
  split; [apply _true_entropy_empty|]. split; [apply _true_entropy_empty|].
  split; [reflexivity|]. apply _uncorrelated_entropy_empty.
Qed.

(** ** Further facts about the scan and the entropies *)

Set Default Proof Using "Type".

(** *** The text test and [==] *)

Lemma prints_alike_spec (fields : list field) (a b : field) :
  prints_alike fields = true ->
  In a fields -> In b fields -> py_eq a b = true -> str a = str b.
Proof.
  unfold prints_alike. rewrite forallb_forall. intros H Ha Hb Hab.
  specialize (H a Ha). rewrite forallb_forall in H. specialize (H b Hb).
  rewrite Hab in H. apply String.eqb_eq. exact H.
Qed.

(** Two symbols that are [==] have the same text. *)
Lemma py_eq_symbol_text (fields : list field) (x y : symbol) :
  prints_alike fields = true -> incl x fields -> incl y fields ->
  py_eq_symbol x y = true -> map str x = map str y.
Proof.
  intro Hp. revert y.
  induction x as [|a x IH]; intros [|b y] Hx Hy H; simpl in H;
    try discriminate; [reflexivity|].
  apply andb_prop in H. destruct H as [Hab Hxy]. cbn [map]. f_equal.
  - apply (prints_alike_spec fields a b Hp);
      [apply Hx; now left | apply Hy; now left | exact Hab].
  - apply IH; [| |exact Hxy]; intros c Hc; [apply Hx|apply Hy]; now right.
Qed.

Lemma py_starts_with_text (fields : list field) (sub l : list symbol) :
  prints_alike fields = true ->
  incl (List.concat sub) fields -> incl (List.concat l) fields ->
  py_starts_with sub l = true ->
  exists run after,
    l = run ++ after /\
    map (fun r : symbol => join "_" (map str r)) run
    = map (fun r : symbol => join "_" (map str r)) sub.
Proof.
  intro Hp. revert l.
  induction sub as [|x sub IH]; intros l Hsub Hl H.
  - exists [], l. split; reflexivity.
  - destruct l as [|y l]; [discriminate|]. simpl in H.
    apply andb_prop in H. destruct H as [Hxy Hrest].
    cbn [List.concat] in Hsub, Hl.
    destruct (IH l) as [run [after [Hrun Htext]]];
      [intros c Hc; apply Hsub, in_or_app; now right
      |intros c Hc; apply Hl, in_or_app; now right
      |exact Hrest|].
    exists (y :: run), after. split; [simpl; now rewrite Hrun|].
    cbn [map]. rewrite Htext. f_equal. f_equal. symmetry.
    apply (py_eq_symbol_text fields x y Hp); [| |exact Hxy];
      intros c Hc; [apply Hsub|apply Hl]; apply in_or_app; now left.
Qed.

Lemma py_occurs_text (fields : list field) (sub l : list symbol) :
  prints_alike fields = true ->
  incl (List.concat sub) fields -> incl (List.concat l) fields ->
  py_occurs sub l = true ->
  exists before run after,
    l = before ++ run ++ after /\
    map (fun r : symbol => join "_" (map str r)) run
    = map (fun r : symbol => join "_" (map str r)) sub.
Proof.
  intros Hp Hsub. induction l as [|y l IH]; intros Hl H; simpl in H.
  - destruct (py_starts_with sub []) eqn:Hs; [|discriminate].
    destruct (py_starts_with_text fields sub [] Hp Hsub Hl Hs)
      as [run [after [Hrun Htext]]].
    exists [], run, after. split; [exact Hrun|exact Htext].
  - destruct (py_starts_with sub (y :: l)) eqn:Hs.
    + destruct (py_starts_with_text fields sub (y :: l) Hp Hsub Hl Hs)
        as [run [after [Hrun Htext]]].
      exists [], run, after. split; [exact Hrun|exact Htext].
    + destruct IH as [before [run [after [Hrun Htext]]]];
        [intros c Hc; apply Hl; cbn [List.concat]; apply in_or_app; now right
        |exact H|].
      exists (y :: before), run, after.
      split; [simpl; now rewrite Hrun|exact Htext].
Qed.

(** Among coordinates that print alike, the text of a run up to [==]
    is a substring of the text of the list. *)
Lemma stringify_run_up_to_eq (fields : list field) (run l : list symbol) :
  prints_alike fields = true ->
  incl (List.concat run) fields -> incl (List.concat l) fields ->
  py_occurs run l = true ->
  str_in (_stringify run) (_stringify l) = true.
Proof.
  intros Hp Hrun Hl H.
  destruct (py_occurs_text fields run l Hp Hrun Hl H)
    as [before [run' [after [-> Htext]]]].
  assert (Hs : _stringify run' = _stringify run)
    by (unfold _stringify; f_equal; exact Htext).
  rewrite <- Hs. unfold _stringify. rewrite !map_app.
  match goal with
  | |- str_in _ (join ?sep (?b ++ ?r ++ ?a)) = true =>
      destruct (join_run sep b r a) as [left [right Heq]]; rewrite Heq
  end.
  apply str_in_app.
Qed.

(** X1.  [_stringify] keeps runs, as long as coordinates that are [==]
    print alike: when [run] is, up to [==], a contiguous run of whole
    symbols of [l], the text of [run] is a substring of the text of
    [l].  (Without the premise the [in] test can miss an occurrence:
    [text_test_misses_the_other_zero].) *)
Theorem stringify_keeps_eq_runs (run l : list symbol) :
  prints_alike (List.concat run ++ List.concat l) = true ->
  py_occurs run l = true ->
  str_in (_stringify run) (_stringify l) = true.
Proof.
  intros Hp H.
  apply (stringify_run_up_to_eq (List.concat run ++ List.concat l) run l Hp);
    [apply incl_appl, incl_refl|apply incl_appr, incl_refl|exact H].
Qed.

Lemma slice_incl (sequence : list symbol) (lo hi : nat) :
  incl (List.concat (slice sequence lo hi)) (List.concat sequence).
Proof.
  intros c Hc. apply in_concat in Hc. destruct Hc as [x [Hx Hcx]].
  apply in_concat. exists x. split; [|exact Hcx].
  unfold slice in Hx.
  rewrite <- (firstn_skipn hi sequence). apply in_or_app. left.
  rewrite <- (firstn_skipn lo (firstn hi sequence)). apply in_or_app.
  now right.
Qed.

Lemma text_test_finds_eq_runs (sequence : list symbol) (i j : nat) :
  prints_alike (List.concat sequence) = true ->
  py_symbol_test sequence i j = true -> text_test sequence i j = true.
Proof.
  intros Hp H. unfold text_test.
  apply (stringify_run_up_to_eq (List.concat sequence) _ _ Hp);
    [apply slice_incl|apply slice_incl|exact H].
Qed.

Lemma py_symbol_match_length_at_total (sequence : list symbol) (i : nat) :
  1 <= i -> i + 1 < List.length sequence ->
  exists m, py_symbol_match_length_at sequence i = Some m.
Proof.
  intros Hi Hint. unfold py_symbol_match_length_at.
  destruct (scan_spec (py_symbol_test sequence i) (List.length sequence)
              (List.length sequence) i 1) as [m [Hm _]]; [lia|lia|].
  exists m. exact Hm.
Qed.

Lemma match_length_at_ge_py_symbol (sequence : list symbol) (i m m' : nat) :
  prints_alike (List.concat sequence) = true ->
  py_symbol_match_length_at sequence i = Some m ->
  match_length_at sequence i = Some m' ->
  m <= m'.
Proof.
  intro Hp. rewrite match_length_at_scan. unfold py_symbol_match_length_at.
  apply scan_mono. intro k. apply text_test_finds_eq_runs, Hp.
Qed.

Lemma collect_ge_py_symbol (sequence : list symbol) (positions : list nat) :
  prints_alike (List.concat sequence) = true ->
  Forall (fun i => 1 <= i /\ i + 1 < List.length sequence) positions ->
  exists ms ms', collect sequence positions = Some ms /\
                 py_symbol_collect sequence positions = Some ms' /\
                 Forall2 le ms' ms.
Proof.
  intro Hp. induction 1 as [|i rest [Hi Hint] _ IH]; simpl.
  - exists [], []. repeat split. constructor.
  - destruct (match_length_at_total sequence i Hi Hint) as [m [Hm _]].
    destruct (py_symbol_match_length_at_total sequence i Hi Hint) as [m' Hm'].
    destruct IH as [ms [ms' [Hms [Hms' Hle]]]].
    exists (m :: ms), (m' :: ms'). rewrite Hm, Hm', Hms, Hms'.
    repeat split. constructor; [|exact Hle].
    exact (match_length_at_ge_py_symbol sequence i m' m Hp Hm' Hm).
Qed.

(** X2.  On a sequence whose [==] coordinates print alike, the scan
    and the symbol-level matcher up to [==] both finish, and no match
    length the scan records is below the one that matcher records at
    the same position.  (Without the premise the scan can stop short:
    [text_test_misses_the_other_zero].) *)
Theorem match_lengths_ge_eq_level (sequence : list symbol) :
  prints_alike (List.concat sequence) = true ->
  exists ms ms',
    match_lengths sequence = Some ms /\
    py_symbol_match_lengths sequence = Some ms' /\
    Forall2 le ms' ms.
Proof. intro Hp. apply (collect_ge_py_symbol _ _ Hp), interior_range. Qed.

(** *** Bounds on the real entropy *)

Lemma collect_upper (sequence : list symbol) (positions : list nat)
    (ms : list nat) :
  Forall (fun i => 1 <= i /\ i + 1 < List.length sequence) positions ->
  collect sequence positions = Some ms ->
  list_sum ms
  <= list_sum (map (fun i => List.length sequence - i + 1) positions).
Proof.
  intro Hall. revert ms.
  induction Hall as [|i rest [Hi Hint] _ IH]; intros ms; simpl.
  - intros [= <-]. simpl. lia.
  - destruct (match_length_at_total sequence i Hi Hint) as [m [Hm Hb]].
    rewrite Hm. destruct (collect sequence rest) as [ms'|]; [|discriminate].
    intros [= <-]. simpl. specialize (IH ms' eq_refl). lia.
Qed.

Lemma sentinel_sum (n a k : nat) :
  a + k <= n + 1 ->
  2 * list_sum (map (fun i => n - i + 1) (seq a k))
  = k * (2 * n + 3 - 2 * a - k).
Proof.
  revert a. induction k as [|k IH]; intros a Hle; simpl; [lia|].
  specialize (IH (S a)). nia.
Qed.

Lemma collect_length (sequence : list symbol) (positions : list nat)
    (ms : list nat) :
  collect sequence positions = Some ms ->
  List.length ms = List.length positions.
Proof.
  revert ms. induction positions as [|i rest IH]; intros ms; simpl.
  - now intros [= <-].
  - destruct (match_length_at sequence i); [|discriminate].
    destruct (collect sequence rest) as [ms'|]; [|discriminate].
    intros [= <-]. simpl. now rewrite (IH ms' eq_refl).
Qed.

(** The sum of contributions lies between [n + 1] and [n (n + 1) / 2]
    (the second for [n >= 2]). *)
Lemma sum_of_contributions_range (sequence : list symbol) (ms : list nat) :
  2 <= List.length sequence ->
  match_lengths sequence = Some ms ->
  List.length sequence + 1 <= 3 + list_sum ms /\
  2 * (3 + list_sum ms) <= List.length sequence * (List.length sequence + 1).
Proof.
  intros Hn Hms. unfold match_lengths in Hms. split.
  - destruct (collect_total sequence _ (interior_range (List.length sequence)))
      as [ms' [Hms' [_ Hpos]]].
    rewrite Hms in Hms'. injection Hms' as <-.
    pose proof (list_sum_ge_length ms Hpos) as Hge.
    rewrite (collect_length _ _ _ Hms) in Hge.
    unfold range in Hge. rewrite length_seq in Hge. lia.
  - pose proof (collect_upper sequence _ ms
                  (interior_range (List.length sequence)) Hms) as Hup.
    unfold range in Hup.
    pose proof (sentinel_sum (List.length sequence) 1
                  (List.length sequence - 1 - 1)) as Hs.
    nia.
Qed.

Lemma log2_nonneg (k : nat) : 1 <= k -> (0 <= log2 (INR k))%R.
Proof.
  intro Hk. destruct (Nat.eq_dec k 1) as [->|Hne].
  - simpl. rewrite log2_1. lra.
  - left. apply log2_distinct_pos. lia.
Qed.

(** X3.  On a sequence of [n >= 1] symbols the real entropy is a
    finite number between [2 log2 n / (n + 1)] and
    [n log2 n / (n + 1)]; it is therefore below [log2 n], and it is
    positive as soon as [n >= 2]. *)
Theorem _true_entropy_bounds (sequence : list symbol) :
  1 <= List.length sequence ->
  exists r,
    _true_entropy sequence = Return (Fin r) /\
    (2 * log2 (INR (List.length sequence))
       / (INR (List.length sequence) + 1) <= r)%R /\
    (r <= INR (List.length sequence) * log2 (INR (List.length sequence))
          / (INR (List.length sequence) + 1))%R /\
    (r <= log2 (INR (List.length sequence)))%R /\
    (2 <= List.length sequence -> (0 < r)%R).
Proof.
  intro Hn. set (n := List.length sequence) in *.
  destruct (match_lengths_total sequence) as [ms [Hms _]].
  exists (INR n * log2 (INR n) / (3 + INR (list_sum ms)))%R.
  split; [apply _true_entropy_of_lengths; assumption|].
  pose proof (log2_nonneg n Hn) as HL.
  assert (Hn1 : (1 <= INR n)%R)
    by (replace 1%R with (INR 1) by reflexivity; apply le_INR; exact Hn).
  pose proof (pos_INR (list_sum ms)) as Hs.
  assert (Hsum : (0 < 3 + INR (list_sum ms))%R) by lra.
  destruct (Nat.eq_dec n 1) as [H1|H1].
  - assert (HL0 : log2 (INR n) = 0%R) by (rewrite H1; simpl; apply log2_1).
    rewrite HL0. unfold Rdiv. rewrite !Rmult_0_r, !Rmult_0_l.
    repeat split; try lra. intro H2. lia.
  - assert (Hn2 : 2 <= n) by lia.
    destruct (sum_of_contributions_range sequence ms Hn2 Hms) as [Hlo Hhi].
    fold n in Hlo, Hhi.
    assert (Hlo' : (INR n + 1 <= 3 + INR (list_sum ms))%R).
    { replace 3%R with (INR 3) by (simpl; lra).
      replace 1%R with (INR 1) by reflexivity.
      rewrite <- !plus_INR. apply le_INR. exact Hlo. }
    assert (Hhi' : (2 * (3 + INR (list_sum ms)) <= INR n * (INR n + 1))%R).
    { replace 3%R with (INR 3) by (simpl; lra).
      replace 2%R with (INR 2) by (simpl; lra).
      replace 1%R with (INR 1) by reflexivity.
      rewrite <- !plus_INR, <- !mult_INR. apply le_INR. exact Hhi. }
    assert (HLpos : (0 < log2 (INR n))%R) by (apply log2_distinct_pos; lia).
    assert (Hinv : (0 < / (3 + INR (list_sum ms)))%R)
      by (apply Rinv_0_lt_compat; exact Hsum).
    assert (Hinv1 : (0 < / (INR n + 1))%R)
      by (apply Rinv_0_lt_compat; lra).
    assert (Hprod : (0 <= / (INR n + 1) * / (3 + INR (list_sum ms)))%R)
      by (apply Rmult_le_pos; lra).
    repeat split.
    + replace (2 * log2 (INR n) / (INR n + 1))%R
        with (2 * log2 (INR n) * (3 + INR (list_sum ms))
              * (/ (INR n + 1) * / (3 + INR (list_sum ms))))%R
        by (field; lra).
      replace (INR n * log2 (INR n) / (3 + INR (list_sum ms)))%R
        with (INR n * log2 (INR n) * (INR n + 1)
              * (/ (INR n + 1) * / (3 + INR (list_sum ms))))%R
        by (field; lra).
      apply Rmult_le_compat_r; [exact Hprod|nra].
    + replace (INR n * log2 (INR n) / (INR n + 1))%R
        with (INR n * log2 (INR n) * (3 + INR (list_sum ms))
              * (/ (INR n + 1) * / (3 + INR (list_sum ms))))%R
        by (field; lra).
      replace (INR n * log2 (INR n) / (3 + INR (list_sum ms)))%R
        with (INR n * log2 (INR n) * (INR n + 1)
              * (/ (INR n + 1) * / (3 + INR (list_sum ms))))%R
        by (field; lra).
      apply Rmult_le_compat_r; [exact Hprod|].
      apply Rmult_le_compat_l; [apply Rmult_le_pos; lra|lra].
    + apply Rmult_le_reg_r with (3 + INR (list_sum ms))%R; [exact Hsum|].
      unfold Rdiv. rewrite Rmult_assoc, Rinv_l by lra. nra.
    + intros _. apply Rdiv_lt_0_compat; [|exact Hsum].
      apply Rmult_lt_0_compat; lra.
Qed.

(** *** Degenerate trajectories *)

Lemma nodup_repeat (r : row) (k : nat) :
  nodup row_eq_dec (repeat r (S k)) = [r].
Proof.
  induction k as [|k IH]; [reflexivity|].
  change (repeat r (S (S k))) with (r :: repeat r (S k)).
  cbn [nodup]. destruct (in_dec row_eq_dec r (repeat r (S k))) as [_|Hn].
  - exact IH.
  - elim Hn. now left.
Qed.

(** X4.  A trajectory that stays at one location has random entropy 0
    and uncorrelated entropy 0, normalised or not. *)
Theorem constant_trajectory_entropies (r : row) (k : nat) (normalize : bool) :
  1 <= k ->
  _random_entropy_individual (repeat r k) = Return (Fin 0) /\
  _uncorrelated_entropy_individual (repeat r k) normalize = Return (Fin 0).
Proof.
  intro Hk. destruct k as [|k]; [lia|]. split.
  - unfold _random_entropy_individual.
    rewrite groupby_length, nodup_repeat. simpl. now rewrite log2_1.
  - rewrite _uncorrelated_entropy_value by discriminate.
    unfold distinct_locations. rewrite nodup_repeat. simpl List.length.
    destruct normalize; [reflexivity|].
    f_equal. f_equal. unfold shannon. rewrite nodup_repeat.
    cbn [map Rsum]. unfold frequency.
    rewrite (count_occ_repeat_eq row_eq_dec (S k) (eq_refl r)), repeat_length.
    rewrite Rdiv_diag by (apply not_0_INR; discriminate).
    rewrite log2_1. lra.
Qed.

(** *** A sequence without repeats *)

Lemma slice_one (sequence : list symbol) (i : nat) :
  i < List.length sequence ->
  exists x rest,
    skipn i sequence = x :: rest /\ slice sequence i (i + 1) = [x].
Proof.
  intro Hi. unfold slice. rewrite <- firstn_skipn_comm.
  destruct (skipn i sequence) as [|x rest] eqn:Hs.
  - apply (f_equal (@List.length symbol)) in Hs.
    rewrite length_skipn in Hs. simpl in Hs. lia.
  - exists x, rest. split; reflexivity.
Qed.

Lemma fresh_symbol_not_in_prefix (sequence : list symbol) (i : nat) :
  NoDup sequence -> i < List.length sequence ->
  symbol_test sequence i 1 = false.
Proof.
  intros Hnd Hi. unfold symbol_test. apply occurs_false.
  destruct (slice_one sequence i Hi) as [x [rest [Hs ->]]].
  intros [before [after Hrun]].
  unfold slice in Hrun. rewrite skipn_O in Hrun.
  rewrite <- (firstn_skipn i sequence), Hs in Hnd.
  apply NoDup_remove_2 in Hnd. apply Hnd, in_or_app. left.
  rewrite Hrun. apply in_or_app. right. now left.
Qed.

Lemma symbol_collect_all_distinct (sequence : list symbol)
    (positions : list nat) :
  NoDup sequence ->
  Forall (fun i => 1 <= i /\ i + 1 < List.length sequence) positions ->
  symbol_collect sequence positions
  = Some (repeat 1 (List.length positions)).
Proof.
  intros Hnd. induction 1 as [|i rest [Hi Hint] _ IH]; [reflexivity|].
  cbn [symbol_collect List.length repeat]. rewrite IH.
  unfold symbol_match_length_at.
  destruct (List.length sequence) as [|n] eqn:Hlen; [lia|].
  cbn [scan]. rewrite fresh_symbol_not_in_prefix by (assumption || lia).
  reflexivity.
Qed.

Lemma list_sum_repeat_1 (k : nat) : list_sum (repeat 1 k) = k.
Proof. induction k as [|k IH]; simpl; [reflexivity|now rewrite IH]. Qed.

(** X6.  On a sequence of [n >= 1] pairwise distinct symbols whose
    texts do not collide, every interior match length is 1 and the
    real entropy is [n log2 n / (n + 1)], the largest value a sequence
    of [n] symbols can have. *)
Theorem all_distinct_sequence_entropy (sequence : list symbol) :
  NoDup sequence -> faithful sequence = true ->
  1 <= List.length sequence ->
  match_lengths sequence = Some (repeat 1 (List.length sequence - 2)) /\
  _true_entropy sequence =
    Return (Fin (INR (List.length sequence)
                 * log2 (INR (List.length sequence))
                 / (INR (List.length sequence) + 1))%R).
Proof.
  intros Hnd Hf Hn.
  assert (Hms : match_lengths sequence
                = Some (repeat 1 (List.length sequence - 2))).
  { rewrite (faithful_match_lengths _ Hf). unfold symbol_match_lengths.
    rewrite (symbol_collect_all_distinct _ _ Hnd (interior_range _)).
    unfold range. rewrite length_seq. do 2 f_equal. lia. }
  split; [exact Hms|].
  rewrite (_true_entropy_of_lengths _ _ Hn Hms), list_sum_repeat_1.
  do 2 f_equal.
  destruct (Nat.eq_dec (List.length sequence) 1) as [H1|H1].
  - rewrite H1. simpl. rewrite log2_1. lra.
  - replace (3 + INR (List.length sequence - 2))%R
      with (INR (List.length sequence) + 1)%R; [reflexivity|].
    rewrite minus_INR by lia. simpl. lra.
Qed.

(** ** Locations and their counts *)

Lemma nodup_length_le (l : list row) :
  List.length (nodup row_eq_dec l) <= List.length l.
Proof.
  induction l as [|a l IH]; simpl; [lia|].
  destruct (in_dec row_eq_dec a l); simpl; lia.
Qed.

Lemma nodup_length_eq (l : list row) :
  List.length (nodup row_eq_dec l) = List.length l <-> NoDup l.
Proof.
  split.
  - induction l as [|a l IH]; simpl; [constructor|].
    pose proof (nodup_length_le l) as Hle.
    destruct (in_dec row_eq_dec a l) as [Hin|Hnin]; simpl; [lia|].
    intro H. constructor; [exact Hnin|apply IH; lia].
  - intro H. now rewrite (nodup_fixed_point row_eq_dec H).
Qed.

Lemma number_of_locations_distinct (traj : list visit) :
  _number_of_locations_individual traj
  = distinct_locations (map location traj).
Proof.
  unfold _number_of_locations_individual. now rewrite groupby_length.
Qed.

(** X7.  [_number_of_locations_individual] counts the distinct
    locations: the count is at most the number of visits, at least 1
    when there is a visit, equal to the number of visits exactly when
    no location is visited twice, and the random entropy is its base-2
    logarithm. *)
Theorem number_of_locations_bounds (traj : list visit) :
  _number_of_locations_individual traj
    = distinct_locations (map location traj) /\
  _number_of_locations_individual traj <= List.length traj /\
  (traj <> [] -> 1 <= _number_of_locations_individual traj) /\
  (_number_of_locations_individual traj = List.length traj
   <-> NoDup (map location traj)) /\
  _random_entropy_individual (map location traj)
    = Return (np_log2 (_number_of_locations_individual traj)).
Proof.
  unfold _number_of_locations_individual. rewrite groupby_length.
  fold (distinct_locations (map location traj)).
  split; [reflexivity|]. split; [|split; [|split]].
  - unfold distinct_locations.
    rewrite <- (length_map location traj). apply nodup_length_le.
  - intro Hne. apply distinct_locations_pos.
    destruct traj; [congruence|discriminate].
  - unfold distinct_locations.
    rewrite <- (length_map location traj). apply nodup_length_eq.
  - unfold _random_entropy_individual. now rewrite groupby_length.
Qed.

Lemma count_per_location_eq (traj : list visit) :
  count_per_location traj
  = map (fun key => (key, count_occ row_eq_dec (map location traj) key))
        (nodup row_eq_dec (map location traj)).
Proof.
  unfold count_per_location, groupby. rewrite map_map.
  apply map_ext. intro key. simpl. now rewrite filter_count.
Qed.

Lemma count_per_location_keys (traj : list visit) :
  map fst (count_per_location traj) = nodup row_eq_dec (map location traj).
Proof.
  rewrite count_per_location_eq, map_map. simpl. apply map_id.
Qed.

Lemma count_per_location_total (traj : list visit) :
  list_sum (map snd (count_per_location traj)) = List.length traj.
Proof.
  rewrite count_per_location_eq, map_map. simpl.
  rewrite count_sum.
  - apply length_map.
  - apply NoDup_nodup.
  - intros x Hx. now apply nodup_In.
Qed.

Lemma count_per_location_entry (traj : list visit) (key : row) (c : nat) :
  In (key, c) (count_per_location traj) ->
  In key (map location traj) /\
  c = count_occ row_eq_dec (map location traj) key /\ 1 <= c.
Proof.
  rewrite count_per_location_eq. intro H. apply in_map_iff in H.
  destruct H as [k [[= <- <-] Hk]]. apply nodup_In in Hk.
  repeat split; [exact Hk|]. now apply count_occ_In.
Qed.

Lemma list_sum_Permutation (l l' : list nat) :
  Permutation l l' -> list_sum l = list_sum l'.
Proof. induction 1; simpl; lia. Qed.

(** What a table of counts keeps when its rows are reordered. *)
Lemma sorted_counts_facts (traj : list visit) (table : list (row * nat)) :
  Permutation table (count_per_location traj) ->
  NoDup (map fst table) /\
  (forall key, In key (map fst table) <-> In key (map location traj)) /\
  List.length table = distinct_locations (map location traj) /\
  list_sum (map snd table) = List.length traj /\
  (forall key c, In (key, c) table ->
     c = count_occ row_eq_dec (map location traj) key /\ 1 <= c).
Proof.
  intro Hp.
  assert (Hkeys : Permutation (map fst table)
                    (nodup row_eq_dec (map location traj))).
  { rewrite <- count_per_location_keys. now apply Permutation_map. }
  split; [|split; [|split; [|split]]].
  - apply (Permutation_NoDup (Permutation_sym Hkeys)), NoDup_nodup.
  - intro key. split; intro H.
    + apply (nodup_In row_eq_dec). exact (Permutation_in _ Hkeys H).
    + apply (Permutation_in _ (Permutation_sym Hkeys)).
      apply nodup_In. exact H.
  - rewrite <- (length_map fst table). unfold distinct_locations.
    apply Permutation_length, Hkeys.
  - rewrite <- count_per_location_total.
    apply list_sum_Permutation, Permutation_map, Hp.
  - intros key c Hin.
    apply (Permutation_in _ Hp), count_per_location_entry in Hin.
    exact (proj2 Hin).
Qed.




(** ** Ranks *)

Lemma range_from_1 (k : nat) : range 1 (k + 1) = seq 1 k.
Proof. unfold range. f_equal. lia. Qed.

Lemma combine_seq_fst (T : Type) (l : list T) (a : nat) :
  map fst (combine l (seq a (List.length l))) = l.
Proof.
  revert a. induction l as [|x l IH]; intro a; simpl; [reflexivity|].
  now rewrite IH.
Qed.

Lemma combine_seq_snd (T : Type) (l : list T) (a : nat) :
  map snd (combine l (seq a (List.length l))) = seq a (List.length l).
Proof.
  revert a. induction l as [|x l IH]; intro a; simpl; [reflexivity|].
  now rewrite IH.
Qed.

(** The entry of rank [r] is the one at position [r - a]. *)
Lemma combine_seq_In (T : Type) (l : list T) (a r : nat) (x : T) :
  In (x, r) (combine l (seq a (List.length l))) ->
  a <= r /\ nth_error l (r - a) = Some x.
Proof.
  revert a. induction l as [|y l IH]; intro a; simpl; [contradiction|].
  intros [[= -> ->]|Hin].
  - split; [lia|]. now rewrite Nat.sub_diag.
  - apply IH in Hin. destruct Hin as [Hle Hnth]. split; [lia|].
    replace (r - a) with (S (r - S a)) by lia. exact Hnth.
Qed.

Lemma StronglySorted_nth (T : Type) (R : T -> T -> Prop) (l : list T)
    (i j : nat) (u w : T) :
  StronglySorted R l -> i < j ->
  nth_error l i = Some u -> nth_error l j = Some w -> R u w.
Proof.
  intro Hs. revert i j. induction Hs as [|x l Hs IH Hall]; intros i j Hij Hi Hj.
  - now rewrite nth_error_nil in Hi.
  - destruct j as [|j]; [lia|]. simpl in Hj. destruct i as [|i].
    + injection Hi as <-. apply nth_error_In in Hj.
      rewrite Forall_forall in Hall. now apply Hall.
    + simpl in Hi. apply (IH i j); [lia|assumption|assumption].
Qed.

(** X9.  When the sort reorders the table of counts into
    non-increasing counts, [_frequency_rank_individual] lists every
    visited location exactly once, the ranks are 1, 2, ..., N with [N]
    the number of locations, and a location of smaller rank has at
    least as many visits. *)
Theorem frequency_rank_order (traj : list visit) :
  Permutation (sort_counts_descending (count_per_location traj))
              (count_per_location traj) ->
  StronglySorted (fun c d : row * nat => snd d <= snd c)
                 (sort_counts_descending (count_per_location traj)) ->
  map snd (_frequency_rank_individual traj)
    = seq 1 (_number_of_locations_individual traj) /\
  NoDup (map fst (_frequency_rank_individual traj)) /\
  (forall key, In key (map fst (_frequency_rank_individual traj))
               <-> In key (map location traj)) /\
  (forall a b ra rb,
     In (a, ra) (_frequency_rank_individual traj) ->
     In (b, rb) (_frequency_rank_individual traj) ->
     ra < rb ->
     count_occ row_eq_dec (map location traj) b
     <= count_occ row_eq_dec (map location traj) a).
Proof.
  intros Hp Hs. unfold _frequency_rank_individual.
  set (table := sort_counts_descending (count_per_location traj)) in *.
  destruct (sorted_counts_facts traj table Hp)
    as [Hnd [Hkeys [Hlen [_ Hentry]]]].
  rewrite range_from_1, <- (length_map fst table).
  rewrite combine_seq_fst, combine_seq_snd.
  split; [|split; [exact Hnd|split; [exact Hkeys|]]].
  - rewrite length_map, Hlen.
    now rewrite number_of_locations_distinct.
  - intros a b ra rb Ha Hb Hlt.
    apply combine_seq_In in Ha, Hb.
    destruct Ha as [Hra Ha], Hb as [Hrb Hb].
    rewrite nth_error_map in Ha, Hb.
    destruct (nth_error table (ra - 1)) as [[a' ca]|] eqn:Hta; [|discriminate].
    destruct (nth_error table (rb - 1)) as [[b' cb]|] eqn:Htb; [|discriminate].
    simpl in Ha, Hb. injection Ha as ->. injection Hb as ->.
    pose proof (StronglySorted_nth _ _ table (ra - 1) (rb - 1) _ _ Hs
                  ltac:(lia) Hta Htb) as Hle.
    simpl in Hle.
    destruct (Hentry a ca (nth_error_In _ _ Hta)) as [<- _].
    destruct (Hentry b cb (nth_error_In _ _ Htb)) as [<- _].
    exact Hle.
Qed.

(** ** The home location *)

Lemma _home_location_individual_pool (traj : list visit)
    (start_night end_night : string) :
  _home_location_individual traj start_night end_night
  = match sort_counts_descending
            (count_per_location (home_pool traj start_night end_night)) with
    | [] => None
    | (home_coords, _) :: _ => Some home_coords
    end.
Proof.
  unfold _home_location_individual, home_pool.
  destruct (negb (List.length _ =? 0)); reflexivity.
Qed.

Lemma home_pool_incl (traj : list visit) (start_night end_night : string) :
  incl (home_pool traj start_night end_night) traj.
Proof.
  unfold home_pool. destruct (negb (List.length _ =? 0)).
  - intros v Hv. apply filter_In in Hv. exact (proj1 Hv).
  - apply incl_refl.
Qed.

Lemma home_pool_nonempty (traj : list visit) (start_night end_night : string) :
  traj <> [] -> home_pool traj start_night end_night <> [].
Proof.
  intro Hne. unfold home_pool.
  destruct (filter _ traj) as [|v night] eqn:Hnight; simpl; [exact Hne|].
  discriminate.
Qed.

(** X10.  [_home_location_individual] fails with an IndexError on an
    empty trajectory.  Otherwise, when the sort reorders the table of
    counts into non-increasing counts, it returns a location of the
    visits it counts (the night visits if there are any, all the visits
    otherwise) that no other location beats in number of visits. *)
Theorem home_location_most_visited (traj : list visit)
    (start_night end_night : string) :
  Permutation
    (sort_counts_descending
       (count_per_location (home_pool traj start_night end_night)))
    (count_per_location (home_pool traj start_night end_night)) ->
  StronglySorted (fun c d : row * nat => snd d <= snd c)
    (sort_counts_descending
       (count_per_location (home_pool traj start_night end_night))) ->
  (traj = [] ->
   _home_location_individual traj start_night end_night = None) /\
  (traj <> [] ->
   exists home,
     _home_location_individual traj start_night end_night = Some home /\
     In home (map location (home_pool traj start_night end_night)) /\
     In home (map location traj) /\
     forall key,
       count_occ row_eq_dec
         (map location (home_pool traj start_night end_night)) key
       <= count_occ row_eq_dec
            (map location (home_pool traj start_night end_night)) home).
Proof.
  intros Hp Hs. rewrite _home_location_individual_pool.
  set (pool := home_pool traj start_night end_night) in *.
  set (table := sort_counts_descending (count_per_location pool)) in *.
  destruct (sorted_counts_facts pool table Hp)
    as [Hnd [Hkeys [Hlen [_ Hentry]]]].
  split.
  - intros ->. unfold pool, home_pool in Hp. simpl in Hp.
    fold table in Hp.
    now rewrite (Permutation_nil (Permutation_sym Hp)).
  - intro Hne.
    assert (Hpool : pool <> []) by (apply home_pool_nonempty, Hne).
    destruct table as [|[home c] rest] eqn:Htable.
    + exfalso. simpl in Hlen.
      assert (map location pool <> [])
        by (destruct pool; [congruence|discriminate]).
      pose proof (distinct_locations_pos _ H). lia.
    + exists home. split; [reflexivity|].
      assert (Hhome : In home (map location pool))
        by (apply Hkeys; now left).
      split; [exact Hhome|]. split.
      * apply in_map_iff in Hhome. destruct Hhome as [v [<- Hv]].
        apply in_map. now apply (home_pool_incl traj start_night end_night).
      * intro key.
        destruct (Hentry home c ltac:(now left)) as [<- _].
        destruct (in_dec row_eq_dec key (map location pool)) as [Hin|Hnin].
        -- apply Hkeys in Hin. apply in_map_iff in Hin.
           destruct Hin as [[key' c'] [Hk Hin]]. simpl in Hk. subst key'.
           destruct (Hentry key c' Hin) as [<- _].
           destruct Hin as [[= -> ->]|Hin]; [lia|].
           apply StronglySorted_inv in Hs. destruct Hs as [_ Hall].
           rewrite Forall_forall in Hall. exact (Hall _ Hin).
        -- rewrite (proj1 (count_occ_not_In row_eq_dec _ key) Hnin). lia.
Qed.

(** ** The recency rank *)

Lemma drop_duplicates_from_facts (l : list visit) (seen : list row) :
  Forall (fun u => In u l /\ ~ In (location u) seen)
         (drop_duplicates_from seen l) /\
  NoDup (map location (drop_duplicates_from seen l)) /\
  (forall v, In v l -> ~ In (location v) seen ->
             In (location v) (map location (drop_duplicates_from seen l))).
Proof.
  revert seen. induction l as [|x l IH]; intro seen; simpl.
  - repeat split; [constructor|constructor|contradiction].
  - destruct (in_dec row_eq_dec (location x) seen) as [Hin|Hnin].
    + destruct (IH seen) as [Ha [Hb Hc]]. repeat split.
      * eapply Forall_impl; [|exact Ha]. simpl. intros u [Hu Hs].
        split; [now right|exact Hs].
      * exact Hb.
      * intros v [<-|Hv] Hs; [contradiction|]. now apply Hc.
    + destruct (IH (location x :: seen)) as [Ha [Hb Hc]]. repeat split.
      * constructor; [split; [now left|exact Hnin]|].
        eapply Forall_impl; [|exact Ha]. simpl. intros u [Hu Hs].
        split; [now right|]. intro H. apply Hs. now right.
      * simpl. constructor; [|exact Hb].
        intro H. apply in_map_iff in H. destruct H as [u [Heq Hu]].
        rewrite Forall_forall in Ha. destruct (Ha u Hu) as [_ Hs].
        apply Hs. left. now rewrite Heq.
      * intros v [<-|Hv] Hs; [now left|].
        simpl. destruct (row_eq_dec (location x) (location v)) as [Heq|Hne].
        -- now left.
        -- right. apply Hc; [exact Hv|]. intros [H|H]; contradiction.
Qed.

(** Among the rows kept, an earlier one is at least as recent as every
    visit to the location of a later one. *)
Lemma drop_duplicates_from_order (l : list visit) (seen : list row) :
  StronglySorted (fun u w => (datetime w <= datetime u)%Z) l ->
  StronglySorted
    (fun u w => forall v, In v l -> location v = location w ->
                          (datetime v <= datetime u)%Z)
    (drop_duplicates_from seen l).
Proof.
  intro Hs. revert seen.
  induction Hs as [|x l Hs IH Hall]; intro seen; simpl; [constructor|].
  rewrite Forall_forall in Hall.
  destruct (in_dec row_eq_dec (location x) seen) as [Hin|Hnin].
  - destruct (drop_duplicates_from_facts l seen) as [Ha _].
    rewrite Forall_forall in Ha.
    assert (Hgen : forall r,
              (forall w, In w r -> ~ In (location w) seen) ->
              StronglySorted
                (fun u w => forall v, In v l -> location v = location w ->
                                      (datetime v <= datetime u)%Z) r ->
              StronglySorted
                (fun u w => forall v, x = v \/ In v l ->
                                      location v = location w ->
                                      (datetime v <= datetime u)%Z) r).
    { induction r as [|u r IHr]; intros Hseen Hr; [constructor|].
      apply StronglySorted_inv in Hr. destruct Hr as [Hr Hu].
      constructor.
      - apply IHr; [|exact Hr]. intros w Hw. apply Hseen. now right.
      - rewrite Forall_forall in *. intros w Hw v [<-|Hv] Heq.
        + exfalso. apply (Hseen w); [now right|]. now rewrite <- Heq.
        + now apply (Hu w Hw). }
    apply Hgen; [|apply IH]. intros w Hw. now apply Ha.
  - destruct (drop_duplicates_from_facts l (location x :: seen)) as [Ha _].
    rewrite Forall_forall in Ha.
    assert (Hgen : forall r,
              (forall w, In w r -> ~ In (location w) (location x :: seen)) ->
              StronglySorted
                (fun u w => forall v, In v l -> location v = location w ->
                                      (datetime v <= datetime u)%Z) r ->
              StronglySorted
                (fun u w => forall v, x = v \/ In v l ->
                                      location v = location w ->
                                      (datetime v <= datetime u)%Z) r).
    { induction r as [|u r IHr]; intros Hseen Hr; [constructor|].
      apply StronglySorted_inv in Hr. destruct Hr as [Hr Hu].
      constructor.
      - apply IHr; [|exact Hr]. intros w Hw. apply Hseen. now right.
      - rewrite Forall_forall in *. intros w Hw v [<-|Hv] Heq.
        + exfalso. apply (Hseen w); [now right|]. left. now rewrite Heq.
        + now apply (Hu w Hw). }
    constructor.
    + apply Hgen; [|apply IH]. intros w Hw. now apply Ha.
    + apply Forall_forall. intros w Hw v [<-|Hv] Heq; [lia|].
      now apply Hall.
Qed.

(** X11.  When the sort reorders the trajectory into non-increasing
    datetimes, [_recency_rank_individual] lists every visited location
    exactly once, the ranks are 1, 2, ..., N with [N] the number of
    locations, and a location of smaller rank was visited at least as
    recently: every visit to the location of larger rank is no later
    than some visit to the one of smaller rank. *)
Theorem recency_rank_order (traj : list visit) :
  Permutation (sort_values_descending traj) traj ->
  StronglySorted (fun u w => (datetime w <= datetime u)%Z)
                 (sort_values_descending traj) ->
  map snd (_recency_rank_individual traj)
    = seq 1 (_number_of_locations_individual traj) /\
  NoDup (map fst (_recency_rank_individual traj)) /\
  (forall key, In key (map fst (_recency_rank_individual traj))
               <-> In key (map location traj)) /\
  (forall a b ra rb,
     In (a, ra) (_recency_rank_individual traj) ->
     In (b, rb) (_recency_rank_individual traj) ->
     ra < rb ->
     forall v, In v traj -> location v = b ->
       exists u, In u traj /\ location u = a /\
                 (datetime v <= datetime u)%Z).
Proof.
  intros Hp Hs. unfold _recency_rank_individual, drop_duplicates.
  set (sorted := sort_values_descending traj) in *.
  set (kept := drop_duplicates_from [] sorted).
  destruct (drop_duplicates_from_facts sorted []) as [Ha [Hb Hc]].
  fold kept in Ha, Hb, Hc. rewrite Forall_forall in Ha.
  pose proof (drop_duplicates_from_order sorted [] Hs) as Ho.
  fold kept in Ho.
  assert (Hset : forall key, In key (map location kept)
                             <-> In key (map location traj)).
  { intro key. split; intro H; apply in_map_iff in H;
      destruct H as [v [<- Hv]].
    - apply in_map. apply (Permutation_in _ Hp). now apply Ha.
    - apply Hc; [|intros []].
      apply (Permutation_in _ (Permutation_sym Hp)), Hv. }
  rewrite range_from_1, <- (length_map location kept).
  rewrite combine_seq_fst, combine_seq_snd.
  split; [|split; [exact Hb|split; [exact Hset|]]].
  - f_equal. rewrite number_of_locations_distinct. unfold distinct_locations.
    apply Permutation_length, NoDup_Permutation;
      [exact Hb|apply NoDup_nodup|].
    intro key. rewrite Hset. symmetry. apply nodup_In.
  - intros a b ra rb Hra Hrb Hlt v Hv Hvb.
    apply combine_seq_In in Hra, Hrb.
    destruct Hra as [Hra1 Hra], Hrb as [Hrb1 Hrb].
    rewrite nth_error_map in Hra, Hrb.
    destruct (nth_error kept (ra - 1)) as [u|] eqn:Hu; [|discriminate].
    destruct (nth_error kept (rb - 1)) as [w|] eqn:Hw; [|discriminate].
    simpl in Hra, Hrb. injection Hra as Hua. injection Hrb as Hwb.
    exists u. split; [|split; [exact Hua|]].
    + apply (Permutation_in _ Hp). apply Ha. eapply nth_error_In, Hu.
    + apply (StronglySorted_nth _ _ kept (ra - 1) (rb - 1) u w Ho
               ltac:(lia) Hu Hw).
      * apply (Permutation_in _ (Permutation_sym Hp)), Hv.
      * now rewrite Hvb, Hwb.
Qed.

(** ** Jump lengths *)

Lemma jumps_from_pairs (rest pre : list row) (a : row) :
  jumps_from (pre ++ a :: rest) (seq (S (List.length pre)) (List.length rest))
  = Some (map (fun m => getDistanceByHaversine (snd m) (fst m))
              (consecutive_pairs (a :: rest))).
Proof.
  revert pre a. induction rest as [|b rest IH]; intros pre a; [reflexivity|].
  cbn [List.length seq jumps_from].
  rewrite nth_error_app2 by lia.
  replace (S (List.length pre) - List.length pre) with 1 by lia.
  replace (S (List.length pre) - 1) with (List.length pre) by lia.
  rewrite nth_error_app2 by lia. rewrite Nat.sub_diag.
  cbn [nth_error].
  specialize (IH (pre ++ [a]) b).
  rewrite <- app_assoc, length_app in IH. cbn [app List.length] in IH.
  replace (List.length pre + 1) with (S (List.length pre)) in IH by lia.
  rewrite IH. reflexivity.
Qed.

Lemma jumps_from_range (l : list row) :
  jumps_from l (range 1 (List.length l))
  = Some (map (fun m => getDistanceByHaversine (snd m) (fst m))
              (consecutive_pairs l)).
Proof.
  destruct l as [|a rest]; [reflexivity|].
  unfold range. cbn [List.length]. rewrite Nat.sub_succ, Nat.sub_0_r.
  exact (jumps_from_pairs rest [] a).
Qed.

Lemma consecutive_pairs_length (l : list row) :
  List.length (consecutive_pairs l) = List.length l - 1.
Proof.
  induction l as [|a [|b rest] IH]; [reflexivity|reflexivity|].
  cbn [consecutive_pairs List.length] in *. rewrite IH. lia.
Qed.

Lemma _jump_lengths_individual_value (traj : list visit) :
  _jump_lengths_individual traj
  = Some (if List.length traj =? 1 then []
          else map (fun m => getDistanceByHaversine (snd m) (fst m))
                   (consecutive_pairs (map location (sort_values traj)))).
Proof.
  unfold _jump_lengths_individual.
  destruct (List.length traj =? 1); [reflexivity|apply jumps_from_range].
Qed.

(** X12.  [_jump_lengths_individual] never fails on an index,
    whatever order the sort returns: a trajectory of one visit has no
    jump, and otherwise the jumps are the distances from each sorted
    visit to the one before it, one fewer than the sorted visits. *)
Theorem jump_lengths_consecutive (traj : list visit) :
  exists jumps,
    _jump_lengths_individual traj = Some jumps /\
    (List.length traj = 1 -> jumps = []) /\
    (List.length traj <> 1 ->
     jumps = map (fun m => getDistanceByHaversine (snd m) (fst m))
                 (consecutive_pairs (map location (sort_values traj))) /\
     List.length jumps = List.length (sort_values traj) - 1).
Proof.
  rewrite _jump_lengths_individual_value.
  eexists. split; [reflexivity|]. split.
  - intros ->. reflexivity.
  - intro Hne. apply Nat.eqb_neq in Hne. rewrite Hne. split; [reflexivity|].
    now rewrite length_map, consecutive_pairs_length, length_map.
Qed.

Lemma fold_max_facts (rest : list R) (acc : R) :
  let m := fold_left (fun m y => if Rlt_dec m y then y else m) rest acc in
  (m = acc \/ In m rest) /\ (acc <= m)%R /\
  forall y, In y rest -> (y <= m)%R.
Proof.
  revert acc. induction rest as [|x rest IH]; intro acc; simpl.
  - repeat split; [now left|lra|contradiction].
  - destruct (Rlt_dec acc x) as [Hlt|Hge].
    + destruct (IH x) as [Hin [Hle Hall]]. repeat split.
      * right. destruct Hin as [->|Hin]; [now left|now right].
      * lra.
      * intros y [<-|Hy]; [exact Hle|now apply Hall].
    + destruct (IH acc) as [Hin [Hle Hall]]. repeat split.
      * destruct Hin as [->|Hin]; [now left|right; now right].
      * exact Hle.
      * intros y [<-|Hy]; [lra|now apply Hall].
Qed.

Lemma py_max_facts (xs : list R) :
  xs <> [] ->
  exists m, py_max xs = Some m /\ In m xs /\
            forall y, In y xs -> (y <= m)%R.
Proof.
  destruct xs as [|x rest]; [congruence|]. intros _.
  destruct (fold_max_facts rest x) as [Hin [Hle Hall]].
  eexists. split; [reflexivity|]. split.
  - destruct Hin as [->|Hin]; [now left|now right].
  - intros y [<-|Hy]; [exact Hle|now apply Hall].
Qed.

Lemma py_sum_Rsum (xs : list R) : py_sum xs = Rsum xs.
Proof.
  unfold py_sum.
  assert (H : forall a, fold_left Rplus xs a = (a + Rsum xs)%R).
  { induction xs as [|x xs IH]; intro a; simpl; [lra|]. rewrite IH. lra. }
  rewrite H. lra.
Qed.

Lemma jumps_nonempty (traj : list visit) :
  List.length (sort_values traj) = List.length traj ->
  2 <= List.length traj ->
  map (fun m => getDistanceByHaversine (snd m) (fst m))
      (consecutive_pairs (map location (sort_values traj))) <> [].
Proof.
  intros Hlen Hn H. apply (f_equal (@List.length R)) in H.
  rewrite length_map, consecutive_pairs_length, length_map, Hlen in H.
  simpl in H. lia.
Qed.

(** X13.  When the sort keeps the number of rows,
    [_maximum_distance_individual] returns NaN on a trajectory of at
    most one visit, and otherwise returns one of the jump lengths, one
    that no jump length exceeds. *)
Theorem maximum_distance_is_a_largest_jump (traj : list visit) :
  List.length (sort_values traj) = List.length traj ->
  (List.length traj <= 1 ->
   _maximum_distance_individual traj = Some NaN) /\
  (2 <= List.length traj ->
   exists jumps m,
     _jump_lengths_individual traj = Some jumps /\
     _maximum_distance_individual traj = Some (Fin m) /\
     In m jumps /\ forall j, In j jumps -> (j <= m)%R).
Proof.
  intro Hlen. unfold _maximum_distance_individual.
  rewrite _jump_lengths_individual_value. split.
  - intro Hn. destruct (List.length traj =? 1) eqn:H1; [reflexivity|].
    apply Nat.eqb_neq in H1.
    rewrite length_map, consecutive_pairs_length, length_map, Hlen.
    replace (List.length traj - 1) with 0 by lia. reflexivity.
  - intro Hn. replace (List.length traj =? 1) with false
      by (symmetry; apply Nat.eqb_neq; lia).
    pose proof (jumps_nonempty traj Hlen Hn) as Hne.
    destruct (py_max_facts _ Hne) as [m [Hm [Hin Hall]]].
    eexists. exists m. split; [reflexivity|].
    rewrite Hm. split; [|split; assumption].
    destruct (map _ _) as [|j js] eqn:Hj; [congruence|]. reflexivity.
Qed.

Lemma Rsum_nonneg_ge (xs : list R) (m : R) :
  Forall (fun x => 0 <= x)%R xs -> In m xs -> (m <= Rsum xs)%R.
Proof.
  induction 1 as [|x xs Hx Hxs IH]; [contradiction|].
  assert (0 <= Rsum xs)%R.
  { clear -Hxs. induction Hxs; simpl; lra. }
  intros [<-|Hin]; simpl; [lra|]. specialize (IH Hin). lra.
Qed.

(** X14.  When the sort keeps the number of rows,
    [_distance_straight_line_individual] returns 0.0 on a trajectory
    of at most one visit and the sum of the jump lengths otherwise;
    when distances are never negative, that sum is at least the
    maximum distance. *)
Theorem distance_straight_line_is_the_sum (traj : list visit) :
  List.length (sort_values traj) = List.length traj ->
  (forall a b, 0 <= getDistanceByHaversine a b)%R ->
  (List.length traj <= 1 ->
   _distance_straight_line_individual traj = Some 0%R) /\
  (2 <= List.length traj ->
   exists jumps m,
     _jump_lengths_individual traj = Some jumps /\
     _distance_straight_line_individual traj = Some (Rsum jumps) /\
     _maximum_distance_individual traj = Some (Fin m) /\
     (m <= Rsum jumps)%R).
Proof.
  intros Hlen Hpos.
  unfold _distance_straight_line_individual, _maximum_distance_individual.
  rewrite _jump_lengths_individual_value. split.
  - intro Hn. destruct (List.length traj =? 1) eqn:H1; [reflexivity|].
    apply Nat.eqb_neq in H1.
    rewrite length_map, consecutive_pairs_length, length_map, Hlen.
    replace (List.length traj - 1) with 0 by lia. reflexivity.
  - intro Hn. replace (List.length traj =? 1) with false
      by (symmetry; apply Nat.eqb_neq; lia).
    pose proof (jumps_nonempty traj Hlen Hn) as Hne.
    destruct (py_max_facts _ Hne) as [m [Hm [Hin Hall]]].
    eexists. exists m. split; [reflexivity|].
    rewrite Hm, py_sum_Rsum.
    destruct (map _ _) as [|j js] eqn:Hj; [congruence|].
    cbn [List.length Nat.ltb Nat.leb option_map].
    split; [reflexivity|]. split; [reflexivity|].
    apply Rsum_nonneg_ge; [|exact Hin]. rewrite <- Hj.
    apply Forall_forall. intros x Hx. apply in_map_iff in Hx.
    destruct Hx as [pair [<- _]]. apply Hpos.
Qed.

Lemma consecutive_pairs_cons (a b : row) (l : list row) :
  consecutive_pairs (a :: b :: l) = (a, b) :: consecutive_pairs (b :: l).
Proof. reflexivity. Qed.

Lemma displacement_le_path (middle : list row) (first lst : row) :
  (forall a b c, getDistanceByHaversine a c
                 <= getDistanceByHaversine a b + getDistanceByHaversine b c)%R ->
  (getDistanceByHaversine lst first
   <= Rsum (map (fun m => getDistanceByHaversine (snd m) (fst m))
                (consecutive_pairs (first :: middle ++ [lst]))))%R.
Proof.
  intro Htri. revert first.
  induction middle as [|b middle IH]; intro first.
  - simpl. lra.
  - change (first :: (b :: middle) ++ [lst])
      with (first :: b :: middle ++ [lst]).
    rewrite consecutive_pairs_cons. cbn [map Rsum fst snd].
    specialize (IH b). pose proof (Htri lst b first). lra.
Qed.

(** X15.  When the distance obeys the triangle inequality, the
    straight-line distance of a trajectory of at least two visits is at
    least the distance between the first and the last sorted visit. *)
Theorem distance_straight_line_ge_displacement (traj : list visit)
    (first lst : row) (middle : list row) :
  (forall a b c, getDistanceByHaversine a c
                 <= getDistanceByHaversine a b + getDistanceByHaversine b c)%R ->
  List.length traj <> 1 ->
  map location (sort_values traj) = first :: middle ++ [lst] ->
  exists d,
    _distance_straight_line_individual traj = Some d /\
    (getDistanceByHaversine lst first <= d)%R.
Proof.
  intros Htri Hne Hsorted. unfold _distance_straight_line_individual.
  rewrite _jump_lengths_individual_value.
  apply Nat.eqb_neq in Hne. rewrite Hne, Hsorted.
  pose proof (displacement_le_path middle first lst Htri) as Hd.
  destruct (map _ (consecutive_pairs _)) as [|j js] eqn:Hj.
  - exfalso. apply (f_equal (@List.length R)) in Hj.
    rewrite length_map, consecutive_pairs_length in Hj.
    cbn [List.length] in Hj. rewrite length_app in Hj. simpl in Hj. lia.
  - exists (py_sum (j :: js)). split; [reflexivity|].
    now rewrite py_sum_Rsum.
Qed.

(** ** Waiting times *)

Lemma diff_tail_length (times : list Z) :
  List.length (diff_tail times) = List.length times - 1.
Proof.
  induction times as [|t0 [|t1 rest] IH]; [reflexivity|reflexivity|].
  cbn [diff_tail List.length] in *. rewrite IH. lia.
Qed.

Lemma diff_tail_cons (t0 t1 : Z) (rest : list Z) :
  diff_tail (t0 :: t1 :: rest) = (t1 - t0)%Z :: diff_tail (t1 :: rest).
Proof. reflexivity. Qed.

(** On a sorted column the differences are non-negative and add up to
    the last entry minus the first. *)
Lemma diff_tail_sorted (rest : list Z) (t0 : Z) :
  StronglySorted Z.le (t0 :: rest) ->
  exists t_last,
    In t_last (t0 :: rest) /\
    (forall t, In t (t0 :: rest) -> (t0 <= t <= t_last)%Z) /\
    Zsum (diff_tail (t0 :: rest)) = (t_last - t0)%Z /\
    Forall (fun d => (0 <= d)%Z) (diff_tail (t0 :: rest)).
Proof.
  revert t0. induction rest as [|t1 rest IH]; intros t0 Hs.
  - exists t0. split; [now left|]. split; [|split].
    + intros t [<-|[]]. lia.
    + simpl. lia.
    + constructor.
  - apply StronglySorted_inv in Hs. destruct Hs as [Hs Hall].
    rewrite Forall_forall in Hall.
    destruct (IH t1 Hs) as [t_last [Hin [Hb [Hsum Hpos]]]].
    assert (H01 : (t0 <= t1)%Z) by (apply Hall; now left).
    assert (H1l : (t1 <= t_last)%Z) by (apply Hb; now left).
    exists t_last. rewrite diff_tail_cons.
    split; [now right|]. split; [|split].
    + intros t [<-|H]; [lia|]. specialize (Hb t H). lia.
    + cbn [Zsum]. rewrite Hsum. lia.
    + constructor; [lia|exact Hpos].
Qed.

Lemma StronglySorted_datetimes (l : list visit) :
  StronglySorted (fun u w => (datetime u <= datetime w)%Z) l ->
  StronglySorted Z.le (map datetime l).
Proof.
  induction 1 as [|v l Hs IH Hall]; simpl; constructor; [exact IH|].
  rewrite Forall_forall in *. intros t Ht. apply in_map_iff in Ht.
  destruct Ht as [w [<- Hw]]. now apply Hall.
Qed.

Lemma to_seconds_bounds (d : Z) :
  (1000000000 * to_seconds d <= d <= 1000000000 * to_seconds d + 999999999)%Z
  /\ ((0 <= d)%Z -> (0 <= to_seconds d)%Z)
  /\ ((d mod 1000000000 = 0)%Z -> (1000000000 * to_seconds d = d)%Z).
Proof.
  unfold to_seconds.
  pose proof (Z.div_mod d 1000000000 ltac:(lia)) as Hd.
  pose proof (Z.mod_pos_bound d 1000000000 ltac:(lia)) as Hm.
  repeat split; lia.
Qed.

Lemma to_seconds_sum (ds : list Z) :
  (1000000000 * Zsum (map to_seconds ds) <= Zsum ds
   <= 1000000000 * Zsum (map to_seconds ds)
      + 999999999 * Z.of_nat (List.length ds))%Z
  /\ (Forall (fun d => (d mod 1000000000 = 0)%Z) ds ->
      (1000000000 * Zsum (map to_seconds ds) = Zsum ds)%Z).
Proof.
  induction ds as [|d ds [IHb IHe]].
  - simpl. split; [lia|reflexivity].
  - cbn [map Zsum List.length].
    destruct (to_seconds_bounds d) as [Hb [_ He]]. split; [lia|].
    intro Hall. apply Forall_cons_iff in Hall. destruct Hall as [Hd Hds].
    specialize (IHe Hds). specialize (He Hd). lia.
Qed.

Lemma diff_tail_whole (times : list Z) :
  Forall (fun t => (t mod 1000000000 = 0)%Z) times ->
  Forall (fun d => (d mod 1000000000 = 0)%Z) (diff_tail times).
Proof.
  induction times as [|t0 [|t1 rest] IH]; intro H; [constructor|constructor|].
  rewrite diff_tail_cons.
  apply Forall_cons_iff in H. destruct H as [H0 H].
  constructor; [|exact (IH H)].
  apply Forall_cons_iff in H. destruct H as [H1 _].
  rewrite Zminus_mod, H0, H1. reflexivity.
Qed.

(** X16.  When the sort reorders the trajectory into non-decreasing
    datetimes, [_waiting_times_individual] returns one waiting time
    fewer than there are visits, and none of them is negative. *)
Theorem waiting_times_nonnegative (traj : list visit) :
  Permutation (sort_values traj) traj ->
  StronglySorted (fun u w => (datetime u <= datetime w)%Z)
                 (sort_values traj) ->
  List.length (_waiting_times_individual traj) = List.length traj - 1 /\
  Forall (fun w => (0 <= w)%Z) (_waiting_times_individual traj).
Proof.
  intros Hp Hs. unfold _waiting_times_individual.
  destruct (List.length traj =? 1) eqn:H1.
  - apply Nat.eqb_eq in H1. rewrite H1. split; [reflexivity|constructor].
  - split.
    + rewrite length_map, diff_tail_length, length_map.
      now rewrite (Permutation_length Hp).
    + apply StronglySorted_datetimes in Hs.
      destruct (map datetime (sort_values traj)) as [|t0 rest];
        [constructor|].
      destruct (diff_tail_sorted rest t0 Hs) as [_ [_ [_ [_ Hpos]]]].
      apply Forall_forall. intros w Hw. apply in_map_iff in Hw.
      destruct Hw as [d [<- Hd]]. rewrite Forall_forall in Hpos.
      apply to_seconds_bounds. now apply Hpos.
Qed.

(** X17.  Under the same condition on the sort, the waiting times of a
    non-empty trajectory add up to the time between the earliest and
    the latest visit, short of it by less than one second per waiting
    time, and exactly when every datetime is a whole second. *)
Theorem waiting_times_span (traj : list visit) :
  Permutation (sort_values traj) traj ->
  StronglySorted (fun u w => (datetime u <= datetime w)%Z)
                 (sort_values traj) ->
  traj <> [] ->
  exists t_first t_last,
    In t_first (map datetime traj) /\ In t_last (map datetime traj) /\
    (forall v, In v traj -> (t_first <= datetime v <= t_last)%Z) /\
    (t_last - t_first - 999999999 * Z.of_nat (List.length traj - 1)
     <= 1000000000 * Zsum (_waiting_times_individual traj)
     <= t_last - t_first)%Z /\
    ((forall v, In v traj -> (datetime v mod 1000000000 = 0)%Z) ->
     (1000000000 * Zsum (_waiting_times_individual traj)
      = t_last - t_first)%Z).
Proof.
  intros Hp Hs Hne. unfold _waiting_times_individual.
  destruct (List.length traj =? 1) eqn:H1.
  - apply Nat.eqb_eq in H1.
    destruct traj as [|v [|v' traj]]; try discriminate.
    exists (datetime v), (datetime v).
    split; [now left|]. split; [now left|]. split; [|split].
    + intros u [<-|[]]. lia.
    + simpl. lia.
    + intros _. simpl. lia.
  - assert (Hmem : forall t, In t (map datetime (sort_values traj))
                             <-> In t (map datetime traj)).
    { intro t. split; apply Permutation_in, Permutation_map;
        [exact Hp|apply Permutation_sym, Hp]. }
    assert (Hlen : List.length (map datetime (sort_values traj))
                   = List.length traj)
      by (rewrite length_map; apply Permutation_length, Hp).
    apply StronglySorted_datetimes in Hs.
    destruct (map datetime (sort_values traj)) as [|t0 rest] eqn:Htimes.
    { destruct traj; [congruence|discriminate]. }
    destruct (diff_tail_sorted rest t0 Hs)
      as [t_last [Hlast [Hb [Hsum Hpos]]]].
    destruct (to_seconds_sum (diff_tail (t0 :: rest))) as [Hbounds Hexact].
    rewrite diff_tail_length, Hlen, Hsum in Hbounds. rewrite Hsum in Hexact.
    exists t0, t_last.
    split; [apply Hmem; now left|]. split; [apply Hmem, Hlast|].
    split; [|split].
    + intros v Hv. apply Hb, Hmem, in_map, Hv.
    + lia.
    + intro Hwhole. apply Hexact, diff_tail_whole, Forall_forall.
      intros t Ht. apply Hmem, in_map_iff in Ht.
      destruct Ht as [v [<- Hv]]. now apply Hwhole.
Qed.

(** ** The mobility network *)

Ltac forget_externals :=
  try clear getDistanceByHaversine; try clear sort_values;
  try clear sort_values_descending; try clear sort_counts_descending;
  try clear between_time.

Lemma weight_of_add_trip (w : weights) (current key : row) :
  weight_of (add_trip w current) key
  = weight_of w key + (if row_eq_dec current key then 1 else 0).
Proof.
  induction w as [|[k x] w IH]; simpl.
  - destruct (row_eq_dec current key); reflexivity.
  - destruct (row_eq_dec k current) as [Hkc|Hkc]; simpl.
    + destruct (row_eq_dec k key), (row_eq_dec current key);
        first [congruence | lia].
    + destruct (row_eq_dec k key) as [Hkk|Hkk]; [|exact IH].
      destruct (row_eq_dec current key); first [congruence | lia].
Qed.

Lemma add_trip_keys (w : weights) (current key : row) :
  In key (map fst (add_trip w current))
  <-> key = current \/ In key (map fst w).
Proof.
  induction w as [|[k x] w IH]; simpl.
  - forget_externals. intuition congruence.
  - destruct (row_eq_dec k current) as [Hkc|Hkc]; simpl.
    + forget_externals. intuition congruence.
    + rewrite IH. forget_externals. tauto.
Qed.

Lemma add_trip_ok (w : weights) (current : row) :
  weights_ok w -> weights_ok (add_trip w current).
Proof.
  intros [Hnd Hpos]. split.
  - induction w as [|[k x] w IH]; simpl.
    + constructor; [intros []|constructor].
    + simpl in Hnd. apply NoDup_cons_iff in Hnd. destruct Hnd as [Hk Hnd].
      apply Forall_cons_iff in Hpos. destruct Hpos as [_ Hpos].
      destruct (row_eq_dec k current) as [Hkc|Hkc]; simpl.
      * constructor; assumption.
      * constructor; [|now apply IH].
        rewrite add_trip_keys. intros [H|H]; [congruence|contradiction].
  - clear Hnd. induction Hpos as [|[k x] w Hx Hw IH]; simpl.
    + constructor; [simpl; lia|constructor].
    + destruct (row_eq_dec k current); constructor;
        simpl in *; try assumption; lia.
Qed.

Lemma trips_of_add_edge (net : network) (prev current origin dest : row) :
  trips_of (add_edge net prev current) origin dest
  = trips_of net origin dest
    + (if pair_eq_dec (prev, current) (origin, dest) then 1 else 0).
Proof.
  induction net as [|[k inner] net IH];
    cbn [trips_of add_edge weight_of add_trip].
  - destruct (row_eq_dec prev origin), (row_eq_dec current dest),
      (pair_eq_dec (prev, current) (origin, dest));
      first [congruence | lia].
  - destruct (row_eq_dec k prev) as [Hkp|Hkp]; cbn [trips_of].
    + destruct (row_eq_dec k origin) as [Hko|Hko].
      * rewrite weight_of_add_trip.
        destruct (row_eq_dec current dest),
          (pair_eq_dec (prev, current) (origin, dest));
          first [congruence | lia].
      * destruct (pair_eq_dec (prev, current) (origin, dest));
          first [congruence | lia].
    + destruct (row_eq_dec k origin) as [Hko|Hko]; [|exact IH].
      destruct (pair_eq_dec (prev, current) (origin, dest));
        first [congruence | lia].
Qed.

Lemma add_edge_keys (net : network) (prev current key : row) :
  In key (map fst (add_edge net prev current))
  <-> key = prev \/ In key (map fst net).
Proof.
  induction net as [|[k inner] net IH]; simpl.
  - forget_externals. intuition congruence.
  - destruct (row_eq_dec k prev) as [Hkp|Hkp]; simpl.
    + forget_externals. intuition congruence.
    + rewrite IH. forget_externals. tauto.
Qed.

Lemma add_edge_ok (net : network) (prev current : row) :
  network_ok net -> network_ok (add_edge net prev current).
Proof.
  intros [Hnd Hin]. split.
  - induction net as [|[k inner] net IH]; simpl.
    + constructor; [intros []|constructor].
    + simpl in Hnd. apply NoDup_cons_iff in Hnd. destruct Hnd as [Hk Hnd].
      apply Forall_cons_iff in Hin. destruct Hin as [_ Hin].
      destruct (row_eq_dec k prev) as [Hkp|Hkp]; simpl.
      * constructor; assumption.
      * constructor; [|now apply IH].
        rewrite add_edge_keys. intros [H|H]; [congruence|contradiction].
  - clear Hnd. induction Hin as [|[k inner] net Hx Hw IH]; simpl.
    + constructor; [|constructor]. unfold weights_ok. simpl.
      split; [constructor; [intros []|constructor]
             |constructor; [simpl; lia|constructor]].
    + destruct (row_eq_dec k prev); constructor; simpl in *;
        try assumption. now apply add_trip_ok.
Qed.

Lemma network_rows_In (net : network) (origin dest : row) (n : nat) :
  In (origin, dest, n) (network_rows net)
  <-> exists inner, In (origin, inner) net /\ In (dest, n) inner.
Proof.
  unfold network_rows. rewrite in_flat_map. split.
  - intros [[k inner] [He Hin]]. simpl in Hin. apply in_map_iff in Hin.
    destruct Hin as [[d m] [[= -> -> ->] Ht]]. now exists inner.
  - intros [inner [He Ht]]. exists (origin, inner). split; [exact He|].
    simpl. apply in_map_iff. now exists (dest, n).
Qed.

Lemma weight_of_In (w : weights) (key : row) (n : nat) :
  NoDup (map fst w) -> In (key, n) w -> weight_of w key = n.
Proof.
  induction w as [|[k x] w IH]; simpl; [contradiction|].
  intros Hnd Hin. apply NoDup_cons_iff in Hnd. destruct Hnd as [Hk Hnd].
  destruct Hin as [[= -> ->]|Hin].
  - destruct (row_eq_dec key key); congruence.
  - destruct (row_eq_dec k key) as [->|Hne]; [|now apply IH].
    elim Hk. apply in_map_iff. now exists (key, n).
Qed.

Lemma weight_of_positive (w : weights) (key : row) :
  1 <= weight_of w key -> In (key, weight_of w key) w.
Proof.
  induction w as [|[k x] w IH]; simpl; [lia|].
  destruct (row_eq_dec k key) as [->|Hne]; [now left|].
  intro H. right. now apply IH.
Qed.

Lemma trips_of_In (net : network) (origin dest : row) (inner : weights) :
  NoDup (map fst net) -> In (origin, inner) net ->
  trips_of net origin dest = weight_of inner dest.
Proof.
  induction net as [|[k w] net IH]; simpl; [contradiction|].
  intros Hnd Hin. apply NoDup_cons_iff in Hnd. destruct Hnd as [Hk Hnd].
  destruct Hin as [[= -> ->]|Hin].
  - destruct (row_eq_dec origin origin); congruence.
  - destruct (row_eq_dec k origin) as [->|Hne]; [|now apply IH].
    elim Hk. apply in_map_iff. now exists (origin, inner).
Qed.

Lemma trips_of_positive (net : network) (origin dest : row) :
  1 <= trips_of net origin dest ->
  exists inner, In (origin, inner) net /\
                weight_of inner dest = trips_of net origin dest.
Proof.
  induction net as [|[k w] net IH]; simpl; [lia|].
  destruct (row_eq_dec k origin) as [->|Hne].
  - intros _. exists w. split; [now left|reflexivity].
  - intro H. destruct (IH H) as [inner [Hin Heq]].
    exists inner. split; [now right|exact Heq].
Qed.

(** The rows read out are the positive entries of [trips_of]. *)
Lemma network_rows_trips (net : network) (origin dest : row) (n : nat) :
  network_ok net ->
  (In (origin, dest, n) (network_rows net)
   <-> 1 <= n /\ n = trips_of net origin dest).
Proof.
  intros [Hnd Hin]. rewrite network_rows_In. rewrite Forall_forall in Hin.
  split.
  - intros [inner [He Ht]].
    destruct (Hin _ He) as [Hnd' Hpos]. simpl in *.
    rewrite Forall_forall in Hpos.
    rewrite (trips_of_In net origin dest inner Hnd He).
    rewrite (weight_of_In inner dest n Hnd' Ht).
    split; [exact (Hpos _ Ht)|reflexivity].
  - intros [Hn ->].
    destruct (trips_of_positive net origin dest Hn) as [inner [He Hw]].
    exists inner. split; [exact He|]. rewrite <- Hw.
    apply weight_of_positive. lia.
Qed.

Lemma network_rows_NoDup (net : network) :
  network_ok net -> NoDup (map fst (network_rows net)).
Proof.
  intros [Hnd Hin]. induction net as [|[k inner] net IH]; [constructor|].
  simpl in Hnd. apply NoDup_cons_iff in Hnd. destruct Hnd as [Hk Hnd].
  apply Forall_cons_iff in Hin. destruct Hin as [[Hinner _] Hin].
  unfold network_rows. cbn [flat_map fst snd]. rewrite map_app.
  apply NoDup_app.
  - rewrite map_map. simpl in Hinner.
    induction inner as [|[d m] inner IHi]; [constructor|].
    simpl in *. apply NoDup_cons_iff in Hinner. destruct Hinner as [Hd Hi].
    constructor; [|now apply IHi].
    intro H. apply in_map_iff in H. destruct H as [[d' m'] [[= ->] H]].
    apply Hd. apply in_map_iff. now exists (d, m').
  - exact (IH Hnd Hin).
  - intros [o d] H1 H2. rewrite map_map in H1. apply in_map_iff in H1.
    destruct H1 as [[d' m'] [[= -> ->] _]].
    apply in_map_iff in H2. destruct H2 as [[[o' d''] m''] [[= -> ->] H2]].
    apply network_rows_In in H2. destruct H2 as [inner' [He _]].
    apply Hk. apply in_map_iff. eexists (_, inner').
    split; [|exact He]. reflexivity.
Qed.

Lemma add_trip_total (w : weights) (current : row) :
  list_sum (map snd (add_trip w current)) = list_sum (map snd w) + 1.
Proof.
  induction w as [|[k x] w IH]; simpl; [reflexivity|].
  destruct (row_eq_dec k current); simpl; [lia|]. rewrite IH. lia.
Qed.

Lemma network_rows_cons (k : row) (inner : weights) (net : network) :
  list_sum (map snd (network_rows ((k, inner) :: net)))
  = list_sum (map snd inner) + list_sum (map snd (network_rows net)).
Proof.
  unfold network_rows. cbn [flat_map fst snd].
  rewrite map_app, list_sum_app, map_map. reflexivity.
Qed.

Lemma add_edge_total (net : network) (prev current : row) :
  list_sum (map snd (network_rows (add_edge net prev current)))
  = list_sum (map snd (network_rows net)) + 1.
Proof.
  induction net as [|[k inner] net IH].
  - simpl. reflexivity.
  - cbn [add_edge]. destruct (row_eq_dec k prev).
    + rewrite !network_rows_cons, add_trip_total. lia.
    + rewrite !network_rows_cons, IH. lia.
Qed.

(** The loop never fails on an index; it keeps the dictionaries well
    formed and adds each move it meets once. *)
Lemma network_loop_counts (self_loops : bool) (rest pre : list row)
    (prev : row) (net : network) :
  network_ok net ->
  exists net',
    network_loop self_loops (pre ++ prev :: rest) rest
                 (List.length pre + 1) net = Some net' /\
    network_ok net' /\
    (forall origin dest,
       trips_of net' origin dest
       = trips_of net origin dest
         + count_occ pair_eq_dec (moves self_loops (prev :: rest))
                     (origin, dest)) /\
    list_sum (map snd (network_rows net'))
    = list_sum (map snd (network_rows net))
      + List.length (moves self_loops (prev :: rest)).
Proof.
  revert pre prev net. induction rest as [|current rest IH];
    intros pre prev net Hok.
  - exists net. unfold moves.
    cbn [network_loop consecutive_pairs filter count_occ List.length].
    split; [reflexivity|]. split; [exact Hok|]. split; [intros; lia|lia].
  - cbn [network_loop].
    replace (List.length pre + 1 - 1) with (List.length pre) by lia.
    rewrite nth_error_app2 by lia. rewrite Nat.sub_diag. cbn [nth_error].
    set (net1 := if negb (row_eqb prev current)
                 then add_edge net prev current
                 else if self_loops then add_edge net prev current
                      else net).
    assert (Hkeep : negb (row_eqb prev current) || self_loops = true ->
                    net1 = add_edge net prev current).
    { unfold net1. destruct (negb (row_eqb prev current)); [reflexivity|].
      simpl. now intros ->. }
    assert (Hskip : negb (row_eqb prev current) || self_loops = false ->
                    net1 = net).
    { unfold net1. destruct (negb (row_eqb prev current)); [discriminate|].
      simpl. now intros ->. }
    assert (Hok1 : network_ok net1).
    { unfold net1. destruct (negb (row_eqb prev current));
        [now apply add_edge_ok|].
      destruct self_loops; [now apply add_edge_ok|exact Hok]. }
    specialize (IH (pre ++ [prev]) current net1 Hok1).
    rewrite <- app_assoc, length_app in IH. cbn [app List.length] in IH.
    replace (List.length pre + 1 + 1) with (List.length pre + 1 + 1) by lia.
    destruct IH as [net' [Hloop [Hok' [Htrips Htotal]]]].
    exists net'. split; [exact Hloop|]. split; [exact Hok'|].
    unfold moves in *. rewrite consecutive_pairs_cons. cbn [filter fst snd].
    destruct (negb (row_eqb prev current) || self_loops) eqn:Hcond.
    + rewrite (Hkeep eq_refl) in Htrips, Htotal. split.
      * intros origin dest. rewrite Htrips, trips_of_add_edge.
        cbn [count_occ].
        destruct (pair_eq_dec (prev, current) (origin, dest)); lia.
      * rewrite Htotal, add_edge_total. cbn [List.length]. lia.
    + rewrite (Hskip eq_refl) in Htrips, Htotal. split; assumption.
Qed.

Lemma network_ok_empty : network_ok [].
Proof. split; constructor. Qed.

Lemma _individual_mobility_network_individual_facts (traj : list visit)
    (self_loops : bool) :
  exists rows,
    _individual_mobility_network_individual traj self_loops = Some rows /\
    NoDup (map fst rows) /\
    (forall origin dest n,
       In (origin, dest, n) rows
       <-> 1 <= n /\
           n = count_occ pair_eq_dec
                 (moves self_loops (map location (sort_values traj)))
                 (origin, dest)) /\
    list_sum (map snd rows)
    = List.length (moves self_loops (map location (sort_values traj))).
Proof.
  unfold _individual_mobility_network_individual.
  set (lats_lngs := map location (sort_values traj)).
  unfold slice. rewrite firstn_all.
  destruct lats_lngs as [|prev rest].
  - exists []. split; [reflexivity|]. split; [constructor|].
    split; [|reflexivity]. intros origin dest n. simpl.
    split; [intros []|intros [H ->]; lia].
  - destruct (network_loop_counts self_loops rest [] prev [] network_ok_empty)
      as [net' [Hloop [Hok [Htrips Htotal]]]].
    simpl in Hloop. simpl skipn. rewrite Hloop.
    exists (network_rows net'). split; [reflexivity|].
    split; [now apply network_rows_NoDup|]. split.
    + intros origin dest n. rewrite (network_rows_trips _ _ _ _ Hok).
      now rewrite Htrips.
    + exact Htotal.
Qed.

(** X18.  [_individual_mobility_network_individual] never fails on
    an index, whatever order the sort returns.  Its rows have pairwise
    distinct (origin, destination) pairs, and a row [origin, dest, n]
    is present exactly when [n >= 1] is the number of recorded moves
    from [origin] to [dest] between consecutive sorted visits. *)
Theorem mobility_network_rows (traj : list visit) (self_loops : bool) :
  exists rows,
    _individual_mobility_network_individual traj self_loops = Some rows /\
    NoDup (map fst rows) /\
    (forall origin dest n,
       In (origin, dest, n) rows
       <-> 1 <= n /\
           n = count_occ pair_eq_dec
                 (moves self_loops (map location (sort_values traj)))
                 (origin, dest)).
Proof.
  destruct (_individual_mobility_network_individual_facts traj self_loops)
    as [rows [Hrows [Hnd [Hiff _]]]].
  exists rows. split; [exact Hrows|]. split; [exact Hnd|exact Hiff].
Qed.

Lemma moves_all (l : list row) : moves true l = consecutive_pairs l.
Proof.
  unfold moves. induction (consecutive_pairs l) as [|m ms IH];
    [reflexivity|].
  cbn [filter]. rewrite orb_true_r. now rewrite IH.
Qed.

(** X19.  The trips of the rows add up to the number of recorded
    moves.  Without [self_loops] no row has its origin as destination;
    with [self_loops] every pair of consecutive sorted visits is
    recorded, so the trips add up to the number of sorted visits
    minus one. *)
Theorem mobility_network_totals (traj : list visit) (self_loops : bool) :
  exists rows,
    _individual_mobility_network_individual traj self_loops = Some rows /\
    list_sum (map snd rows)
    = List.length (moves self_loops (map location (sort_values traj))) /\
    (self_loops = false ->
     forall origin dest n, In (origin, dest, n) rows -> origin <> dest) /\
    (self_loops = true ->
     list_sum (map snd rows) = List.length (sort_values traj) - 1).
Proof.
  destruct (_individual_mobility_network_individual_facts traj self_loops)
    as [rows [Hrows [_ [Hiff Htotal]]]].
  exists rows. split; [exact Hrows|]. split; [exact Htotal|]. split.
  - intros -> origin dest n Hin. apply Hiff in Hin. destruct Hin as [Hn Hc].
    assert (Hmove : In (origin, dest)
                       (moves false (map location (sort_values traj)))).
    { apply (count_occ_In pair_eq_dec). lia. }
    unfold moves in Hmove. apply filter_In in Hmove.
    destruct Hmove as [_ Hkeep]. simpl in Hkeep.
    rewrite orb_false_r in Hkeep. unfold row_eqb in Hkeep.
    destruct (row_eq_dec origin dest); [discriminate|assumption].
  - intros ->. rewrite Htotal, moves_all, consecutive_pairs_length.
    now rewrite length_map.
Qed.

(** ** The entry points over several individuals *)

Lemma insert_key_perm (k : Z) (keys : list Z) :
  Permutation (insert_key k keys) (k :: keys).
Proof.
  induction keys as [|k' keys IH]; simpl; [reflexivity|].
  destruct (k <=? k')%Z; [reflexivity|].
  rewrite IH. apply perm_swap.
Qed.

Lemma sort_keys_perm (keys : list Z) : Permutation (sort_keys keys) keys.
Proof.
  induction keys as [|k keys IH]; simpl; [constructor|].
  rewrite insert_key_perm. now constructor.
Qed.

Lemma insert_key_sorted (k : Z) (keys : list Z) :
  StronglySorted Z.le keys -> StronglySorted Z.le (insert_key k keys).
Proof.
  induction 1 as [|k' keys Hs IH Hall]; simpl.
  - constructor; constructor.
  - destruct (k <=? k')%Z eqn:Hle.
    + apply Z.leb_le in Hle. constructor; [now constructor|].
      constructor; [exact Hle|].
      eapply Forall_impl; [|exact Hall]. simpl. intros. lia.
    + apply Z.leb_gt in Hle. constructor; [exact IH|].
      apply Forall_forall. intros x Hx.
      apply (Permutation_in _ (insert_key_perm k keys)) in Hx.
      destruct Hx as [<-|Hx]; [lia|].
      rewrite Forall_forall in Hall. now apply Hall.
Qed.

Lemma sort_keys_sorted (keys : list Z) :
  StronglySorted Z.le (sort_keys keys).
Proof.
  induction keys as [|k keys IH]; simpl; [constructor|].
  now apply insert_key_sorted.
Qed.

Lemma sorted_distinct (keys : list Z) :
  StronglySorted Z.le keys -> NoDup keys -> StronglySorted Z.lt keys.
Proof.
  induction 1 as [|k keys Hs IH Hall]; intro Hnd; [constructor|].
  apply NoDup_cons_iff in Hnd. destruct Hnd as [Hk Hnd].
  constructor; [now apply IH|].
  apply Forall_forall. intros x Hx. rewrite Forall_forall in Hall.
  specialize (Hall x Hx).
  destruct (Z.eq_dec k x) as [->|Hne]; [contradiction|lia].
Qed.

Lemma groupby_uid_keys (rows : list (Z * row)) :
  map fst (groupby_uid rows) = sort_keys (nodup Z.eq_dec (map fst rows)).
Proof. unfold groupby_uid. rewrite map_map. simpl. apply map_id. Qed.

Lemma groupby_uid_keys_facts (rows : list (Z * row)) :
  StronglySorted Z.lt (map fst (groupby_uid rows)) /\
  forall uid, In uid (map fst (groupby_uid rows)) <-> In uid (map fst rows).
Proof.
  rewrite groupby_uid_keys. split.
  - apply sorted_distinct; [apply sort_keys_sorted|].
    apply (Permutation_NoDup (Permutation_sym (sort_keys_perm _))).
    apply NoDup_nodup.
  - intro uid. split; intro H.
    + apply (nodup_In Z.eq_dec).
      exact (Permutation_in _ (sort_keys_perm _) H).
    + apply (Permutation_in _ (Permutation_sym (sort_keys_perm _))).
      apply nodup_In. exact H.
Qed.

Lemma groupby_uid_group (rows : list (Z * row)) (uid : Z)
    (group : list row) :
  In (uid, group) (groupby_uid rows) ->
  group = rows_of_user rows uid /\ group <> [].
Proof.
  unfold groupby_uid. intro H. apply in_map_iff in H.
  destruct H as [u [[= -> <-] Hu]]. split; [reflexivity|].
  apply (Permutation_in _ (sort_keys_perm _)), nodup_In, in_map_iff in Hu.
  destruct Hu as [[u' r] [Hfst Hin]]. simpl in Hfst. subst u'.
  unfold rows_of_user. intro Hnil.
  assert (Hr : In r (map snd (filter (fun r0 : Z * row => (fst r0 =? uid)%Z)
                                     rows))).
  { apply in_map_iff. exists (uid, r). split; [reflexivity|].
    apply filter_In. split; [exact Hin|]. simpl. apply Z.eqb_refl. }
  rewrite Hnil in Hr. contradiction.
Qed.

Lemma apply_groups_returns (f : list row -> outcome)
    (groups : list (Z * list row)) :
  (forall uid group, In (uid, group) groups ->
                     exists v, f group = Return v) ->
  exists values,
    apply_groups f groups = Returns values /\
    map fst values = map fst groups /\
    forall uid v, In (uid, v) values ->
      exists group, In (uid, group) groups /\ f group = Return v.
Proof.
  induction groups as [|[uid group] groups IH]; intro Hf.
  - exists []. simpl. repeat split. intros uid v [].
  - destruct (Hf uid group ltac:(now left)) as [v Hv].
    destruct IH as [values [Happly [Hkeys Hvals]]].
    { intros u g Hin. apply (Hf u g). now right. }
    exists ((uid, v) :: values). cbn [apply_groups]. rewrite Hv, Happly.
    split; [reflexivity|]. split; [simpl; now rewrite Hkeys|].
    intros u x [[= -> ->]|Hin].
    + exists group. split; [now left|exact Hv].
    + destruct (Hvals u x Hin) as [g [Hg Hx]].
      exists g. split; [now right|exact Hx].
Qed.

(** The table of a measure that returns on every non-empty group. *)
Lemma per_user_table (f : list row -> outcome) (name : string)
    (rows : list (Z * row)) :
  (forall group, group <> [] -> exists v, f group = Return v) ->
  exists table,
    per_user name (apply_groups f (groupby_uid rows))
      = Returns (PerUser name table) /\
    StronglySorted Z.lt (map fst table) /\
    (forall uid, In uid (map fst table) <-> In uid (map fst rows)) /\
    (forall uid v, In (uid, v) table ->
       rows_of_user rows uid <> [] /\
       f (rows_of_user rows uid) = Return v).
Proof.
  intro Hf.
  destruct (apply_groups_returns f (groupby_uid rows))
    as [table [Happly [Hkeys Hvals]]].
  { intros uid group Hin. apply Hf.
    exact (proj2 (groupby_uid_group rows uid group Hin)). }
  destruct (groupby_uid_keys_facts rows) as [Hsorted Hmem].
  exists table. rewrite Happly, Hkeys.
  split; [reflexivity|]. split; [exact Hsorted|]. split; [exact Hmem|].
  intros uid v Hin. destruct (Hvals uid v Hin) as [group [Hg Hv]].
  destruct (groupby_uid_group rows uid group Hg) as [-> Hne].
  split; assumption.
Qed.

(** X20.  On a frame with a uid column, [random_entropy] does not
    raise: it returns one row per individual, the uids ascending, and
    the value of an individual is the random entropy of that
    individual's rows, with or without the progress bar. *)
Theorem random_entropy_per_user (rows : list (Z * row))
    (show_progress : bool) :
  rows <> [] ->
  exists table,
    random_entropy (WithUid rows) show_progress
      = Returns (PerUser "random_entropy" table) /\
    StronglySorted Z.lt (map fst table) /\
    (forall uid, In uid (map fst table) <-> In uid (map fst rows)) /\
    (forall uid v, In (uid, v) table ->
       rows_of_user rows uid <> [] /\
       _random_entropy_individual (rows_of_user rows uid) = Return v).
Proof.
  intros _. unfold random_entropy.
  destruct show_progress; apply per_user_table;
    intros group _; eexists; reflexivity.
Qed.

(** X21.  On a frame with a uid column, [uncorrelated_entropy] does
    not raise: it returns one row per individual, the uids ascending,
    under the column name [uncorrelated_entropy] or
    [norm_uncorrelated_entropy], and the value of an individual is the
    uncorrelated entropy of that individual's rows, normalised as
    asked. *)
Theorem uncorrelated_entropy_per_user (rows : list (Z * row))
    (normalize show_progress : bool) :
  rows <> [] ->
  exists table,
    uncorrelated_entropy (WithUid rows) normalize show_progress
      = Returns (PerUser (if normalize then "norm_uncorrelated_entropy"
                          else "uncorrelated_entropy") table) /\
    StronglySorted Z.lt (map fst table) /\
    (forall uid, In uid (map fst table) <-> In uid (map fst rows)) /\
    (forall uid v, In (uid, v) table ->
       rows_of_user rows uid <> [] /\
       _uncorrelated_entropy_individual (rows_of_user rows uid) normalize
         = Return v).
Proof.
  intros _. unfold uncorrelated_entropy.
  destruct show_progress; apply per_user_table;
    intros group Hne; eexists; apply _uncorrelated_entropy_value, Hne.
Qed.

(** X22.  On a frame with a uid column, [real_entropy] does not raise
    and its scans all finish: it returns one row per individual, the
    uids ascending, and the value of an individual is the real entropy
    of that individual's rows. *)
Theorem real_entropy_per_user (rows : list (Z * row))
    (show_progress : bool) :
  rows <> [] ->
  exists table,
    real_entropy (WithUid rows) show_progress
      = Returns (PerUser "real_entropy" table) /\
    StronglySorted Z.lt (map fst table) /\
    (forall uid, In uid (map fst table) <-> In uid (map fst rows)) /\
    (forall uid v, In (uid, v) table ->
       rows_of_user rows uid <> [] /\
       _real_entropy_individual (rows_of_user rows uid) = Return v).
Proof.
  intros _. unfold real_entropy.
  destruct show_progress; apply per_user_table;
    intros group _; unfold _real_entropy_individual;
    destruct (_true_entropy_value (time_series group))
      as [ms [_ [_ [_ Hv]]]]; eexists; exact Hv.
Qed.

(** X23.  On a non-empty frame without a uid column,
    [uncorrelated_entropy] returns the Shannon entropy of the
    visitation frequencies whatever [normalize] is: with
    [normalize=True] the column is named [norm_uncorrelated_entropy],
    but the value is not divided by [log2 N]. *)
Theorem uncorrelated_entropy_without_uid (rows : list row)
    (normalize show_progress : bool) :
  rows <> [] ->
  uncorrelated_entropy (NoUid rows) normalize show_progress
  = Returns (OneValue (if normalize then "norm_uncorrelated_entropy"
                       else "uncorrelated_entropy")
                      (Fin (shannon rows))).
Proof.
  intro Hne. unfold uncorrelated_entropy.
  now rewrite (_uncorrelated_entropy_value rows false Hne).
Qed.

Lemma uid_indicator_sum (keys : list Z) (k : Z) :
  list_sum (map (fun u => if (k =? u)%Z then 1 else 0) keys)
  = count_occ Z.eq_dec keys k.
Proof.
  induction keys as [|u keys IH]; simpl; [reflexivity|].
  rewrite IH. destruct (Z.eq_dec u k) as [->|Hne].
  - now rewrite Z.eqb_refl.
  - destruct (Z.eqb_spec k u); [congruence|reflexivity].
Qed.

(** Every row of the frame falls in exactly one group. *)
Lemma rows_of_user_total (rows : list (Z * row)) (keys : list Z) :
  NoDup keys -> incl (map fst rows) keys ->
  list_sum (map (fun u => List.length (rows_of_user rows u)) keys)
  = List.length rows.
Proof.
  intro Hnd. unfold rows_of_user.
  induction rows as [|r rows IH]; intro Hincl.
  - simpl. clear. induction keys as [|k keys IHk]; simpl;
      [reflexivity|exact IHk].
  - assert (Hr : In (fst r) keys) by (apply Hincl; now left).
    assert (Hrest : incl (map fst rows) keys)
      by (intros x Hx; apply Hincl; now right).
    rewrite (map_ext _ (fun u => (if (fst r =? u)%Z then 1 else 0)
                                 + List.length
                                     (map snd (filter
                                        (fun r0 : Z * row => (fst r0 =? u)%Z)
                                        rows)))).
    + rewrite list_sum_map_add, uid_indicator_sum, (IH Hrest).
      rewrite (proj1 (NoDup_count_occ' Z.eq_dec keys) Hnd _ Hr).
      reflexivity.
    + intro u. cbn [filter]. destruct (fst r =? u)%Z; reflexivity.
Qed.

(** X24.  On a non-empty frame with a uid column, [number_of_visits]
    returns one row per individual, the uids ascending; each count is
    the number of that individual's rows, at least 1, and the counts
    add up to the number of rows of the frame.  Without a uid column
    it returns the number of rows. *)
Theorem number_of_visits_partition (rows : list (Z * row))
    (show_progress : bool) :
  rows <> [] ->
  exists table,
    number_of_visits (WithUid rows) show_progress
      = CountPerUser "number_of_visits" table /\
    StronglySorted Z.lt (map fst table) /\
    (forall uid, In uid (map fst table) <-> In uid (map fst rows)) /\
    (forall uid n, In (uid, n) table ->
       n = List.length (rows_of_user rows uid) /\ 1 <= n) /\
    list_sum (map snd table) = List.length rows /\
    number_of_visits (NoUid (map snd rows)) show_progress
      = Count (List.length rows).
Proof.
  intros _.
  exists (map (fun g : Z * list row => (fst g, List.length (snd g)))
              (groupby_uid rows)).
  destruct (groupby_uid_keys_facts rows) as [Hsorted Hmem].
  assert (Hkeys : map fst (map (fun g : Z * list row =>
                                  (fst g, List.length (snd g)))
                               (groupby_uid rows))
                  = map fst (groupby_uid rows))
    by (rewrite map_map; reflexivity).
  split; [unfold number_of_visits; now destruct show_progress|].
  rewrite Hkeys. split; [exact Hsorted|]. split; [exact Hmem|].
  split; [|split].
  - intros uid n Hin. apply in_map_iff in Hin.
    destruct Hin as [[u g] [[= -> <-] Hg]].
    destruct (groupby_uid_group rows uid g Hg) as [-> Hne].
    split; [reflexivity|].
    destruct (rows_of_user rows uid); [congruence|simpl; lia].
  - unfold groupby_uid. rewrite !map_map. cbn [fst snd].
    apply rows_of_user_total.
    + apply (Permutation_NoDup (Permutation_sym (sort_keys_perm _))).
      apply NoDup_nodup.
    + intros u Hu.
      apply (Permutation_in _ (Permutation_sym (sort_keys_perm _))).
      apply nodup_In. exact Hu.
  - simpl. now rewrite length_map.
Qed.

End Entropy.

(** ** Concrete sequences *)

Import FloatCoord.

(** C1, the claim as worded, fails on [[A, B, A, C]] at position 2: the
    candidate [[A, C]] of length 2 is not a run of the prefix [[A, B]],
    so the worded MatchLength is 2, but the scan leaves the loop with
    the sentinel 3 once the candidate reaches the end of the sequence.
    The containment test is faithful on this sequence. *)
Lemma MatchLength_differs_at_end :
  3 <= List.length abac /\ 1 <= 2 <= List.length abac - 2 /\
  faithful str_float Z.eq_dec abac = true /\
  match_length_at str_float abac 2 = Some 3 /\
  MatchLength Z.eq_dec abac 2 = 2 /\
  match_length_at str_float abac 2 <> Some (MatchLength Z.eq_dec abac 2).
Proof.
  split; [vm_compute; lia|]. split; [vm_compute; lia|].
  split; [reflexivity|]. split; [reflexivity|]. split; [reflexivity|].
  vm_compute. discriminate.
Qed.

Lemma match_length_first_unmatched_witness :
  3 <= List.length abac /\ 1 <= 2 <= List.length abac - 2 /\
  faithful_at str_float Z.eq_dec abac 2 = true /\
  exists m, match_length_at str_float abac 2 = Some m /\
    ((1 <= m <= List.length abac - 2 - 1 /\
      ~ contiguous_run (slice abac 2 (2 + m)) (slice abac 0 2) /\
      forall k, 1 <= k < m ->
        contiguous_run (slice abac 2 (2 + k)) (slice abac 0 2))
     \/
     (m = (List.length abac - 2) + 1 /\
      forall k, 1 <= k <= List.length abac - 2 - 1 ->
        contiguous_run (slice abac 2 (2 + k)) (slice abac 0 2))).
Proof.
  split; [simpl; lia|]. split; [simpl; lia|]. split; [reflexivity|].
  apply (match_length_first_unmatched Z str_float Z.eq_dec abac 2);
    [simpl; lia | simpl; lia | reflexivity].
Defined.

(** C2 at the failing input.  In [[(11.0, 2.0), (1.0, 2.0), (3.0, 3.0)]]
    the text of the second symbol, [1.0_2.0], is a substring of the
    text of the first, [11.0_2.0]: the text test reports an occurrence
    that the symbols do not have, and the scan records 3 where the
    symbol-level matcher records 1. *)
Theorem text_test_false_positive :
  _stringify str_float (slice overlapping 0 1) = "11.0_2.0"%string /\
  _stringify str_float (slice overlapping 1 2) = "1.0_2.0"%string /\
  text_test str_float overlapping 1 1 = true /\
  symbol_test Z.eq_dec overlapping 1 1 = false /\
  ~ contiguous_run (slice overlapping 1 2) (slice overlapping 0 1) /\
  match_lengths str_float overlapping = Some [3] /\
  symbol_match_lengths Z.eq_dec overlapping = Some [1].
Proof.
  split; [reflexivity|]. split; [reflexivity|]. split; [reflexivity|].
  split; [reflexivity|]. split; [|split; reflexivity].
  apply (occurs_false Z Z.eq_dec). reflexivity.
Qed.

Lemma _true_entropy_formula_witness :
  1 <= List.length abac /\
  exists ms,
    match_lengths str_float abac = Some ms /\
    Forall2 (fun i m => match_length_at str_float abac i = Some m)
            (range 1 (List.length abac - 1)) ms /\
    _true_entropy str_float abac =
      Return (Fin (INR (List.length abac) * log2 (INR (List.length abac))
                   / (3 + INR (list_sum ms)))%R).
Proof.
  split; [simpl; lia|].
  apply (_true_entropy_formula Z str_float abac). simpl; lia.
Defined.

(** C4, the claim as worded, fails on the empty sequence: none of the
    three entry points raises. *)
Lemma empty_sequence_not_rejected :
  ~ (exists e, _true_entropy str_float [] = Raise e) /\
  ~ (exists e, _real_entropy_individual str_float [] = Raise e) /\
  ~ (exists e, _random_entropy_individual Z.eq_dec [] = Raise e) /\
  ~ (exists e, _uncorrelated_entropy_individual Z.eq_dec [] false = Raise e).
Proof.
  split; [|split; [|split]]; intros [e He].
  - rewrite (_true_entropy_empty Z str_float) in He. discriminate.
  - change (_true_entropy str_float [] = Raise e) in He.
    rewrite (_true_entropy_empty Z str_float) in He. discriminate.
  - discriminate.
  - rewrite (_uncorrelated_entropy_empty Z Z.eq_dec) in He. discriminate.
Qed.

Lemma short_sequences_witness :
  List.length [A] = 1 /\ List.length [(1, 1)%Z] = 1 /\
  List.length [A; B] = 2 /\
  _true_entropy str_float [A] = Return (Fin 0) /\
  _real_entropy_individual str_float [(1, 1)%Z] = Return (Fin 0) /\
  _random_entropy_individual Z.eq_dec [(1, 1)%Z] = Return (Fin 0) /\
  _true_entropy str_float [A; B] = Return (Fin (2 / 3)).
Proof.
  split; [reflexivity|]. split; [reflexivity|]. split; [reflexivity|].
  apply (short_sequences Z str_float Z.eq_dec [A] [A; B] [(1, 1)%Z]);
    reflexivity.
Defined.

Lemma sum_of_contributions_bounds_witness :
  1 <= List.length ababab /\
  exists ms sum_lambda,
    Forall2 (fun i m => match_length_at str_float ababab i = Some m)
            (range 1 (List.length ababab - 1)) ms /\
    Forall (fun m => 1 <= m) ms /\
    for_loop str_float ababab (range 1 (List.length ababab - 1)) (1 + 2)%R
      = Some sum_lambda /\
    sum_lambda = (3 + INR (list_sum ms))%R /\
    (3 <= sum_lambda)%R /\
    (INR (List.length ababab) <= sum_lambda)%R /\
    truediv 1 sum_lambda = inr (1 / sum_lambda)%R /\
    forall e, _true_entropy str_float ababab <> Raise e.
Proof.
  split; [simpl; lia|].
  apply (sum_of_contributions_bounds Z str_float ababab). simpl; lia.
Defined.

(** C7, the claim as worded, fails on [[A, B, A, B, A, B]]: the interior
    match lengths are 1, 3, 4, 3, not all at most 2; and those of
    [[A, B, C, D, E, F]] are all 1, not the distance to the end of the
    sequence. *)
Lemma alternating_match_lengths_exceed_2 :
  match_lengths str_float ababab = Some [1; 3; 4; 3] /\
  ~ Forall (fun m => m <= 2) [1; 3; 4; 3] /\
  match_lengths str_float abcdef = Some [1; 1; 1; 1].
Proof.
  split; [reflexivity|]. split; [|reflexivity].
  intro H. inversion H as [|? ? _ H']. inversion H' as [|? ? Hle _]. lia.
Qed.

Lemma alternating_vs_distinct_witness :
  NoDup [A; B; C; D; E; F] /\
  faithful str_float Z.eq_dec [A; B; A; B; A; B] = true /\
  faithful str_float Z.eq_dec [A; B; C; D; E; F] = true /\
  match_lengths str_float [A; B; A; B; A; B] = Some [1; 3; 4; 3] /\
  match_lengths str_float [A; B; C; D; E; F] = Some [1; 1; 1; 1] /\
  _true_entropy str_float [A; B; A; B; A; B]
    = Return (Fin (6 * log2 6 / 14)) /\
  _true_entropy str_float [A; B; C; D; E; F]
    = Return (Fin (6 * log2 6 / 7)) /\
  (6 * log2 6 / 14 < 6 * log2 6 / 7)%R.
Proof.
  assert (Hnd : NoDup [A; B; C; D; E; F]).
  { repeat constructor; simpl; intuition discriminate. }
  split; [exact Hnd|]. split; [reflexivity|]. split; [reflexivity|].
  apply (alternating_vs_distinct Z str_float Z.eq_dec A B C D E F);
    [exact Hnd | reflexivity | reflexivity].
Defined.

Lemma uncorrelated_is_shannon_witness :
  visits_aba <> [] /\
  Rsum (map (frequency Z.eq_dec visits_aba)
            (nodup (row_eq_dec Z.eq_dec) visits_aba)) = 1%R /\
  _uncorrelated_entropy_individual Z.eq_dec visits_aba false
    = Return (Fin (shannon Z.eq_dec visits_aba)) /\
  (1 < distinct_locations Z.eq_dec visits_aba ->
     _uncorrelated_entropy_individual Z.eq_dec visits_aba true =
       Return (Fin (shannon Z.eq_dec visits_aba
                    / log2 (INR (distinct_locations Z.eq_dec visits_aba))))) /\
  (distinct_locations Z.eq_dec visits_aba <= 1 ->
     _uncorrelated_entropy_individual Z.eq_dec visits_aba true
       = Return (Fin 0)).
Proof.
  split; [discriminate|].
  apply (uncorrelated_is_shannon Z Z.eq_dec visits_aba). discriminate.
Defined.

Lemma visits_permuted : Permutation visits_aab visits_aba.
Proof. unfold visits_aab, visits_aba. apply perm_skip, perm_swap. Qed.

Lemma order_independence_witness :
  visits_aab <> [] /\ Permutation visits_aab visits_aba /\
  _random_entropy_individual Z.eq_dec visits_aab
    = _random_entropy_individual Z.eq_dec visits_aba /\
  _uncorrelated_entropy_individual Z.eq_dec visits_aab true
    = _uncorrelated_entropy_individual Z.eq_dec visits_aba true /\
  distinct_locations Z.eq_dec visits_aab
    = distinct_locations Z.eq_dec visits_aba /\
  (forall key, count_occ (row_eq_dec Z.eq_dec) visits_aab key
               = count_occ (row_eq_dec Z.eq_dec) visits_aba key).
Proof.
  split; [discriminate|]. split; [exact visits_permuted|].
  apply (order_independence Z Z.eq_dec visits_aab visits_aba true);
    [discriminate | exact visits_permuted].
Defined.

(** The real entropy does read the order: the same three visits give
    [3 log2 3 / 6] in the order A, A, B and [3 log2 3 / 4] in the order
    A, B, A. *)
Lemma real_entropy_depends_on_order :
  Permutation visits_aab visits_aba /\
  _real_entropy_individual str_float visits_aab
    = Return (Fin (3 * log2 3 / 6)) /\
  _real_entropy_individual str_float visits_aba
    = Return (Fin (3 * log2 3 / 4)) /\
  _real_entropy_individual str_float visits_aab
    <> _real_entropy_individual str_float visits_aba.
Proof.
  assert (H1 : _real_entropy_individual str_float visits_aab
               = Return (Fin (3 * log2 3 / 6))).
  { unfold _real_entropy_individual.
    rewrite (_true_entropy_of_lengths Z str_float _ [3]);
      [|simpl; lia|reflexivity].
    change (List.length (time_series visits_aab)) with 3.
    change (list_sum [3]) with 3.
    replace (INR 3) with 3%R by (simpl; lra). do 2 f_equal. lra. }
  assert (H2 : _real_entropy_individual str_float visits_aba
               = Return (Fin (3 * log2 3 / 4))).
  { unfold _real_entropy_individual.
    rewrite (_true_entropy_of_lengths Z str_float _ [1]);
      [|simpl; lia|reflexivity].
    change (List.length (time_series visits_aba)) with 3.
    change (list_sum [1]) with 1.
    replace (INR 3) with 3%R by (simpl; lra).
    replace (INR 1) with 1%R by reflexivity. do 2 f_equal. lra. }
  split; [exact visits_permuted|]. split; [exact H1|]. split; [exact H2|].
  rewrite H1, H2. intro Heq. injection Heq as Heq.
  assert (0 < log2 3)%R by (apply log2_gt_1; lra). lra.
Qed.

(** ** Concrete trajectories *)

Lemma insert_by_count_perm (c : (Z * Z) * nat) (l : list ((Z * Z) * nat)) :
  Permutation (insert_by_count c l) (c :: l).
Proof.
  induction l as [|d l IH]; simpl; [reflexivity|].
  destruct (snd d <=? snd c); [reflexivity|].
  rewrite IH. apply perm_swap.
Qed.

Lemma sort_by_count_descending_perm (l : list ((Z * Z) * nat)) :
  Permutation (sort_by_count_descending l) l.
Proof.
  induction l as [|c l IH]; simpl; [constructor|].
  rewrite insert_by_count_perm. now constructor.
Qed.

Lemma insert_by_datetime_perm (v : (Z * Z) * Z) (l : list ((Z * Z) * Z)) :
  Permutation (insert_by_datetime v l) (v :: l).
Proof.
  induction l as [|u l IH]; simpl; [reflexivity|].
  destruct (snd v <=? snd u)%Z; [reflexivity|].
  rewrite IH. apply perm_swap.
Qed.

Lemma sort_by_datetime_perm (l : list ((Z * Z) * Z)) :
  Permutation (sort_by_datetime l) l.
Proof.
  induction l as [|v l IH]; simpl; [constructor|].
  rewrite insert_by_datetime_perm. now constructor.
Qed.

Lemma sort_by_datetime_descending_perm (l : list ((Z * Z) * Z)) :
  Permutation (sort_by_datetime_descending l) l.
Proof.
  unfold sort_by_datetime_descending.
  rewrite <- Permutation_rev. apply sort_by_datetime_perm.
Qed.

Ltac sorted_by_computation t :=
  let y := eval vm_compute in t in
  change t with y;
  repeat first [ apply SSorted_nil | apply SSorted_cons
               | apply Forall_nil | apply Forall_cons ];
  unfold datetime; simpl; lia.

Lemma timed_visits_sorted :
  StronglySorted (fun u w : visit Z => (datetime u <= datetime w)%Z)
                 (sort_by_datetime timed_visits).
Proof. sorted_by_computation (sort_by_datetime timed_visits). Qed.

Lemma timed_visits_sorted_descending :
  StronglySorted (fun u w : visit Z => (datetime w <= datetime u)%Z)
                 (sort_by_datetime_descending timed_visits).
Proof. sorted_by_computation (sort_by_datetime_descending timed_visits). Qed.

Lemma timed_counts_sorted :
  StronglySorted (fun c d : row Z * nat => snd d <= snd c)
    (sort_by_count_descending (count_per_location Z.eq_dec timed_visits)).
Proof.
  sorted_by_computation
    (sort_by_count_descending (count_per_location Z.eq_dec timed_visits)).
Qed.

Lemma grid_distance_nonneg (a b : Z * Z) : (0 <= grid_distance a b)%R.
Proof.
  unfold grid_distance.
  pose proof (IZR_le _ _ (Z.abs_nonneg (fst a - fst b))).
  pose proof (IZR_le _ _ (Z.abs_nonneg (snd a - snd b))). lra.
Qed.

Lemma grid_distance_triangle (a b c : Z * Z) :
  (grid_distance a c <= grid_distance a b + grid_distance b c)%R.
Proof.
  unfold grid_distance. rewrite <- !plus_IZR. apply IZR_le. lia.
Qed.

Lemma stringify_keeps_eq_runs_witness :
  prints_alike str_float Z.eqb (List.concat [B; A] ++ List.concat abac) = true /\
  py_occurs Z.eqb [B; A] abac = true /\
  str_in (_stringify str_float [B; A]) (_stringify str_float abac) = true.
Proof.
  split; [reflexivity|]. split; [reflexivity|].
  apply (stringify_keeps_eq_runs Z str_float Z.eqb [B; A] abac);
    reflexivity.
Defined.

Lemma match_lengths_ge_eq_level_witness :
  prints_alike str_float Z.eqb (List.concat abac) = true /\
  exists ms ms',
    match_lengths str_float abac = Some ms /\
    py_symbol_match_lengths Z.eqb abac = Some ms' /\
    Forall2 le ms' ms.
Proof.
  split; [reflexivity|].
  apply (match_lengths_ge_eq_level Z str_float Z.eqb abac). reflexivity.
Defined.

(** X25.  The [in] test of the scan can miss an occurrence, when two
    coordinates that are [==] print differently.  The second of
    these three visits is to the location of the first, with the other
    zero as its longitude: the two symbols are [==], their texts are
    [51.0_0.0] and [51.0_-0.0], and the scan records the match length 1
    where the matcher up to [==] records 3. *)
Lemma text_test_misses_the_other_zero :
  prints_alike str_signed eq_signed (List.concat two_zeros) = false /\
  py_symbol_test eq_signed two_zeros 1 1 = true /\
  text_test str_signed two_zeros 1 1 = false /\
  match_lengths str_signed two_zeros = Some [1] /\
  py_symbol_match_lengths eq_signed two_zeros = Some [3].
Proof. repeat split; vm_compute; reflexivity. Qed.

Lemma _true_entropy_bounds_witness :
  1 <= List.length abac /\
  exists r,
    _true_entropy str_float abac = Return (Fin r) /\
    (2 * log2 (INR (List.length abac)) / (INR (List.length abac) + 1) <= r)%R /\
    (r <= INR (List.length abac) * log2 (INR (List.length abac))
          / (INR (List.length abac) + 1))%R /\
    (r <= log2 (INR (List.length abac)))%R /\
    (2 <= List.length abac -> (0 < r)%R).
Proof.
  split; [simpl; lia|].
  apply (_true_entropy_bounds Z str_float abac). simpl; lia.
Defined.

Lemma constant_trajectory_entropies_witness :
  1 <= 3 /\
  _random_entropy_individual Z.eq_dec (repeat (1, 1)%Z 3) = Return (Fin 0) /\
  _uncorrelated_entropy_individual Z.eq_dec (repeat (1, 1)%Z 3) true
    = Return (Fin 0).
Proof.
  split; [lia|].
  apply (constant_trajectory_entropies Z Z.eq_dec (1, 1)%Z 3 true). lia.
Defined.

Lemma all_distinct_sequence_entropy_witness :
  NoDup abcdef /\ faithful str_float Z.eq_dec abcdef = true /\
  match_lengths str_float abcdef = Some (repeat 1 (List.length abcdef - 2)) /\
  _true_entropy str_float abcdef =
    Return (Fin (INR (List.length abcdef) * log2 (INR (List.length abcdef))
                 / (INR (List.length abcdef) + 1))%R).
Proof.
  assert (Hnd : NoDup abcdef).
  { repeat constructor; simpl; intuition discriminate. }
  split; [exact Hnd|]. split; [reflexivity|].
  apply (all_distinct_sequence_entropy Z str_float Z.eq_dec abcdef Hnd);
    [reflexivity|simpl; lia].
Defined.


Lemma frequency_rank_order_witness :
  Permutation
    (sort_by_count_descending (count_per_location Z.eq_dec timed_visits))
    (count_per_location Z.eq_dec timed_visits) /\
  map snd (_frequency_rank_individual Z.eq_dec sort_by_count_descending
             timed_visits)
    = seq 1 (_number_of_locations_individual Z.eq_dec timed_visits) /\
  NoDup (map fst (_frequency_rank_individual Z.eq_dec
                    sort_by_count_descending timed_visits)).
Proof.
  split; [apply sort_by_count_descending_perm|].
  pose proof (frequency_rank_order Z Z.eq_dec sort_by_count_descending
                timed_visits (sort_by_count_descending_perm _)
                timed_counts_sorted) as H.
  split; [exact (proj1 H)|exact (proj1 (proj2 H))].
Defined.

Lemma timed_pool_sorted :
  StronglySorted (fun c d : row Z * nat => snd d <= snd c)
    (sort_by_count_descending
       (count_per_location Z.eq_dec
          (home_pool night_hours timed_visits "22:00" "07:00"))).
Proof.
  sorted_by_computation
    (sort_by_count_descending
       (count_per_location Z.eq_dec
          (home_pool night_hours timed_visits "22:00" "07:00"))).
Qed.

Lemma home_location_most_visited_witness :
  timed_visits <> [] /\
  exists home,
    _home_location_individual Z.eq_dec sort_by_count_descending night_hours
      timed_visits "22:00" "07:00" = Some home /\
    In home (map (@location Z)
               (home_pool night_hours timed_visits "22:00" "07:00")) /\
    In home (map (@location Z) timed_visits) /\
    forall key,
      count_occ (row_eq_dec Z.eq_dec)
        (map (@location Z)
           (home_pool night_hours timed_visits "22:00" "07:00")) key
      <= count_occ (row_eq_dec Z.eq_dec)
           (map (@location Z)
              (home_pool night_hours timed_visits "22:00" "07:00")) home.
Proof.
  split; [discriminate|].
  apply (home_location_most_visited Z Z.eq_dec sort_by_count_descending
           night_hours timed_visits "22:00" "07:00"
           (sort_by_count_descending_perm _) timed_pool_sorted).
  discriminate.
Defined.

Lemma recency_rank_order_witness :
  Permutation (sort_by_datetime_descending timed_visits) timed_visits /\
  map snd (_recency_rank_individual Z.eq_dec sort_by_datetime_descending
             timed_visits)
    = seq 1 (_number_of_locations_individual Z.eq_dec timed_visits) /\
  NoDup (map fst (_recency_rank_individual Z.eq_dec
                    sort_by_datetime_descending timed_visits)).
Proof.
  split; [apply sort_by_datetime_descending_perm|].
  pose proof (recency_rank_order Z Z.eq_dec sort_by_datetime_descending
                timed_visits (sort_by_datetime_descending_perm _)
                timed_visits_sorted_descending) as H.
  split; [exact (proj1 H)|exact (proj1 (proj2 H))].
Defined.

Lemma timed_visits_length :
  List.length (sort_by_datetime timed_visits) = List.length timed_visits.
Proof. reflexivity. Qed.

Lemma maximum_distance_is_a_largest_jump_witness :
  List.length (sort_by_datetime timed_visits) = List.length timed_visits /\
  2 <= List.length timed_visits /\
  exists jumps m,
    _jump_lengths_individual grid_distance sort_by_datetime timed_visits
      = Some jumps /\
    _maximum_distance_individual grid_distance sort_by_datetime timed_visits
      = Some (Fin m) /\
    In m jumps /\ forall j, In j jumps -> (j <= m)%R.
Proof.
  split; [reflexivity|]. split; [simpl; lia|].
  apply (maximum_distance_is_a_largest_jump Z grid_distance sort_by_datetime
           timed_visits timed_visits_length).
  simpl; lia.
Defined.

Lemma distance_straight_line_is_the_sum_witness :
  List.length (sort_by_datetime timed_visits) = List.length timed_visits /\
  (forall a b, 0 <= grid_distance a b)%R /\
  2 <= List.length timed_visits /\
  exists jumps m,
    _jump_lengths_individual grid_distance sort_by_datetime timed_visits
      = Some jumps /\
    _distance_straight_line_individual grid_distance sort_by_datetime
      timed_visits = Some (Rsum jumps) /\
    _maximum_distance_individual grid_distance sort_by_datetime timed_visits
      = Some (Fin m) /\
    (m <= Rsum jumps)%R.
Proof.
  split; [reflexivity|]. split; [exact grid_distance_nonneg|].
  split; [simpl; lia|].
  apply (distance_straight_line_is_the_sum Z grid_distance sort_by_datetime
           timed_visits timed_visits_length grid_distance_nonneg).
  simpl; lia.
Defined.

Lemma distance_straight_line_ge_displacement_witness :
  List.length timed_visits <> 1 /\
  map (@location Z) (sort_by_datetime timed_visits)
    = (1, 1)%Z :: [(1, 1); (2, 2)]%Z ++ [(3, 3)%Z] /\
  exists d,
    _distance_straight_line_individual grid_distance sort_by_datetime
      timed_visits = Some d /\
    (grid_distance (3, 3)%Z (1, 1)%Z <= d)%R.
Proof.
  split; [discriminate|]. split; [reflexivity|].
  apply (distance_straight_line_ge_displacement Z grid_distance
           sort_by_datetime timed_visits (1, 1)%Z (3, 3)%Z
           [(1, 1); (2, 2)]%Z grid_distance_triangle);
    [discriminate|reflexivity].
Defined.

Lemma waiting_times_nonnegative_witness :
  Permutation (sort_by_datetime timed_visits) timed_visits /\
  List.length (_waiting_times_individual sort_by_datetime timed_visits)
    = List.length timed_visits - 1 /\
  Forall (fun w => (0 <= w)%Z)
         (_waiting_times_individual sort_by_datetime timed_visits).
Proof.
  split; [apply sort_by_datetime_perm|].
  exact (waiting_times_nonnegative Z sort_by_datetime timed_visits
           (sort_by_datetime_perm _) timed_visits_sorted).
Defined.

Lemma waiting_times_span_witness :
  Permutation (sort_by_datetime timed_visits) timed_visits /\
  timed_visits <> [] /\
  exists t_first t_last,
    In t_first (map (@datetime Z) timed_visits) /\
    In t_last (map (@datetime Z) timed_visits) /\
    (forall v, In v timed_visits -> (t_first <= datetime v <= t_last)%Z) /\
    (t_last - t_first
       - 999999999 * Z.of_nat (List.length timed_visits - 1)
     <= 1000000000
        * Zsum (_waiting_times_individual sort_by_datetime timed_visits)
     <= t_last - t_first)%Z /\
    ((forall v, In v timed_visits -> (datetime v mod 1000000000 = 0)%Z) ->
     (1000000000
      * Zsum (_waiting_times_individual sort_by_datetime timed_visits)
      = t_last - t_first)%Z).
Proof.
  split; [apply sort_by_datetime_perm|]. split; [discriminate|].
  apply (waiting_times_span Z sort_by_datetime timed_visits
           (sort_by_datetime_perm _) timed_visits_sorted).
  discriminate.
Defined.

Lemma random_entropy_per_user_witness :
  [(7, (1, 1)); (3, (2, 2)); (7, (2, 2))]%Z <> [] /\
  exists table,
    random_entropy Z.eq_dec
      (WithUid [(7, (1, 1)); (3, (2, 2)); (7, (2, 2))]%Z) true
      = Returns (PerUser "random_entropy" table) /\
    StronglySorted Z.lt (map fst table) /\
    (forall uid, In uid (map fst table)
                 <-> In uid (map fst [(7, (1, 1)); (3, (2, 2)); (7, (2, 2))]%Z)) /\
    (forall uid v, In (uid, v) table ->
       rows_of_user [(7, (1, 1)); (3, (2, 2)); (7, (2, 2))]%Z uid <> [] /\
       _random_entropy_individual Z.eq_dec
         (rows_of_user [(7, (1, 1)); (3, (2, 2)); (7, (2, 2))]%Z uid)
         = Return v).
Proof.
  split; [discriminate|].
  apply (random_entropy_per_user Z Z.eq_dec
           [(7, (1, 1)); (3, (2, 2)); (7, (2, 2))]%Z true).
  discriminate.
Defined.

Lemma uncorrelated_entropy_per_user_witness :
  [(7, (1, 1)); (3, (2, 2)); (7, (2, 2))]%Z <> [] /\
  exists table,
    uncorrelated_entropy Z.eq_dec
      (WithUid [(7, (1, 1)); (3, (2, 2)); (7, (2, 2))]%Z) true false
      = Returns (PerUser "norm_uncorrelated_entropy" table) /\
    StronglySorted Z.lt (map fst table).
Proof.
  split; [discriminate|].
  destruct (uncorrelated_entropy_per_user Z Z.eq_dec
              [(7, (1, 1)); (3, (2, 2)); (7, (2, 2))]%Z true false
              ltac:(discriminate)) as [table [H1 [H2 _]]].
  exists table. split; assumption.
Defined.

Lemma real_entropy_per_user_witness :
  [(7, (1, 1)); (3, (2, 2)); (7, (2, 2))]%Z <> [] /\
  exists table,
    real_entropy str_float
      (WithUid [(7, (1, 1)); (3, (2, 2)); (7, (2, 2))]%Z) true
      = Returns (PerUser "real_entropy" table) /\
    StronglySorted Z.lt (map fst table).
Proof.
  split; [discriminate|].
  destruct (real_entropy_per_user Z str_float
              [(7, (1, 1)); (3, (2, 2)); (7, (2, 2))]%Z true
              ltac:(discriminate)) as [table [H1 [H2 _]]].
  exists table. split; assumption.
Defined.

Lemma uncorrelated_entropy_without_uid_witness :
  visits_aba <> [] /\
  uncorrelated_entropy Z.eq_dec (NoUid visits_aba) true true
  = Returns (OneValue "norm_uncorrelated_entropy"
                      (Fin (shannon Z.eq_dec visits_aba))).
Proof.
  split; [discriminate|].
  apply (uncorrelated_entropy_without_uid Z Z.eq_dec visits_aba true true).
  discriminate.
Defined.

Lemma number_of_visits_partition_witness :
  [(7, (1, 1)); (3, (2, 2)); (7, (2, 2))]%Z <> [] /\
  exists table,
    number_of_visits (WithUid [(7, (1, 1)); (3, (2, 2)); (7, (2, 2))]%Z) true
      = CountPerUser "number_of_visits" table /\
    StronglySorted Z.lt (map fst table) /\
    list_sum (map snd table) = 3.
Proof.
  split; [discriminate|].
  destruct (number_of_visits_partition Z
              [(7, (1, 1)); (3, (2, 2)); (7, (2, 2))]%Z true
              ltac:(discriminate)) as [table [H1 [H2 [_ [_ [H3 _]]]]]].
  exists table. split; [exact H1|]. split; [exact H2|exact H3].
Defined.

(** ** The normalised uncorrelated entropy in binary64 *)

(** C9 (as the code has it).  Evaluated in binary64 the normalised
    uncorrelated entropy leaves the interval [[0, 1]]: on five visits
    to five distinct locations every frequency is 0.2, the sum of the
    five terms [-0.2 * log(0.2)] divided by [np.log(2.0)] is
    2.3219280948873626, which is above [np.log2(5)] =
    2.321928094887362, and the quotient that is returned is
    1.0000000000000002.  The logarithms enter through their values at
    0.2, 2 and 5. *)
Theorem normalized_uncorrelated_exceeds_one (m : Float64.libm) :
  Float64.c_log m 0.2%float = (-1.6094379124341003)%float ->
  Float64.np_log m 2%float = 0.6931471805599453%float ->
  Float64.np_log2 m 5%float = 2.321928094887362%float ->
  _uncorrelated_entropy_individual_float64 Z.eq_dec m five_locations false
    = Returns 2.3219280948873626%float /\
  _uncorrelated_entropy_individual_float64 Z.eq_dec m five_locations true
    = Returns 1.0000000000000002%float /\
  (2.321928094887362 <? 2.3219280948873626)%float = true /\
  (1 <? 1.0000000000000002)%float = true.
Proof.
  destruct m as [c_log np_log np_log2]. cbn [Float64.c_log Float64.np_log Float64.np_log2].
  intros Hlog Hlog_2 Hlog2_5.
  assert (Hsum : Float64.stats_entropy
                   {| Float64.c_log := c_log; Float64.np_log := np_log;
                      Float64.np_log2 := np_log2 |}
                   [0.2; 0.2; 0.2; 0.2; 0.2]%float 2%float
                 = 2.3219280948873626%float).
  { unfold Float64.stats_entropy, Float64.fsum, Float64.entr.
    cbn [map fold_left Float64.c_log Float64.np_log].
    replace (1.0 * 0.2 / (0 + 0.2 + 0.2 + 0.2 + 0.2 + 0.2))%float
      with 0.2%float by reflexivity.
    rewrite Hlog, Hlog_2. reflexivity. }
  assert (Hprobs : probs_of_float64 (groupby Z.eq_dec five_locations) 5
                   = inr [0.2; 0.2; 0.2; 0.2; 0.2]%float)
    by reflexivity.
  unfold _uncorrelated_entropy_individual_float64.
  change (List.length five_locations) with 5.
  rewrite Hprobs, Hsum.
  change (List.length (np_unique Z.eq_dec five_locations)) with 5.
  change (Float64.of_int 5) with 5%float.
  cbn [Float64.np_log2 Nat.ltb Nat.leb]. rewrite Hlog2_5.
  repeat split; reflexivity.
Qed.

Lemma normalized_uncorrelated_exceeds_one_witness :
  Float64.c_log logs_at_points 0.2%float = (-1.6094379124341003)%float /\
  Float64.np_log logs_at_points 2%float = 0.6931471805599453%float /\
  Float64.np_log2 logs_at_points 5%float = 2.321928094887362%float /\
  _uncorrelated_entropy_individual_float64 Z.eq_dec logs_at_points
    five_locations false = Returns 2.3219280948873626%float /\
  _uncorrelated_entropy_individual_float64 Z.eq_dec logs_at_points
    five_locations true = Returns 1.0000000000000002%float /\
  (2.321928094887362 <? 2.3219280948873626)%float = true /\
  (1 <? 1.0000000000000002)%float = true.
Proof.
  split; [reflexivity|]. split; [reflexivity|]. split; [reflexivity|].
  apply (normalized_uncorrelated_exceeds_one logs_at_points); reflexivity.
Defined.
